(** * SentinelFS: the write-path detection and protection engine

    A shallow embedding of [src/sentinelfs.c] (path translation, Shannon
    entropy, the LibMagic safe-list, the JIT backup, the write gate and the
    [write]/[create] callbacks) and the properties of it that the
    specification states.

    Modelling conventions.
    - [unsigned char] buffers are [list byte]; C strings are [string].
    - [unsigned long] is 64 bits wide (LP64): every increment of a counter
      is written with its wrap-around, [wrap64].
    - A [double] is the real number it denotes, and every conversion and
      arithmetic operation of [calculate_entropy] is followed by the
      rounding of binary64, [RN] (to nearest, ties to even, one rounding
      per operation: the arithmetic of an x86-64 build, no fused
      multiply-add). [RN] has no exponent range; the values that the
      function rounds are counts below [2^64], quotients in [[2^-64, 1]],
      products of these with their logarithms and sums of at most 256
      such products, and each is shown to be zero or of a magnitude
      between [2^-1022] and [2^1023] ([in_binary64_range]), where
      binary64 rounds as [RN] does.
    - The function [log2] of the C library is not specified to the bit: it
      is a parameter of the development, [libm_log2]. What is assumed of
      it is written in the theorems that need it ([log2_accurate]: a
      relative error of at most [2^-50], four units in the last place).
    - LibMagic is an external collaborator: the loaded cookie is the
      function from buffers to an optional media-type string that
      [magic_buffer] computes with it.
    - The operating system is a small deterministic model, [world]: a flat
      name space of regular files, a set of paths on which opening is
      refused, the free space of the storage, the clock, the number of open
      descriptors, and the system calls and diagnostics issued so far.
      Calls are executed one after the other (one callback at a time);
      what two calls of [detect_ransomware] at once do to the counters is
      modelled apart, access by access ([gate_step], [run_gates]). *)

From Stdlib Require Import ZArith List String Ascii Reals Lra Lia DecimalString.
From Stdlib Require Strings.Byte.
From stdpp Require Import base gmap strings list.
Import ListNotations.
Open Scope Z_scope.

Abbreviation byte := Init.Byte.byte.

(** ** Configuration ([#define]s) and errno values *)

Definition ENTROPY_THRESHOLD : R := 7.5%R.
Definition JIT_BACKUP_MAX_SIZE : Z := 50 * 1024 * 1024.
Definition MAX_PATH : nat := 4096.
Definition BACKUP_DIR : string := ".sentinelfs_backups".

(** [sizeof(buffer)] for the [char buffer[8192]] of [create_jit_backup]. *)
Definition sizeof_buffer : nat := Z.to_nat 8192.
Arguments sizeof_buffer : simpl never.

Definition ENOENT : Z := 2.
Definition EIO : Z := 5.
Definition EACCES : Z := 13.
Definition ENOSPC : Z := 28.

(** ** Machine integers *)

(** [unsigned long] arithmetic is modulo [2^64]. *)
Definition wrap64 (z : Z) : Z := z mod 2 ^ 64.

(** Conversion to [int] ([int res = pwrite(...)]). *)
Definition to_int (z : Z) : Z := (z + 2 ^ 31) mod 2 ^ 32 - 2 ^ 31.

(** ** Global context and statistics *)

Record sentinelfs_context_t := {
  storage_path : string;
  backup_path : string;
  magic_cookie : list byte → option string
}.

Record stats_t := {
  total_writes : Z;
  blocked_writes : Z;
  backups_created : Z
}.

(** The initial value of the global [stats]. *)
Definition stats_init : stats_t :=
  {| total_writes := 0; blocked_writes := 0; backups_created := 0 |}.

(** [stats.backups_created++], [stats.total_writes++] and
    [stats.blocked_writes++]. *)
Definition incr_backups_created (s : stats_t) : stats_t :=
  {| total_writes := total_writes s;
     blocked_writes := blocked_writes s;
     backups_created := wrap64 (backups_created s + 1) |}.

Definition incr_total_writes (s : stats_t) : stats_t :=
  {| total_writes := wrap64 (total_writes s + 1);
     blocked_writes := blocked_writes s;
     backups_created := backups_created s |}.

Definition incr_blocked_writes (s : stats_t) : stats_t :=
  {| total_writes := total_writes s;
     blocked_writes := wrap64 (blocked_writes s + 1);
     backups_created := backups_created s |}.

(** ** The environment *)

(** Lines written to the standard error stream. *)
Inductive diag :=
| LibMagicError
| SkippingBackup (source_path : string)
| JitBackupCreated (source_path backup_path : string)
| RansomwareDetected (entropy : R).

(** System and library calls on files, in the order they are issued. *)
Inductive syscall :=
| SysStat (path : string)
| SysFopen (path mode : string)
| SysFread (path : string) (wanted : nat)
| SysFwrite (path : string) (wanted : nat)
| SysFclose (path : string)
| SysOpen (path : string)
| SysPwrite (path : string) (len : nat) (offset : Z)
| SysClose (path : string)
| SysCreat (path : string).

Record world := {
  files : gmap string (list byte);
  denied : gset string;
  space : nat;
  clock : Z;
  open_fds : nat;
  trace : list syscall;
  stderr : list diag;
  stats : stats_t
}.

Definition set_files (f : gmap string (list byte)) (w : world) : world :=
  {| files := f; denied := denied w; space := space w; clock := clock w;
     open_fds := open_fds w; trace := trace w; stderr := stderr w;
     stats := stats w |}.

Definition set_space (n : nat) (w : world) : world :=
  {| files := files w; denied := denied w; space := n; clock := clock w;
     open_fds := open_fds w; trace := trace w; stderr := stderr w;
     stats := stats w |}.

Definition set_open_fds (n : nat) (w : world) : world :=
  {| files := files w; denied := denied w; space := space w; clock := clock w;
     open_fds := n; trace := trace w; stderr := stderr w; stats := stats w |}.

Definition set_stats (s : stats_t) (w : world) : world :=
  {| files := files w; denied := denied w; space := space w; clock := clock w;
     open_fds := open_fds w; trace := trace w; stderr := stderr w;
     stats := s |}.

(** [sys c w] records the call [c]. *)
Definition sys (c : syscall) (w : world) : world :=
  {| files := files w; denied := denied w; space := space w; clock := clock w;
     open_fds := open_fds w; trace := trace w ++ [c]; stderr := stderr w;
     stats := stats w |}.

(** [fprintf(stderr, ...)]. *)
Definition eprint (d : diag) (w : world) : world :=
  {| files := files w; denied := denied w; space := space w; clock := clock w;
     open_fds := open_fds w; trace := trace w; stderr := stderr w ++ [d];
     stats := stats w |}.

(** Result of a call that sets [errno] on failure. *)
Inductive result (A : Type) :=
| Ok (a : A)
| Err (errno : Z).
Arguments Ok {A} a.
Arguments Err {A} errno.

(** ** The operating system and the C library

    Only regular files are modelled, under their full path. Opening a path
    in [denied] fails with [EACCES]; a file that is missing is reported
    before that by the calls that do not create it: with the error of the
    path lookup ([lookup_errno]) by [open(O_WRONLY)], the call whose error
    the write callback returns, and with [ENOENT] by the other calls. A
    write takes as many bytes as the storage has room for. *)

Definition EINVAL : Z := 22.
Definition ENOTDIR : Z := 20.
Definition ENAMETOOLONG : Z := 36.

(** [PATH_MAX] and [NAME_MAX] of [<limits.h>] on Linux. *)
Definition PATH_MAX : nat := 4096.
Definition NAME_MAX : nat := 255.

(** The components of a path: what stands between its slashes. *)
Fixpoint path_components_from (current path : string) : list string :=
  match path with
  | EmptyString => [current]
  | String c rest =>
      if Ascii.eqb c "/" then current :: path_components_from "" rest
      else path_components_from (current +:+ String c "") rest
  end.

Definition path_components (path : string) : list string :=
  path_components_from "" path.

(** The walk of the kernel along the components of a path that names no
    file, [here] being the part of the path already walked: a component
    of more than [NAME_MAX] bytes is [ENAMETOOLONG]; a component that is
    followed by another one has to be a directory, and is [ENOTDIR] when
    it is a regular file; what is still missing at the end is [ENOENT].
    Directories and symbolic links are not modelled: a component that is
    no regular file is walked through as a directory. *)
Fixpoint walk_errno (fs : gmap string (list byte)) (here : string)
    (names : list string) : Z :=
  match names with
  | [] => ENOENT
  | name :: rest =>
      if (NAME_MAX <? String.length name)%nat then ENAMETOOLONG
      else
        match rest with
        | [] => ENOENT
        | _ :: _ =>
            if decide (is_Some (fs !! (here +:+ name))) then ENOTDIR
            else walk_errno fs (here +:+ name +:+ "/") rest
        end
  end.

(** [errno] after the lookup of a path that names no file. *)
Definition lookup_errno (fs : gmap string (list byte)) (path : string) : Z :=
  if (PATH_MAX <=? String.length path)%nat then ENAMETOOLONG
  else walk_errno fs "" (path_components path).

(** [stat(2)], of which the code reads [st_size] only. *)
Definition os_stat (path : string) (w : world) : result Z * world :=
  let w := sys (SysStat path) w in
  match files w !! path with
  | Some data => (Ok (Z.of_nat (length data)), w)
  | None => (Err ENOENT, w)
  end.

(** A [FILE *]: the file it is open on and its read position. *)
Record FILE := {
  f_path : string;
  f_pos : nat
}.

(** [fopen(path, "rb")]; [None] is the null pointer. *)
Definition fopen_rb (path : string) (w : world) : option FILE * world :=
  let w := sys (SysFopen path "rb") w in
  match files w !! path with
  | None => (None, w)
  | Some _ =>
      if decide (path ∈ denied w) then (None, w)
      else (Some {| f_path := path; f_pos := 0 |},
            set_open_fds (S (open_fds w)) w)
  end.

(** [fopen(path, "wb")]: creates the file or truncates it to length zero. *)
Definition fopen_wb (path : string) (w : world) : option FILE * world :=
  let w := sys (SysFopen path "wb") w in
  if decide (path ∈ denied w) then (None, w)
  else
    let old := default [] (files w !! path) in
    (Some {| f_path := path; f_pos := 0 |},
     set_open_fds (S (open_fds w))
       (set_space (space w + length old)
          (set_files (<[path := []]> (files w)) w))).

(** [fread(buffer, 1, n, f)]: the next (at most [n]) bytes of the file. *)
Definition fread (n : nat) (f : FILE) (w : world) : list byte * FILE * world :=
  let w := sys (SysFread (f_path f) n) w in
  let data := default [] (files w !! f_path f) in
  let chunk := take n (drop (f_pos f) data) in
  (chunk, {| f_path := f_path f; f_pos := f_pos f + length chunk |}, w).

(** [fwrite(chunk, 1, length chunk, f)] on a stream opened with ["wb"],
    which is positioned at the end of the file: appends what fits and
    returns the number of bytes written. *)
Definition fwrite (chunk : list byte) (f : FILE) (w : world) : nat * world :=
  let w := sys (SysFwrite (f_path f) (length chunk)) w in
  let data := default [] (files w !! f_path f) in
  let written := take (space w) chunk in
  (length written,
   set_space (space w - length written)
     (set_files (<[f_path f := data ++ written]> (files w)) w)).

Definition fclose (f : FILE) (w : world) : world :=
  set_open_fds (pred (open_fds w)) (sys (SysFclose (f_path f)) w).

(** [open(path, O_WRONLY)]: no [O_CREAT], so a missing file is an error,
    the one that the lookup of the path reports. The descriptor is
    represented by the path it is open on. *)
Definition os_open_wronly (path : string) (w : world) : result string * world :=
  let w := sys (SysOpen path) w in
  match files w !! path with
  | None => (Err (lookup_errno (files w) path), w)
  | Some _ =>
      if decide (path ∈ denied w) then (Err EACCES, w)
      else (Ok path, set_open_fds (S (open_fds w)) w)
  end.

(** [pwrite(fd, buf, size, offset)]: nothing happens for [size = 0];
    otherwise the bytes are stored at [offset] (a hole before it reads as
    zeros and takes no room), as many as fit when the storage fills up
    (a short write), with [ENOSPC] when not even one fits. *)
Definition os_pwrite (fd : string) (buf : list byte) (offset : Z) (w : world)
  : result Z * world :=
  let w := sys (SysPwrite fd (length buf) offset) w in
  if offset <? 0 then (Err EINVAL, w)
  else if (length buf =? 0)%nat then (Ok 0, w)
  else
    let data := default [] (files w !! fd) in
    let off := Z.to_nat offset in
    let grow := (off + length buf - Nat.max off (length data))%nat in
    let n := (length buf - (grow - space w))%nat in
    if (n =? 0)%nat then (Err ENOSPC, w)
    else
      let padded := data ++ replicate (off - length data) Byte.x00 in
      (Ok (Z.of_nat n),
       set_space (space w - grow)
         (set_files
            (<[fd := take off padded ++ take n buf ++ drop (off + n) data]>
               (files w)) w)).

Definition os_close (fd : string) (w : world) : world :=
  set_open_fds (pred (open_fds w)) (sys (SysClose fd) w).

(** [creat(path, mode)], that is [open] with [O_CREAT|O_WRONLY|O_TRUNC];
    permission bits are not modelled. *)
Definition os_creat (path : string) (w : world) : result string * world :=
  let w := sys (SysCreat path) w in
  if decide (path ∈ denied w) then (Err EACCES, w)
  else
    let old := default [] (files w !! path) in
    (Ok path,
     set_open_fds (S (open_fds w))
       (set_space (space w + length old)
          (set_files (<[path := []]> (files w)) w))).

(** [snprintf(out, size, ...)] of a formatted string [s]: at most
    [size - 1] characters are stored, followed by the terminator. *)
Definition snprintf (size : nat) (s : string) : string :=
  String.substring 0 (size - 1) s.

(** [strstr(haystack, needle)]: the offset of the first occurrence of
    [needle], [None] for the null pointer. *)
Definition strstr (haystack needle : string) : option nat :=
  String.index 0 needle haystack.

(** [strrchr(s, c)]: the suffix of [s] that starts at the last [c]. *)
Fixpoint strrchr (s : string) (c : ascii) : option string :=
  match s with
  | EmptyString => None
  | String a s' =>
      match strrchr s' c with
      | Some r => Some r
      | None => if Ascii.eqb a c then Some s else None
      end
  end.

(** The [%ld] conversion. *)
Definition print_ld (z : Z) : string := NilZero.string_of_int (Z.to_int z).

(** ** Binary64 arithmetic *)

(** The base-2 logarithm of the real numbers. *)
Definition log2 (x : R) : R := (ln x / ln 2)%R.

(** The exponent [e] of the binade [[2^e, 2^(e+1))] of a positive real. *)
Definition binade (x : R) : Z := up (log2 x) - 1.

(** The integer nearest to [m], the even one of the two when [m] is half
    way between them. *)
Definition round_half_even (m : R) : Z :=
  let f := up m - 1 in
  let d := (m - IZR f)%R in
  if Rlt_dec d (1 / 2) then f
  else if Rlt_dec (1 / 2) d then f + 1
  else if Z.even f then f else f + 1.

(** Rounding to the nearest number with a significand of 53 bits. *)
Definition RN (x : R) : R :=
  if Req_dec_T x 0 then 0%R
  else
    let e := binade (Rabs x) in
    let m := round_half_even (Rabs x * powerRZ 2 (52 - e)) in
    ((if Rlt_dec x 0 then -1 else 1) * IZR m * powerRZ 2 (e - 52))%R.

(** The largest relative error of one rounding. *)
Definition unit_roundoff : R := (/ 2 ^ 53)%R.

(** What the theorems on the value of the entropy assume of the [log2] of
    the C library, on the arguments that the program gives it (the
    probabilities, in [(0, 1]]): a relative error of at most [2^-50]. In
    particular [log2(1)] is 0 and no result is positive. *)
Definition libm_log2_error : R := (/ 2 ^ 50)%R.

Definition log2_accurate (f : R → R) : Prop :=
  ∀ x : R, (0 < x <= 1)%R →
    (Rabs (f x - log2 x) <= libm_log2_error * Rabs (log2 x))%R.

(** The distance that the theorems establish between the value that
    [calculate_entropy] returns and the Shannon entropy. *)
Definition entropy_tolerance : R := (/ 2 ^ 37)%R.

(** A [log2] that meets the assumption: the correctly rounded one. *)
Definition rounded_log2 (x : R) : R := RN (log2 x).

#[local] Instance byte_eq_decision : EqDecision byte := Byte.byte_eq_dec.

(** Projections of updated worlds. *)
Ltac wsimpl :=
  cbn [files denied space clock open_fds trace stderr stats
       sys eprint set_files set_space set_open_fds set_stats fclose os_close
       total_writes blocked_writes backups_created
       incr_backups_created incr_total_writes incr_blocked_writes
       f_path f_pos fst snd] in *.

(** ** The program *)

Section Program.

(** [log2] as the C library computes it on [double]s. *)
Variable libm_log2 : R → R.

(** [translate_path]: the FUSE path under the storage directory, written
    into a buffer of [MAX_PATH] bytes. The function returns nothing. *)
Definition translate_path (ctx : sentinelfs_context_t) (path : string) : string :=
  snprintf MAX_PATH (storage_path ctx +:+ path).

(** [get_backup_path]: the backup file name, with the seconds of
    [gettimeofday]. *)
Definition get_backup_path (ctx : sentinelfs_context_t) (original_path : string)
    (w : world) : string :=
  let basename :=
    match strrchr original_path "/" with
    | Some (String _ rest) => rest
    | _ => original_path
    end in
  let tv_sec := clock w in
  snprintf MAX_PATH
    (backup_path ctx +:+ "/" +:+ basename +:+ "." +:+ print_ld tv_sec +:+ ".backup").

(** The frequency table of [calculate_entropy]: 256 counters, all zero,
    then [counts[buffer[i]]++] for each byte in turn. *)
Definition count_step (counts : list Z) (b : byte) : list Z :=
  alter (λ c, wrap64 (c + 1)) (N.to_nat (Byte.to_N b)) counts.

Definition count_bytes (buffer : list byte) : list Z :=
  fold_left count_step buffer (replicate 256 0).

(** One iteration of the second loop of [calculate_entropy], on slot
    [counts[i] = c]: [(double)counts[i] / len] converts both operands and
    divides, [entropy -= probability * log2(probability)] multiplies and
    subtracts. *)
Definition entropy_step (len : nat) (entropy : R) (c : Z) : R :=
  if 0 <? c then
    let probability := RN (RN (IZR c) / RN (INR len)) in
    RN (entropy - RN (probability * libm_log2 probability))
  else entropy.

(** [calculate_entropy]. *)
Definition calculate_entropy (buffer : list byte) : R :=
  let len := length buffer in
  if (len =? 0)%nat then 0%R
  else fold_left (entropy_step len) (count_bytes buffer) 0%R.

Definition safe_types : list string :=
  [ "text/";
    "application/pdf";
    "application/x-executable";
    "application/x-sharedlib";
    "application/x-shellscript" ].

(** The test [len >= 2 && buffer[0] == '#' && buffer[1] == '!']. *)
Definition has_shebang (buffer : list byte) : bool :=
  match buffer with
  | b0 :: b1 :: _ => Byte.eqb b0 Byte.x23 && Byte.eqb b1 Byte.x21
  | _ => false
  end.

(** [is_whitelisted_file]. *)
Definition is_whitelisted_file (ctx : sentinelfs_context_t) (buffer : list byte)
    (w : world) : Z * world :=
  match magic_cookie ctx buffer with
  | None => (0, eprint LibMagicError w)
  | Some mime =>
      if existsb (λ safe, bool_decide (strstr mime safe = Some 0%nat)) safe_types
      then (1, w)
      else if has_shebang buffer then (1, w)
      else (0, w)
  end.

(** The copy loop of [create_jit_backup]; the return value of [fwrite] is
    not looked at. [None]: out of fuel. *)
Fixpoint copy_loop (fuel : nat) (src dst : FILE) (w : world) : option world :=
  match fuel with
  | O => None
  | S fuel' =>
      let '(chunk, src', w1) := fread sizeof_buffer src w in
      if (0 <? length chunk)%nat then
        let '(_, w2) := fwrite chunk dst w1 in
        copy_loop fuel' src' dst w2
      else Some w1
  end.

(** [create_jit_backup]. *)
Definition create_jit_backup (fuel : nat) (ctx : sentinelfs_context_t)
    (source_path : string) (w : world) : option (Z * world) :=
  match os_stat source_path w with
  | (Err _, w) => Some (-1, w)
  | (Ok st_size, w) =>
      if JIT_BACKUP_MAX_SIZE <? st_size then
        Some (0, eprint (SkippingBackup source_path) w)
      else
        let backup := get_backup_path ctx source_path w in
        match fopen_rb source_path w with
        | (None, w) => Some (-1, w)
        | (Some src, w) =>
            match fopen_wb backup w with
            | (None, w) => Some (-1, fclose src w)
            | (Some dst, w) =>
                match copy_loop fuel src dst w with
                | None => None
                | Some w =>
                    let w := fclose dst (fclose src w) in
                    let w := set_stats (incr_backups_created (stats w)) w in
                    Some (0, eprint (JitBackupCreated source_path backup) w)
                end
            end
        end
  end.

(** [detect_ransomware]. *)
Definition detect_ransomware (ctx : sentinelfs_context_t) (buffer : list byte)
    (w : world) : Z * world :=
  let w := set_stats (incr_total_writes (stats w)) w in
  let '(whitelisted, w) := is_whitelisted_file ctx buffer w in
  if negb (whitelisted =? 0) then (0, w)
  else
    let entropy := calculate_entropy buffer in
    if Rgt_dec entropy ENTROPY_THRESHOLD then
      let w := set_stats (incr_blocked_writes (stats w)) w in
      (- EIO, eprint (RansomwareDetected entropy) w)
    else (0, w).

(** The accesses of [detect_ransomware] to the global [stats], one at a
    time. [fuse_main] serves requests on several threads (unless it is
    given [-s]), and the counters are plain [unsigned long]s: an increment
    is a load followed by a store, and the loads and stores of two calls
    can interleave. A call is, in turn: at its entry; holding
    [total_writes] in a register; past [total_writes++] and examining the
    buffer; holding [blocked_writes] in a register; returned. *)
Inductive gate_thread :=
| GateEntered
| GateLoadedTotal (v : Z)
| GateCounted
| GateLoadedBlocked (v : Z)
| GateReturned (r : Z).

(** One access of a call to [stats]; [blocks] is the verdict on the
    buffer of the call (not safe-listed and of high entropy). *)
Definition gate_step (blocks : bool) (t : gate_thread) (s : stats_t)
  : gate_thread * stats_t :=
  match t with
  | GateEntered => (GateLoadedTotal (total_writes s), s)
  | GateLoadedTotal v =>
      (GateCounted,
       {| total_writes := wrap64 (v + 1);
          blocked_writes := blocked_writes s;
          backups_created := backups_created s |})
  | GateCounted =>
      if blocks then (GateLoadedBlocked (blocked_writes s), s)
      else (GateReturned 0, s)
  | GateLoadedBlocked v =>
      (GateReturned (- EIO),
       {| total_writes := total_writes s;
          blocked_writes := wrap64 (v + 1);
          backups_created := backups_created s |})
  | GateReturned r => (GateReturned r, s)
  end.

(** Two calls at once: the schedule says which of the two makes the next
    access ([true]: the first). *)
Fixpoint run_gates (blocks1 blocks2 : bool) (schedule : list bool)
    (t1 t2 : gate_thread) (s : stats_t) : gate_thread * gate_thread * stats_t :=
  match schedule with
  | [] => (t1, t2, s)
  | true :: rest =>
      let '(t1', s') := gate_step blocks1 t1 s in
      run_gates blocks1 blocks2 rest t1' t2 s'
  | false :: rest =>
      let '(t2', s') := gate_step blocks2 t2 s in
      run_gates blocks1 blocks2 rest t1 t2' s'
  end.

(** The first statement of [sentinelfs_write]: the JIT backup, the result
    of which is dropped. *)
Definition write_backup_phase (fuel : nat) (ctx : sentinelfs_context_t)
    (full_path : string) (offset : Z) (w : world) : option world :=
  if offset =? 0 then
    match os_stat full_path w with
    | (Ok st_size, w) =>
        if 0 <? st_size then
          match create_jit_backup fuel ctx full_path w with
          | Some (_, w) => Some w
          | None => None
          end
        else Some w
    | (Err _, w) => Some w
    end
  else Some w.

(** [sentinelfs_write]; [size] is the length of [buf]. *)
Definition sentinelfs_write (fuel : nat) (ctx : sentinelfs_context_t)
    (path : string) (buf : list byte) (offset : Z) (w : world)
  : option (Z * world) :=
  let full_path := translate_path ctx path in
  match write_backup_phase fuel ctx full_path offset w with
  | None => None
  | Some w =>
      let '(detection_result, w) := detect_ransomware ctx buf w in
      if negb (detection_result =? 0) then Some (detection_result, w)
      else
        match os_open_wronly full_path w with
        | (Err errno, w) => Some (- errno, w)
        | (Ok fd, w) =>
            let '(r, w) := os_pwrite fd buf offset w in
            let res := match r with Ok n => to_int n | Err errno => - errno end in
            Some (res, os_close fd w)
        end
  end.

(** [sentinelfs_create]. *)
Definition sentinelfs_create (ctx : sentinelfs_context_t) (path : string)
    (w : world) : Z * world :=
  let full_path := translate_path ctx path in
  match os_creat full_path w with
  | (Err errno, w) => (- errno, w)
  | (Ok fd, w) => (0, os_close fd w)
  end.

(** [returns f r]: the computation [f] returns [r], whatever fuel it is
    given beyond some amount. *)
Definition returns {A : Type} (f : nat → option A) (r : A) : Prop :=
  ∃ fuel0 : nat, ∀ fuel : nat, (fuel0 ≤ fuel)%nat → f fuel = Some r.

(** ** Definitions that follow the specification's words *)

(** Section 4.A: the concatenation, or a path-too-long error ([None]) when
    it exceeds the maximum path length. *)
Definition translate_spec (ctx : sentinelfs_context_t) (virtual_path : string)
  : option string :=
  let concrete := storage_path ctx +:+ virtual_path in
  if (String.length concrete <=? 4096)%nat then Some concrete else None.

(** Number of occurrences in [b] of the byte whose value is [v]. *)
Definition occurrences (v : nat) (b : list byte) : nat :=
  length (filter (λ x, N.to_nat (Byte.to_N x) = v) b).

Definition Rsum (l : list R) : R := foldr Rplus 0%R l.

(** Sections 4.B and 8: [H = - Σ_{i : count_i > 0} (count_i / n) * log2
    (count_i / n)], over the 256 byte values, [n] the buffer length. *)
Definition shannon_entropy (b : list byte) : R :=
  let n := length b in
  let counts := filter (λ c, (0 < c)%nat) ((λ v, occurrences v b) <$> seq 0 256) in
  (- Rsum ((λ c, (INR c / INR n) * log2 (INR c / INR n))%R <$> counts))%R.

(** [s] begins with [p]. *)
Definition starts_with (p s : string) : Prop := ∃ rest : string, s = p +:+ rest.

(** ** Worlds and predicates used in the statements *)

(** The path that a list of components spells. *)
Fixpoint join_path (names : list string) : string :=
  match names with
  | [] => ""
  | name :: rest =>
      match rest with
      | [] => name
      | _ :: _ => name +:+ "/" +:+ join_path rest
      end
  end.

(** A component of [path] that other components follow is a regular
    file: [path] lies below a file. *)
Definition below_a_file (fs : gmap string (list byte)) (path : string) : Prop :=
  ∃ d rest : string, path = d +:+ "/" +:+ rest ∧ is_Some (fs !! d).

(** A component of [path] has more than [NAME_MAX] bytes. *)
Definition has_long_component (path : string) : Prop :=
  ∃ name : string,
    name ∈ path_components path ∧ (NAME_MAX < String.length name)%nat.

(** One term of the sum: [p * log2 p] for [p = c / len]. *)
Definition entropy_term (len c : nat) : R :=
  (INR c / INR len * log2 (INR c / INR len))%R.

(** The reals that binary64 holds with the 53 bits of a normal number
    once they are rounded, and zero: on these the rounding of the format
    is [RN], without underflow or overflow. *)
Definition in_binary64_range (x : R) : Prop :=
  x = 0%R ∨ (powerRZ 2 (-1022) <= Rabs x <= powerRZ 2 1023)%R.

(** What one iteration of the second loop of [calculate_entropy] rounds:
    the two operands of the conversions, the quotient, the product and
    the difference; with them the logarithm that the C library returns. *)
Definition entropy_step_operands (len : nat) (entropy : R) (c : Z) : list R :=
  if 0 <? c then
    let probability := RN (RN (IZR c) / RN (INR len)) in
    [ IZR c; INR len; (RN (IZR c) / RN (INR len))%R;
      libm_log2 probability;
      (probability * libm_log2 probability)%R;
      (entropy - RN (probability * libm_log2 probability))%R ]
  else [].

(** The same along the loop, and for a call of [calculate_entropy]. *)
Fixpoint entropy_operands (len : nat) (entropy : R) (counts : list Z) : list R :=
  match counts with
  | [] => []
  | c :: rest =>
      entropy_step_operands len entropy c
      ++ entropy_operands len (entropy_step len entropy c) rest
  end.

Definition calculate_entropy_operands (buffer : list byte) : list R :=
  let len := length buffer in
  if (len =? 0)%nat then []
  else entropy_operands len 0 (count_bytes buffer).

(** Calls of the pass-through write: [open] of the target and [pwrite]. *)
Definition payload_call (c : syscall) : bool :=
  match c with
  | SysOpen _ | SysPwrite _ _ _ => true
  | _ => false
  end.

(** What the backup machinery leaves alone when it goes from [w] to [w']:
    the detection counters, the access rights, the clock, the standard
    error stream up to new lines, every file but [dst]; and it issues no
    call of the pass-through write. *)
Definition backup_frame (dst : string) (w w' : world) : Prop :=
  total_writes (stats w') = total_writes (stats w)
  ∧ blocked_writes (stats w') = blocked_writes (stats w)
  ∧ denied w' = denied w
  ∧ clock w' = clock w
  ∧ (∀ p : string, p ≠ dst → files w' !! p = files w !! p)
  ∧ ∃ t : list syscall,
      trace w' = trace w ++ t ∧ Forall (λ c, payload_call c = false) t.

(** The world in which the backup file is opened. *)
Definition source_opened (p : string) (w : world) : world :=
  set_open_fds (S (open_fds w)) (sys (SysFopen p "rb") (sys (SysStat p) w)).

(** The world in which the copy loop starts: both files are open, the
    backup file is empty. *)
Definition backup_opened (backup p : string) (w : world) : world :=
  let w1 := sys (SysFopen backup "wb") (source_opened p w) in
  set_open_fds (S (open_fds w1))
    (set_space (space w1 + length (default [] (files w1 !! backup)))
       (set_files (<[backup := []]> (files w1)) w1)).

(** What follows a loop that ended in [w]. *)
Definition backup_finished (backup p : string) (w : world) : world :=
  let w1 := fclose {| f_path := backup; f_pos := 0 |}
              (fclose {| f_path := p; f_pos := 0 |} w) in
  eprint (JitBackupCreated p backup)
    (set_stats (incr_backups_created (stats w1)) w1).

(** A file of [n] bytes. *)
Definition big_file (n : Z) : list byte := replicate (Z.to_nat n) Byte.x41.

(** ** The callbacks beside [write] and [create]

    [trace] is the record of the write path. The calls of the other
    callbacks are not recorded in it; they act on the files, the free
    space and the open descriptors as follows. *)

(** [open(path, O_RDONLY)]. *)
Definition os_open_rdonly (path : string) (w : world) : result string * world :=
  match files w !! path with
  | None => (Err ENOENT, w)
  | Some _ =>
      if decide (path ∈ denied w) then (Err EACCES, w)
      else (Ok path, set_open_fds (S (open_fds w)) w)
  end.

(** [pread(fd, buf, size, offset)]: the bytes stored into [buf], at most
    [size] of them, from [offset] on. *)
Definition os_pread (fd : string) (size : nat) (offset : Z) (w : world)
  : result (list byte) :=
  if offset <? 0 then Err EINVAL
  else Ok (take size (drop (Z.to_nat offset) (default [] (files w !! fd)))).

(** [close(fd)]. *)
Definition os_release (fd : string) (w : world) : world :=
  set_open_fds (pred (open_fds w)) w.

(** [truncate(path, length)]: cuts the file or extends it with zeros;
    what is cut is free again. *)
Definition os_truncate (path : string) (size : Z) (w : world)
  : result unit * world :=
  match files w !! path with
  | None => (Err ENOENT, w)
  | Some data =>
      if decide (path ∈ denied w) then (Err EACCES, w)
      else if size <? 0 then (Err EINVAL, w)
      else
        let n := Z.to_nat size in
        (Ok (),
         set_space (space w + (length data - n))
           (set_files
              (<[path := take n data ++ replicate (n - length data) Byte.x00]>
                 (files w)) w))
  end.

(** [unlink(path)]. *)
Definition os_unlink (path : string) (w : world) : result unit * world :=
  match files w !! path with
  | None => (Err ENOENT, w)
  | Some data =>
      (Ok (),
       set_space (space w + length data) (set_files (delete path (files w)) w))
  end.

(** [sentinelfs_read]: the return value and the bytes stored into [buf]. *)
Definition sentinelfs_read (ctx : sentinelfs_context_t) (path : string)
    (size : nat) (offset : Z) (w : world) : Z * list byte * world :=
  let full_path := translate_path ctx path in
  match os_open_rdonly full_path w with
  | (Err errno, w) => (- errno, [], w)
  | (Ok fd, w) =>
      let '(res, bytes) :=
        match os_pread fd size offset w with
        | Ok bytes => (to_int (Z.of_nat (length bytes)), bytes)
        | Err errno => (- errno, [])
        end in
      (res, bytes, os_release fd w)
  end.

(** [sentinelfs_truncate]. *)
Definition sentinelfs_truncate (ctx : sentinelfs_context_t) (path : string)
    (size : Z) (w : world) : Z * world :=
  let full_path := translate_path ctx path in
  match os_truncate full_path size w with
  | (Err errno, w) => (- errno, w)
  | (Ok _, w) => (0, w)
  end.

(** [sentinelfs_unlink]. *)
Definition sentinelfs_unlink (ctx : sentinelfs_context_t) (path : string)
    (w : world) : Z * world :=
  let full_path := translate_path ctx path in
  match os_unlink full_path w with
  | (Err errno, w) => (- errno, w)
  | (Ok _, w) => (0, w)
  end.

(** The contents of a file [data] after [buf] has been stored in full at
    [offset]. *)
Definition pwrite_image (offset : nat) (buf data : list byte) : list byte :=
  take offset (data ++ replicate (offset - length data) Byte.x00)
  ++ buf ++ drop (offset + length buf) data.

(** The bytes by which a file of [len] bytes grows when [size] bytes are
    stored at [offset]. *)
Definition pwrite_growth (offset size len : nat) : nat :=
  (offset + size - Nat.max offset len)%nat.

(** ** [main]: the context and the arguments handed to FUSE *)

(** The context as [main] fills it ([storage] is the result of
    [realpath]) and [sentinelfs_init] completes it with the cookie. *)
Definition main_context (storage : string) (cookie : list byte → option string)
  : sentinelfs_context_t :=
  {| storage_path := storage;
     backup_path := snprintf MAX_PATH (storage +:+ "/" +:+ BACKUP_DIR);
     magic_cookie := cookie |}.

(** [for (int i = ...; i < argc; i++) fuse_argv[i - 1] = argv[i];] with
    [todo] iterations left. A slot of [fuse_argv] is [None] when it has
    not been written or holds the null pointer. *)
Fixpoint fuse_argv_loop (todo i : nat) (argv : list string)
    (fuse_argv : list (option string)) : list (option string) :=
  match todo with
  | O => fuse_argv
  | S todo' =>
      fuse_argv_loop todo' (S i) argv (<[(i - 1)%nat := argv !! i]> fuse_argv)
  end.

(** The argument vector that [main] prepares for [fuse_main]; [None]
    when [argc < 3] ([main] prints the usage and returns 1). *)
Definition main_fuse_argv (argv : list string) : option (list (option string)) :=
  let argc := length argv in
  if (argc <? 3)%nat then None
  else
    let fuse_argc := (argc - 1)%nat in
    let fuse_argv := replicate (fuse_argc + 1) None in
    let fuse_argv := <[0%nat := argv !! 0%nat]> fuse_argv in
    let fuse_argv := fuse_argv_loop (argc - 2) 2 argv fuse_argv in
    Some (<[fuse_argc := None]> fuse_argv).

(** ** Example inputs *)

Fixpoint string_of_chars (n : nat) (c : ascii) : string :=
  match n with
  | O => EmptyString
  | S n' => String c (string_of_chars n' c)
  end.

(** The path of [k] directories, one in the other, each with a name of
    255 bytes. *)
Fixpoint deep_directory (k : nat) : string :=
  match k with
  | O => EmptyString
  | S k' => "/" +:+ string_of_chars 255 "d" +:+ deep_directory k'
  end.

(** The 256 byte values, once each. *)
Definition all_bytes : list byte :=
  omap (λ i, Byte.of_N (N.of_nat i)) (seq 0 256).

Definition example_ctx (classifier : list byte → option string)
  : sentinelfs_context_t :=
  {| storage_path := "/srv/storage";
     backup_path := "/srv/storage/.sentinelfs_backups";
     magic_cookie := classifier |}.

Definition example_world (fs : gmap string (list byte)) (room : nat)
    (s : stats_t) : world :=
  {| files := fs; denied := ∅; space := room; clock := 1700000000;
     open_fds := 0; trace := []; stderr := []; stats := s |}.

(** * Properties *)

(** ** Strings *)

Lemma string_app_assoc (a b c : string) : (a +:+ b) +:+ c = a +:+ (b +:+ c).
Proof.
  induction a as [|x a IH]; [reflexivity|].
  change (String x ((a +:+ b) +:+ c) = String x (a +:+ (b +:+ c))).
  now rewrite IH.
Qed.

Lemma string_app_length (a b : string) :
  String.length (a +:+ b) = (String.length a + String.length b)%nat.
Proof.
  induction a as [|x a IH]; [reflexivity|].
  change (S (String.length (a +:+ b)) = S (String.length a + String.length b)).
  now rewrite IH.
Qed.

Lemma strstr_at_start (haystack needle : string) :
  strstr haystack needle = Some 0%nat ↔ String.prefix needle haystack = true.
Proof.
  unfold strstr. destruct haystack as [|a h]; simpl.
  - destruct needle; simpl; split; congruence.
  - destruct needle as [|b n].
    + simpl. split; reflexivity.
    + simpl. destruct (ascii_dec b a) as [->|Hne].
      * destruct (String.prefix n h); [split; reflexivity|].
        destruct (String.index 0 (String a n) h); split; congruence.
      * destruct (String.index 0 (String b n) h); split; congruence.
Qed.

Lemma prefix_starts_with (p s : string) :
  String.prefix p s = true ↔ starts_with p s.
Proof.
  unfold starts_with. revert s. induction p as [|a p IH]; intros s.
  - simpl. split; [intros _; exists s; reflexivity|].
    destruct s; reflexivity.
  - destruct s as [|b s]; simpl.
    + split; [discriminate|]. intros [rest H]. discriminate.
    + destruct (ascii_dec a b) as [->|Hne].
      * rewrite IH. split; intros [rest H]; exists rest.
        -- now rewrite H.
        -- now injection H.
      * split; [discriminate|]. intros [rest H]. injection H. congruence.
Qed.

Lemma strstr_starts_with (haystack needle : string) :
  strstr haystack needle = Some 0%nat ↔ starts_with needle haystack.
Proof. rewrite strstr_at_start. apply prefix_starts_with. Qed.

Lemma snprintf_length (size : nat) (s : string) :
  String.length (snprintf size s) = Nat.min (size - 1) (String.length s).
Proof.
  unfold snprintf. generalize (size - 1)%nat as n. revert s.
  induction s as [|c s IH]; intros [|n]; simpl; try reflexivity.
  now rewrite IH.
Qed.

Lemma snprintf_prefix (size : nat) (s : string) :
  ∃ rest : string,
    s = snprintf size s +:+ rest ∧
    String.length rest = (String.length s - (size - 1))%nat.
Proof.
  unfold snprintf. generalize (size - 1)%nat as n. revert s.
  induction s as [|c s IH]; intros [|n]; simpl.
  - exists EmptyString. split; reflexivity.
  - exists EmptyString. split; reflexivity.
  - exists (String c s). split; reflexivity.
  - destruct (IH n) as (rest & Hr & Hl). exists rest. split; [|exact Hl].
    transitivity (String c (substring 0 n s +:+ rest)); [|reflexivity].
    f_equal. exact Hr.
Qed.

Lemma snprintf_fits (size : nat) (s : string) :
  (String.length s ≤ size - 1)%nat → snprintf size s = s.
Proof.
  unfold snprintf. generalize (size - 1)%nat as n. revert s.
  induction s as [|c s IH]; intros [|n]; simpl; intros H; try reflexivity; try lia.
  rewrite IH; [reflexivity|lia].
Qed.

(** ** The safe-list *)

Lemma has_shebang_spec (buffer : list byte) :
  has_shebang buffer = true ↔
  (2 ≤ length buffer)%nat ∧ buffer !! 0%nat = Some Byte.x23
  ∧ buffer !! 1%nat = Some Byte.x21.
Proof.
  destruct buffer as [|b0 [|b1 rest]]; simpl.
  - split; [discriminate|]. intros (H & _). lia.
  - split; [discriminate|]. intros (H & _). lia.
  - rewrite andb_true_iff. split.
    + intros [H0 H1]. apply Byte.byte_dec_bl in H0, H1. subst.
      repeat split. lia.
    + intros (_ & H0 & H1). injection H0 as ->. injection H1 as ->.
      split; reflexivity.
Qed.

Lemma safe_types_scan (mime : string) :
  existsb (λ safe, bool_decide (strstr mime safe = Some 0%nat)) safe_types = true
  ↔ ∃ safe : string, safe ∈ safe_types ∧ starts_with safe mime.
Proof.
  rewrite existsb_exists. split.
  - intros (safe & Hin & H). exists safe. split; [now apply list_elem_of_In|].
    apply strstr_starts_with. now apply bool_decide_eq_true in H.
  - intros (safe & Hin & H). exists safe. split; [now apply list_elem_of_In|].
    apply bool_decide_eq_true. now apply strstr_starts_with.
Qed.

(** The value of [is_whitelisted_file] does not depend on the world. *)
Lemma is_whitelisted_file_value (ctx : sentinelfs_context_t) (buffer : list byte)
    (w1 w2 : world) :
  fst (is_whitelisted_file ctx buffer w1) = fst (is_whitelisted_file ctx buffer w2).
Proof.
  unfold is_whitelisted_file. destruct (magic_cookie ctx buffer); [|reflexivity].
  destruct (existsb _ _); [reflexivity|]. destruct (has_shebang buffer); reflexivity.
Qed.

(** [is_whitelisted_file] changes nothing but the standard error stream. *)
Lemma is_whitelisted_file_world (ctx : sentinelfs_context_t) (buffer : list byte)
    (w : world) :
  snd (is_whitelisted_file ctx buffer w) = w
  ∨ snd (is_whitelisted_file ctx buffer w) = eprint LibMagicError w.
Proof.
  unfold is_whitelisted_file. destruct (magic_cookie ctx buffer); [|now right].
  destruct (existsb _ _); [now left|]. destruct (has_shebang buffer); now left.
Qed.

(** C1, as the specification states it, fails: when the classifier fails
    (no media-type string), a buffer that begins with [#!] is not safe. *)
Lemma C1_shebang_classifier_failure :
  let ctx := example_ctx (λ _, None) in
  let buffer := [Byte.x23; Byte.x21; Byte.x2f; Byte.x62; Byte.x69; Byte.x6e] in
  let w := example_world ∅ 0 stats_init in
  (2 ≤ length buffer)%nat
  ∧ buffer !! 0%nat = Some Byte.x23 ∧ buffer !! 1%nat = Some Byte.x21
  ∧ magic_cookie ctx buffer = None
  ∧ fst (is_whitelisted_file ctx buffer w) = 0.
Proof. repeat split. simpl. lia. Qed.

(** C1, amended: when the classifier fails, [is_whitelisted_file] prints
    a diagnostic and the buffer is not safe, whatever the buffer, [#!] or
    not; a buffer of at least two bytes that begins with [#!] is safe
    whenever the classifier returns a media-type string, whatever the
    string. *)
Theorem C1_shebang_after_classification (ctx : sentinelfs_context_t)
    (buffer : list byte) (w : world) :
  (magic_cookie ctx buffer = None →
   is_whitelisted_file ctx buffer w = (0, eprint LibMagicError w))
  ∧ (∀ mime : string, magic_cookie ctx buffer = Some mime →
     (2 ≤ length buffer)%nat →
     buffer !! 0%nat = Some Byte.x23 → buffer !! 1%nat = Some Byte.x21 →
     is_whitelisted_file ctx buffer w = (1, w)).
Proof.
  unfold is_whitelisted_file. split.
  - now intros ->.
  - intros mime -> Hlen H0 H1.
    assert (Hs : has_shebang buffer = true) by now apply has_shebang_spec.
    rewrite Hs. now destruct (existsb _ _).
Qed.

(** A classifier that fails, on a shell wrapper and on a buffer that is
    none; and a shell wrapper with a classifier that answers. *)
Lemma C1_shebang_after_classification_witness :
  let script := [Byte.x23; Byte.x21; Byte.x2f; Byte.x62; Byte.x69; Byte.x6e] in
  let other := [Byte.x7f; Byte.x45; Byte.x4c; Byte.x46] in
  let w := example_world ∅ 0 stats_init in
  is_whitelisted_file (example_ctx (λ _, None)) script w
  = (0, eprint LibMagicError w)
  ∧ is_whitelisted_file (example_ctx (λ _, None)) other w
    = (0, eprint LibMagicError w)
  ∧ is_whitelisted_file (example_ctx (λ _, Some "application/octet-stream")) script w
    = (1, w).
Proof.
  intros script other w. split; [|split].
  - apply (proj1 (C1_shebang_after_classification
      (example_ctx (λ _, None)) script w)). reflexivity.
  - apply (proj1 (C1_shebang_after_classification
      (example_ctx (λ _, None)) other w)). reflexivity.
  - apply (proj2 (C1_shebang_after_classification
      (example_ctx (λ _, Some "application/octet-stream")) script w)
      "application/octet-stream"); try reflexivity. simpl. lia.
Defined.

(** C2, as the specification states it, fails: a media type that is none
    of the four listed application types, but begins with one of them, is
    safe. *)
Lemma C2_application_type_prefix :
  let mime := "application/x-executable-debug" in
  let ctx := example_ctx (λ _, Some mime) in
  let buffer := [Byte.x7f; Byte.x45; Byte.x4c; Byte.x46] in
  let w := example_world ∅ 0 stats_init in
  magic_cookie ctx buffer = Some mime
  ∧ mime ≠ "application/pdf" ∧ mime ≠ "application/x-executable"
  ∧ mime ≠ "application/x-sharedlib" ∧ mime ≠ "application/x-shellscript"
  ∧ ¬ starts_with "text/" mime
  ∧ ¬ (buffer !! 0%nat = Some Byte.x23 ∧ buffer !! 1%nat = Some Byte.x21)
  ∧ fst (is_whitelisted_file ctx buffer w) = 1.
Proof.
  repeat split; try discriminate.
  - intros [rest H]. discriminate.
  - intros [H _]. discriminate.
Qed.

(** C2, amended: for every buffer whose media-type string begins with none
    of [text/], [application/pdf], [application/x-executable],
    [application/x-sharedlib], [application/x-shellscript], and which does
    not begin with [#!], [is_whitelisted_file] returns 0; and it returns 1
    as soon as the media type begins with one of the five: all entries of
    the safe-list, the four application types too, are matched as
    prefixes. *)
Theorem C2_safe_list_is_matched_by_prefix (ctx : sentinelfs_context_t)
    (buffer : list byte) (w : world) (mime : string)
    (Hmime : magic_cookie ctx buffer = Some mime)
    (Hshebang : has_shebang buffer = false) :
  (fst (is_whitelisted_file ctx buffer w) = 0
   ↔ ∀ safe : string, safe ∈ safe_types → ¬ starts_with safe mime)
  ∧ (fst (is_whitelisted_file ctx buffer w) = 1
     ↔ ∃ safe : string, safe ∈ safe_types ∧ starts_with safe mime).
Proof.
  unfold is_whitelisted_file. rewrite Hmime, Hshebang.
  pose proof (safe_types_scan mime) as Hscan.
  destruct (existsb _ _); simpl.
  - destruct (proj1 Hscan eq_refl) as (safe & Hin & Hs). split; split.
    + discriminate.
    + intros H. exfalso. exact (H safe Hin Hs).
    + intros _. now exists safe.
    + reflexivity.
  - split; split.
    + intros _ safe Hin Hs.
      assert (false = true) by (apply Hscan; now exists safe). discriminate.
    + reflexivity.
    + discriminate.
    + intros H. apply Hscan in H. discriminate.
Qed.

(** A media type outside the safe-list, and one that extends an entry of it. *)
Lemma C2_safe_list_is_matched_by_prefix_witness :
  let w := example_world ∅ 0 stats_init in
  let buffer := [Byte.x7f; Byte.x45; Byte.x4c; Byte.x46] in
  (∀ safe : string, safe ∈ safe_types → ¬ starts_with safe "application/zip")
  ∧ (∃ safe : string,
       safe ∈ safe_types ∧ starts_with safe "application/x-executable-debug").
Proof.
  intros w buffer. split.
  - apply (proj1 (C2_safe_list_is_matched_by_prefix
      (example_ctx (λ _, Some "application/zip")) buffer w "application/zip"
      eq_refl eq_refl)). reflexivity.
  - apply (proj2 (C2_safe_list_is_matched_by_prefix
      (example_ctx (λ _, Some "application/x-executable-debug")) buffer w
      "application/x-executable-debug" eq_refl eq_refl)). reflexivity.
Defined.

(** ** Path translation *)

(** A concatenation that fits the buffer is the translated path. *)
Lemma translate_path_fits (ctx : sentinelfs_context_t) (path : string) :
  (String.length (storage_path ctx +:+ path) < MAX_PATH)%nat →
  translate_path ctx path = storage_path ctx +:+ path
  ∧ translate_spec ctx path = Some (translate_path ctx path).
Proof.
  intros H. unfold translate_path, translate_spec.
  rewrite snprintf_fits by lia. split; [reflexivity|].
  destruct (Nat.leb_spec (String.length (storage_path ctx +:+ path)) 4096);
    [reflexivity|]. unfold MAX_PATH in H. lia.
Qed.

(** C3, as the specification states it, fails: [translate_path] has no
    error to report; for a concatenation of more than 4096 bytes it yields
    a concrete path, the concatenation cut to 4095 bytes. *)
Lemma C3_long_path_is_translated :
  let ctx := example_ctx (λ _, None) in
  let path := String "/" (string_of_chars 4200 "a") in
  (4096 < String.length (storage_path ctx +:+ path))%nat
  ∧ translate_spec ctx path = None
  ∧ translate_spec ctx path ≠ Some (translate_path ctx path)
  ∧ String.length (translate_path ctx path) = 4095%nat
  ∧ translate_path ctx path
    = storage_path ctx +:+ String "/" (string_of_chars 4082 "a").
Proof.
  intros ctx path.
  assert (Hspec : translate_spec ctx path = None) by (vm_compute; reflexivity).
  split; [apply Nat.ltb_lt; vm_compute; reflexivity|]. split; [exact Hspec|].
  split; [rewrite Hspec; discriminate|].
  split; vm_compute; reflexivity.
Qed.

(** C3, amended: for every virtual path such that the concatenation of the
    storage path and the virtual path has 4096 bytes or more,
    [translate_path] reports no error: it produces the first 4095 bytes of
    the concatenation, a truncated concrete path. *)
Theorem C3_translate_path_truncates (ctx : sentinelfs_context_t) (path : string)
    (Hlong : (MAX_PATH ≤ String.length (storage_path ctx +:+ path))%nat) :
  String.length (translate_path ctx path) = (MAX_PATH - 1)%nat
  ∧ ∃ rest : string,
      rest ≠ EmptyString
      ∧ storage_path ctx +:+ path = translate_path ctx path +:+ rest.
Proof.
  unfold translate_path. split.
  - rewrite snprintf_length. lia.
  - destruct (snprintf_prefix MAX_PATH (storage_path ctx +:+ path))
      as (rest & Hr & Hl).
    exists rest. split; [|exact Hr].
    intros ->. unfold MAX_PATH in *. simpl String.length in Hl. lia.
Qed.

(** A virtual path of 4201 bytes. *)
Lemma C3_translate_path_truncates_witness :
  let ctx := example_ctx (λ _, None) in
  let path := String "/" (string_of_chars 4200 "a") in
  String.length (translate_path ctx path) = (MAX_PATH - 1)%nat
  ∧ ∃ rest : string,
      rest ≠ EmptyString
      ∧ storage_path ctx +:+ path = translate_path ctx path +:+ rest.
Proof.
  intros ctx path. apply (C3_translate_path_truncates ctx path).
  apply Nat.leb_le. vm_compute. reflexivity.
Defined.

(** ** The frequency table *)

Lemma byte_index_lt (x : byte) : (N.to_nat (Byte.to_N x) < 256)%nat.
Proof. pose proof (Byte.to_N_bounded x). lia. Qed.

Lemma occurrences_cons (v : nat) (x : byte) (b : list byte) :
  occurrences v (x :: b)
  = if decide (N.to_nat (Byte.to_N x) = v) then S (occurrences v b)
    else occurrences v b.
Proof.
  unfold occurrences. rewrite filter_cons.
  destruct (decide (N.to_nat (Byte.to_N x) = v)); reflexivity.
Qed.

Lemma occurrences_le (v : nat) (b : list byte) :
  (occurrences v b ≤ length b)%nat.
Proof. apply length_filter. Qed.

Lemma count_loop_length (buf : list byte) (counts : list Z) :
  length (fold_left count_step buf counts) = length counts.
Proof.
  revert counts. induction buf as [|x buf IH]; intros counts; simpl.
  - reflexivity.
  - rewrite IH. apply length_alter.
Qed.

(** As long as no counter can reach [2^64], slot [v] is advanced by the
    number of occurrences of the byte value [v]. *)
Lemma count_loop_lookup (buf : list byte) (counts : list Z) (v : nat) (c : Z) :
  counts !! v = Some c → 0 ≤ c → c + Z.of_nat (length buf) < 2 ^ 64 →
  fold_left count_step buf counts !! v = Some (c + Z.of_nat (occurrences v buf)).
Proof.
  revert counts c. induction buf as [|x buf IH]; intros counts c Hv H0 Hlt.
  - simpl. rewrite Hv. f_equal. unfold occurrences. simpl. lia.
  - simpl fold_left. rewrite occurrences_cons. simpl length in Hlt.
    destruct (decide (N.to_nat (Byte.to_N x) = v)) as [He|Hne].
    + rewrite (IH _ (c + 1)); [f_equal; lia| |lia|lia].
      unfold count_step. rewrite list_lookup_alter, He.
      destruct (decide (v = v)); [|congruence].
      rewrite Hv. simpl. f_equal. unfold wrap64. apply Z.mod_small. lia.
    + rewrite (IH _ c); [reflexivity| |lia|lia].
      unfold count_step. rewrite list_lookup_alter.
      destruct (decide (N.to_nat (Byte.to_N x) = v)); [congruence|exact Hv].
Qed.

(** The table that [calculate_entropy] builds holds, for each byte value,
    its number of occurrences ([len] fits [size_t], so no counter wraps). *)
Lemma count_bytes_spec (buffer : list byte) :
  Z.of_nat (length buffer) < 2 ^ 64 →
  count_bytes buffer = (λ v, Z.of_nat (occurrences v buffer)) <$> seq 0 256.
Proof.
  intros Hlen. apply list_eq. intros i. unfold count_bytes.
  rewrite list_lookup_fmap. destruct (decide (i < 256)%nat) as [Hi|Hi].
  - rewrite (count_loop_lookup buffer _ i 0); [| |lia|lia].
    + replace (seq 0 256 !! i) with (Some i); [reflexivity|].
      symmetry. apply lookup_seq. split; [reflexivity|exact Hi].
    + apply lookup_replicate_2. exact Hi.
  - rewrite (proj2 (lookup_ge_None _ _)).
    + rewrite (proj2 (lookup_ge_None (seq 0 256) i)); [reflexivity|].
      rewrite length_seq. lia.
    + rewrite count_loop_length, length_replicate. lia.
Qed.

Lemma indicator_sum (i start n : nat) :
  sum_list ((λ v, if decide (i = v) then 1%nat else 0%nat) <$> seq start n)
  = if decide (start ≤ i < start + n)%nat then 1%nat else 0%nat.
Proof.
  revert start. induction n as [|n IH]; intros start.
  - simpl. destruct (decide _); [lia|reflexivity].
  - simpl. rewrite IH.
    destruct (decide (i = start)), (decide (S start ≤ i < S start + n)%nat),
      (decide (start ≤ i < start + S n)%nat); lia.
Qed.

Lemma sum_list_pointwise_add (f g : nat → nat) (l : list nat) :
  sum_list ((λ v, f v + g v)%nat <$> l)
  = (sum_list (f <$> l) + sum_list (g <$> l))%nat.
Proof. induction l as [|v l IH]; csimpl; [reflexivity|]. rewrite IH. lia. Qed.

Lemma sum_list_ext (f g : nat → nat) (l : list nat) :
  (∀ v, f v = g v) → sum_list (f <$> l) = sum_list (g <$> l).
Proof.
  intros H. induction l as [|v l IH]; csimpl; [reflexivity|]. now rewrite H, IH.
Qed.

(** The 256 counts add up to the length of the buffer. *)
Lemma sum_occurrences (b : list byte) :
  sum_list ((λ v, occurrences v b) <$> seq 0 256) = length b.
Proof.
  induction b as [|x b IH].
  - rewrite (sum_list_ext _ (λ _, 0%nat)) by reflexivity.
    rewrite sum_list_fmap_const, Nat.mul_0_r. reflexivity.
  - rewrite (sum_list_ext _
      (λ v, (if decide (N.to_nat (Byte.to_N x) = v) then 1 else 0)
            + occurrences v b)%nat).
    + rewrite sum_list_pointwise_add, IH, indicator_sum.
      pose proof (byte_index_lt x).
      destruct (decide _); simpl; lia.
    + intros v. rewrite occurrences_cons. destruct (decide _); reflexivity.
Qed.

(** A buffer of one distinct byte value: one slot holds the length. *)
Lemma occurrences_single (x : byte) (b : list byte) (v : nat) :
  (∀ y, y ∈ b → y = x) →
  occurrences v b = if decide (N.to_nat (Byte.to_N x) = v) then length b else 0%nat.
Proof.
  induction b as [|y b IH]; intros H.
  - destruct (decide _); reflexivity.
  - rewrite occurrences_cons, IH.
    + rewrite (H y) by (apply elem_of_cons; now left).
      destruct (decide _); reflexivity.
    + intros z Hz. apply H. apply elem_of_cons. now right.
Qed.

(** ** Shannon entropy over the reals *)

Lemma ln2_pos : (0 < ln 2)%R.
Proof. pose proof ln_lt_2. lra. Qed.

Lemma log2_1 : log2 1 = 0%R.
Proof. unfold log2. rewrite ln_1. pose proof ln2_pos. field. lra. Qed.

Lemma ln_le_pred (x : R) : (0 < x)%R → (ln x <= x - 1)%R.
Proof.
  intros Hx. pose proof (exp_ineq1_le (ln x)) as H.
  rewrite exp_ln in H by exact Hx. lra.
Qed.

Lemma ln_ge_1 (x : R) : (1 <= x)%R → (0 <= ln x)%R.
Proof.
  intros [H|<-]; [|rewrite ln_1; lra].
  rewrite <- ln_1. left. apply ln_increasing; lra.
Qed.

Lemma log2_le (x y : R) : (0 < x)%R → (x <= y)%R → (log2 x <= log2 y)%R.
Proof.
  intros Hx [H|<-]; [|lra]. pose proof ln2_pos as H2.
  pose proof (ln_increasing x y Hx H). unfold log2.
  apply Rmult_le_compat_r; [left; now apply Rinv_0_lt_compat|lra].
Qed.

Lemma ln_256 : ln 256 = (8 * ln 2)%R.
Proof.
  replace 256%R with (2 ^ 8)%R by (simpl; ring).
  rewrite ln_pow by lra. simpl INR. ring.
Qed.

(** A probability contributes a non-negative amount to the entropy. *)
Lemma entropy_term_nonpos (p : R) : (0 < p <= 1)%R → (p * log2 p <= 0)%R.
Proof.
  intros [Hp Hp1]. unfold log2. pose proof ln2_pos as H2.
  pose proof (ln_le_pred p Hp) as Hln.
  assert (Hq : (ln p / ln 2 <= 0)%R).
  { apply Rmult_le_reg_r with (ln 2); [exact H2|]. field_simplify; lra. }
  nra.
Qed.

(** Gibbs' inequality against the uniform distribution on 256 values, for
    one term. *)
Lemma entropy_term_upper (p : R) :
  (0 < p)%R → (- (p * log2 p) <= 8 * p + (/ 256 - p) / ln 2)%R.
Proof.
  intros Hp. unfold log2. pose proof ln2_pos as H2.
  assert (Hy : (0 < / (256 * p))%R) by (apply Rinv_0_lt_compat; lra).
  pose proof (ln_le_pred _ Hy) as Hln.
  rewrite ln_Rinv, ln_mult, ln_256 in Hln by lra.
  assert (Hm : (p * (- (8 * ln 2 + ln p)) <= p * (/ (256 * p) - 1))%R)
    by (apply Rmult_le_compat_l; lra).
  replace (p * (/ (256 * p) - 1))%R with (/ 256 - p)%R in Hm by (field; lra).
  apply Rmult_le_reg_r with (ln 2); [exact H2|].
  replace ((8 * p + (/ 256 - p) / ln 2) * ln 2)%R
    with (8 * p * ln 2 + (/ 256 - p))%R by (field; lra).
  replace (- (p * (ln p / ln 2)) * ln 2)%R with (- (p * ln p))%R by (field; lra).
  lra.
Qed.

Lemma Rsum_zero (l : list R) : (∀ r, r ∈ l → r = 0%R) → Rsum l = 0%R.
Proof.
  induction l as [|r l IH]; intros H; [reflexivity|].
  unfold Rsum in *. simpl. rewrite IH, (H r).
  - ring.
  - apply elem_of_cons. now left.
  - intros r' Hr'. apply H, elem_of_cons. now right.
Qed.

(** Bounds on the sum of the terms, for counts that are at most [len]. *)
Lemma entropy_sum_bounds (len : nat) (counts : list nat) :
  (0 < len)%nat → (∀ c, c ∈ counts → (c ≤ len)%nat) →
  let s := Rsum (entropy_term len <$> filter (λ c, (0 < c)%nat) counts) in
  (s <= 0)%R
  ∧ (- s <= 8 * (INR (sum_list counts) / INR len)
             + (INR (length counts) / 256 - INR (sum_list counts) / INR len)
               / ln 2)%R.
Proof.
  intros Hlen. pose proof (lt_0_INR _ Hlen) as Hn. pose proof ln2_pos as H2.
  induction counts as [|c counts IH]; intros Hle.
  - unfold Rsum. simpl. split; [lra|].
    replace (0 / INR len)%R with 0%R by (field; lra).
    replace (0 / 256)%R with 0%R by field.
    replace ((0 - 0) / ln 2)%R with 0%R by (field; lra). lra.
  - destruct IH as [IH0 IH8].
    { intros c' Hc'. apply Hle, elem_of_cons. now right. }
    assert (Hc : (c ≤ len)%nat) by (apply Hle, elem_of_cons; now left).
    cbn zeta in *. rewrite filter_cons.
    change (sum_list (c :: counts)) with (c + sum_list counts)%nat.
    change (length (c :: counts)) with (S (length counts)).
    rewrite plus_INR, S_INR.
    set (sc := INR (sum_list counts)) in *. set (lc := INR (length counts)) in *.
    replace (8 * ((INR c + sc) / INR len)
             + ((lc + 1) / 256 - (INR c + sc) / INR len) / ln 2)%R
      with ((8 * (INR c / INR len) + (/ 256 - INR c / INR len) / ln 2)
            + (8 * (sc / INR len) + (lc / 256 - sc / INR len) / ln 2))%R
      by (field; lra).
    destruct (decide (0 < c)%nat) as [Hpos|Hzero].
    + rewrite fmap_cons. unfold Rsum in *. simpl foldr.
      assert (Hp : (0 < INR c / INR len <= 1)%R).
      { pose proof (lt_0_INR _ Hpos). pose proof (le_INR _ _ Hc). split.
        - apply Rdiv_lt_0_compat; lra.
        - apply Rmult_le_reg_r with (INR len); [lra|]. field_simplify; lra. }
      pose proof (entropy_term_nonpos _ Hp).
      pose proof (entropy_term_upper _ (proj1 Hp)).
      unfold entropy_term at 1 3. split; lra.
    + assert (c = 0%nat) as -> by lia. simpl INR.
      replace (0 / INR len)%R with 0%R by (field; lra).
      split; [exact IH0|].
      assert ((/ 256 - 0) / ln 2 >= 0)%R.
      { apply Rle_ge. apply Rmult_le_pos; [lra|]. left. now apply Rinv_0_lt_compat. }
      lra.
Qed.

Lemma shannon_entropy_bounds (b : list byte) :
  (0 <= shannon_entropy b <= 8)%R.
Proof.
  unfold shannon_entropy. destruct b as [|x b].
  - replace (filter (λ c, (0 < c)%nat) ((λ v, occurrences v []) <$> seq 0 256))
      with (@nil nat) by (vm_compute; reflexivity).
    unfold Rsum. simpl. lra.
  - set (buf := x :: b).
    assert (Hpos : (0 < length buf)%nat) by (simpl; lia).
    destruct (entropy_sum_bounds (length buf)
                ((λ v, occurrences v buf) <$> seq 0 256) Hpos) as [H0 H8].
    { intros c Hc. apply list_elem_of_fmap in Hc as (v & -> & _).
      apply occurrences_le. }
    rewrite sum_occurrences, length_fmap, length_seq in H8.
    pose proof (lt_0_INR _ Hpos) as Hn. pose proof ln2_pos as H2.
    replace (INR 256) with 256%R in H8 by (rewrite INR_IZR_INZ; reflexivity).
    replace (8 * (INR (length buf) / INR (length buf))
             + (256 / 256 - INR (length buf) / INR (length buf)) / ln 2)%R
      with 8%R in H8 by (field; lra).
    fold (entropy_term (length buf)). split; lra.
Qed.

Lemma shannon_entropy_single (x : byte) (b : list byte) :
  (∀ y, y ∈ b → y = x) → shannon_entropy b = 0%R.
Proof.
  intros Hx. unfold shannon_entropy. rewrite Rsum_zero; [ring|].
  intros r Hr. apply list_elem_of_fmap in Hr as (c & -> & Hc).
  apply list_elem_of_filter in Hc as [Hpos Hc].
  apply list_elem_of_fmap in Hc as (v & -> & _).
  rewrite (occurrences_single x b v Hx) in *.
  destruct (decide _); [|lia].
  replace (INR (length b) / INR (length b))%R with 1%R
    by (pose proof (lt_0_INR _ Hpos); field; lra).
  rewrite log2_1. ring.
Qed.

(** ** Rounding to binary64 *)

Lemma floor_spec (r : R) : (IZR (up r - 1) <= r < IZR (up r - 1) + 1)%R.
Proof. destruct (archimed r) as [H1 H2]. rewrite minus_IZR. lra. Qed.

Lemma floor_unique (r : R) (z : Z) : (IZR z <= r < IZR z + 1)%R → up r - 1 = z.
Proof.
  intros [H1 H2]. assert (z + 1 = up r); [|lia].
  apply tech_up; rewrite plus_IZR; lra.
Qed.

Lemma powerRZ_2_pos (e : Z) : (0 < powerRZ 2 e)%R.
Proof. apply powerRZ_lt. lra. Qed.

Lemma powerRZ_2_exp (e : Z) : powerRZ 2 e = exp (IZR e * ln 2).
Proof. rewrite powerRZ_Rpower by lra. reflexivity. Qed.

Lemma powerRZ_2_le (e1 e2 : Z) : e1 ≤ e2 → (powerRZ 2 e1 <= powerRZ 2 e2)%R.
Proof.
  intros H. rewrite !powerRZ_2_exp. pose proof ln2_pos.
  apply IZR_le in H. destruct (Req_dec (IZR e1) (IZR e2)) as [->|Hne]; [lra|].
  left. apply exp_increasing. nra.
Qed.

Lemma powerRZ_2_succ (e : Z) : powerRZ 2 (e + 1) = (2 * powerRZ 2 e)%R.
Proof. rewrite powerRZ_add by lra. simpl. lra. Qed.

(** [x] lies in its binade. *)
Lemma binade_spec (x : R) :
  (0 < x)%R → (powerRZ 2 (binade x) <= x < powerRZ 2 (binade x + 1))%R.
Proof.
  intros Hx. unfold binade. pose proof (floor_spec (log2 x)) as [H1 H2].
  pose proof ln2_pos as H2pos. set (e := up (log2 x) - 1) in *.
  rewrite !powerRZ_2_exp, plus_IZR.
  assert (Hl : (log2 x * ln 2 = ln x)%R) by (unfold log2; field; lra).
  assert (Hex : exp (log2 x * ln 2) = x) by (rewrite Hl; now apply exp_ln).
  rewrite <- Hex. split.
  - destruct (Req_dec (IZR e) (log2 x)) as [->|Hne]; [lra|].
    left. apply exp_increasing. nra.
  - apply exp_increasing. nra.
Qed.

Lemma binade_unique (x : R) (e : Z) :
  (powerRZ 2 e <= x < powerRZ 2 (e + 1))%R → binade x = e.
Proof.
  intros [H1 H2]. pose proof (powerRZ_2_pos e) as Hp. pose proof ln2_pos as H2pos.
  assert (Hx : (0 < x)%R) by lra.
  apply floor_unique. rewrite !powerRZ_2_exp, plus_IZR in *.
  assert (Hl : (log2 x * ln 2 = ln x)%R) by (unfold log2; field; lra).
  split.
  - destruct (Rle_or_lt (IZR e) (log2 x)) as [|Hlt]; [assumption|exfalso].
    assert (exp (log2 x * ln 2) < exp (IZR e * ln 2))%R by (apply exp_increasing; nra).
    rewrite Hl, exp_ln in H by exact Hx. lra.
  - destruct (Rle_or_lt (IZR e + 1) (log2 x)) as [Hle|]; [exfalso|assumption].
    assert (exp ((IZR e + 1) * ln 2) <= exp (log2 x * ln 2))%R.
    { destruct (Req_dec (IZR e + 1) (log2 x)) as [->|Hne]; [lra|].
      left. apply exp_increasing. nra. }
    rewrite Hl, exp_ln in H by exact Hx. lra.
Qed.

Lemma round_half_even_error (m : R) :
  (Rabs (IZR (round_half_even m) - m) <= 1 / 2)%R.
Proof.
  unfold round_half_even. pose proof (floor_spec m) as [H1 H2].
  set (f := up m - 1) in *.
  destruct (Rlt_dec _ _) as [Hlt|Hge].
  - apply Rabs_le. lra.
  - destruct (Rlt_dec _ _) as [Hgt|Hle].
    + rewrite plus_IZR. apply Rabs_le. lra.
    + destruct (Z.even f); [|rewrite plus_IZR]; apply Rabs_le; lra.
Qed.

Lemma round_half_even_IZR (z : Z) : round_half_even (IZR z) = z.
Proof.
  unfold round_half_even. rewrite (floor_unique (IZR z) z) by lra.
  destruct (Rlt_dec _ _) as [|H]; [reflexivity|]. exfalso. apply H. lra.
Qed.

Lemma round_half_even_mono (m1 m2 : R) :
  (m1 <= m2)%R → round_half_even m1 ≤ round_half_even m2.
Proof.
  intros Hle. unfold round_half_even.
  pose proof (floor_spec m1) as [A1 A2]. pose proof (floor_spec m2) as [B1 B2].
  set (f1 := up m1 - 1) in *. set (f2 := up m2 - 1) in *.
  assert (Hf : f1 ≤ f2).
  { apply Z.lt_succ_r. apply lt_IZR. unfold Z.succ. rewrite plus_IZR. lra. }
  destruct (Z.eq_dec f1 f2) as [He|Hne].
  - rewrite He in *.
    repeat (destruct (Rlt_dec _ _)); try lia; try lra; destruct (Z.even f2); lia.
  - assert (f1 + 1 ≤ f2) by lia.
    repeat (destruct (Rlt_dec _ _)); try lia; destruct (Z.even f1); try lia;
      destruct (Z.even f2); lia.
Qed.

Lemma RN_0 : RN 0 = 0%R.
Proof. unfold RN. destruct (Req_dec_T 0 0); [reflexivity|congruence]. Qed.

Lemma RN_pos (x : R) :
  (0 < x)%R →
  RN x = (IZR (round_half_even (x * powerRZ 2 (52 - binade x)))
          * powerRZ 2 (binade x - 52))%R.
Proof.
  intros Hx. unfold RN. destruct (Req_dec_T x 0); [lra|].
  rewrite (Rabs_pos_eq x) by lra. destruct (Rlt_dec x 0); [lra|]. ring.
Qed.

Lemma RN_opp (x : R) : RN (- x) = (- RN x)%R.
Proof.
  unfold RN. destruct (Req_dec_T x 0) as [->|Hx].
  - rewrite Ropp_0. destruct (Req_dec_T 0 0); [ring|congruence].
  - destruct (Req_dec_T (- x) 0); [lra|]. rewrite Rabs_Ropp.
    destruct (Rlt_dec (- x) 0), (Rlt_dec x 0); try lra; ring.
Qed.

Lemma powerRZ_2_split (a b : Z) : (powerRZ 2 (a - b) * powerRZ 2 b = powerRZ 2 a)%R.
Proof. rewrite <- powerRZ_add by lra. f_equal. lia. Qed.

(** The significand of a positive real, scaled to 53 bits. *)
Lemma significand_bounds (x : R) :
  (0 < x)%R →
  (2 ^ 52 <= x * powerRZ 2 (52 - binade x) < 2 ^ 53)%R.
Proof.
  intros Hx. destruct (binade_spec x Hx) as [H1 H2].
  rewrite powerRZ_2_succ in H2.
  pose proof (powerRZ_2_pos (52 - binade x)) as Hs.
  pose proof (powerRZ_2_split 52 (binade x)) as Hm.
  change (powerRZ 2 52) with (2 ^ 52)%R in Hm.
  replace (2 ^ 53)%R with (2 * 2 ^ 52)%R by (simpl; lra).
  rewrite <- Hm. split.
  - replace (powerRZ 2 (52 - binade x) * powerRZ 2 (binade x))%R
      with (powerRZ 2 (binade x) * powerRZ 2 (52 - binade x))%R by ring.
    apply Rmult_le_compat_r; lra.
  - replace (2 * (powerRZ 2 (52 - binade x) * powerRZ 2 (binade x)))%R
      with (2 * powerRZ 2 (binade x) * powerRZ 2 (52 - binade x))%R by ring.
    apply Rmult_lt_compat_r; lra.
Qed.

(** Rounding to nearest: the relative error is at most [2^-53]. *)
Lemma RN_error (x : R) : (Rabs (RN x - x) <= unit_roundoff * Rabs x)%R.
Proof.
  assert (Hpos : ∀ y : R, (0 < y)%R → (Rabs (RN y - y) <= unit_roundoff * y)%R).
  { intros y Hy. rewrite (RN_pos y Hy). destruct (binade_spec y Hy) as [H1 _].
    set (e := binade y) in *. set (s := (y * powerRZ 2 (52 - e))%R).
    pose proof (round_half_even_error s) as Herr.
    pose proof (powerRZ_2_pos (e - 52)) as Hp.
    assert (Hy' : (y = s * powerRZ 2 (e - 52))%R).
    { unfold s. rewrite Rmult_assoc, <- powerRZ_add by lra.
      replace (52 - e + (e - 52)) with 0 by lia. simpl. ring. }
    rewrite Hy' at 1.
    replace (IZR (round_half_even s) * powerRZ 2 (e - 52) - s * powerRZ 2 (e - 52))%R
      with ((IZR (round_half_even s) - s) * powerRZ 2 (e - 52))%R by ring.
    rewrite Rabs_mult, (Rabs_pos_eq (powerRZ 2 (e - 52))) by lra.
    assert (Hu : (powerRZ 2 (e - 52) = powerRZ 2 e * / 2 ^ 52)%R).
    { replace (e - 52) with (e + - 52) by lia. rewrite powerRZ_add by lra.
      reflexivity. }
    unfold unit_roundoff. rewrite Hu.
    pose proof (powerRZ_2_pos e) as Hpe.
    assert (H52 : (0 < / 2 ^ 52)%R) by (apply Rinv_0_lt_compat, pow_lt; lra).
    replace (/ 2 ^ 53)%R with (1 / 2 * / 2 ^ 52)%R by (simpl; field).
    pose proof (Rabs_pos (IZR (round_half_even s) - s)).
    apply Rle_trans with (1 / 2 * (powerRZ 2 e * / 2 ^ 52))%R.
    - apply Rmult_le_compat_r; [|exact Herr]. apply Rmult_le_pos; lra.
    - replace (1 / 2 * / 2 ^ 52 * y)%R with (1 / 2 * (y * / 2 ^ 52))%R by ring.
      apply Rmult_le_compat_l; [lra|]. apply Rmult_le_compat_r; lra. }
  destruct (Rtotal_order x 0) as [Hx|[->|Hx]].
  - replace x with (- - x)%R at 1 2 by ring. rewrite RN_opp.
    replace (- RN (- x) - - - x)%R with (- (RN (- x) - - x))%R by ring.
    rewrite Rabs_Ropp, (Rabs_left x) by exact Hx. apply Hpos. lra.
  - rewrite RN_0, Rminus_0_r, Rabs_R0. lra.
  - rewrite (Rabs_pos_eq x) by lra. now apply Hpos.
Qed.

Lemma unit_roundoff_bounds : (0 < unit_roundoff <= / 2 ^ 20)%R.
Proof.
  unfold unit_roundoff. split; [apply Rinv_0_lt_compat, pow_lt; lra|].
  apply Rinv_le_contravar; [apply pow_lt; lra|]. apply Rle_pow; [lra|lia].
Qed.

Lemma Rabs_le_between (a b : R) : (Rabs a <= b)%R → (- b <= a <= b)%R.
Proof. unfold Rabs. destruct (Rcase_abs a); lra. Qed.

Lemma RN_sign (x : R) :
  ((0 < x → 0 < RN x) ∧ (x < 0 → RN x < 0))%R.
Proof.
  pose proof (RN_error x) as H. pose proof unit_roundoff_bounds as [Hu0 Hu].
  assert (/ 2 ^ 20 < 1)%R.
  { rewrite <- Rinv_1. apply Rinv_lt_contravar; [|]; simpl; lra. }
  split; intros Hx.
  - rewrite (Rabs_pos_eq x) in H by lra. apply Rabs_le_between in H. nra.
  - rewrite (Rabs_left x) in H by lra. apply Rabs_le_between in H. nra.
Qed.

Lemma RN_nonneg (x : R) : (0 <= x)%R → (0 <= RN x)%R.
Proof.
  intros [Hx|<-]; [|rewrite RN_0; lra]. left. now apply RN_sign.
Qed.

Lemma RN_nonpos (x : R) : (x <= 0)%R → (RN x <= 0)%R.
Proof.
  intros [Hx| ->]; [|rewrite RN_0; lra]. left. now apply RN_sign.
Qed.

Lemma IZR_pow2 (n : nat) : IZR (2 ^ Z.of_nat n) = (2 ^ n)%R.
Proof. now rewrite (pow_IZR 2 n). Qed.

Lemma binade_1 : binade 1 = 0.
Proof. apply binade_unique. simpl. lra. Qed.

Lemma RN_1 : RN 1 = 1%R.
Proof.
  rewrite RN_pos by lra. rewrite binade_1. rewrite Rmult_1_l.
  change (powerRZ 2 (52 - 0)) with (2 ^ 52)%R. rewrite <- (IZR_pow2 52).
  rewrite round_half_even_IZR, (IZR_pow2 52).
  change (powerRZ 2 (0 - 52)) with (/ 2 ^ 52)%R. field.
Qed.

(** A positive real is rounded within its binade, ends included. *)
Lemma RN_binade (x : R) :
  (0 < x)%R →
  (powerRZ 2 (binade x) <= RN x <= powerRZ 2 (binade x + 1))%R.
Proof.
  intros Hx. rewrite (RN_pos x Hx). destruct (significand_bounds x Hx) as [H1 H2].
  set (e := binade x) in *. set (s := (x * powerRZ 2 (52 - e))%R) in *.
  pose proof (powerRZ_2_pos (e - 52)) as Hp.
  assert (Hm : 2 ^ Z.of_nat 52 ≤ round_half_even s ≤ 2 ^ Z.of_nat 53).
  { split.
    - rewrite <- (round_half_even_IZR (2 ^ Z.of_nat 52)).
      apply round_half_even_mono. rewrite IZR_pow2. exact H1.
    - rewrite <- (round_half_even_IZR (2 ^ Z.of_nat 53)).
      apply round_half_even_mono. rewrite IZR_pow2. lra. }
  destruct Hm as [Hm1 Hm2]. apply IZR_le in Hm1, Hm2.
  rewrite IZR_pow2 in Hm1, Hm2.
  replace (powerRZ 2 e) with (2 ^ 52 * powerRZ 2 (e - 52))%R.
  2:{ change (2 ^ 52)%R with (powerRZ 2 52). rewrite <- powerRZ_add by lra.
      f_equal. lia. }
  replace (powerRZ 2 (e + 1)) with (2 ^ 53 * powerRZ 2 (e - 52))%R.
  2:{ change (2 ^ 53)%R with (powerRZ 2 53). rewrite <- powerRZ_add by lra.
      f_equal. lia. }
  split; apply Rmult_le_compat_r; lra.
Qed.

(** Rounding is monotone (on the positive reals, which is where the
    program uses it). *)
Lemma RN_mono (x y : R) : (0 < x)%R → (x <= y)%R → (RN x <= RN y)%R.
Proof.
  intros Hx Hxy. assert (Hy : (0 < y)%R) by lra.
  destruct (binade_spec x Hx) as [X1 X2]. destruct (binade_spec y Hy) as [Y1 Y2].
  destruct (Z_lt_le_dec (binade x) (binade y)) as [Hlt|Hge].
  - apply Rle_trans with (powerRZ 2 (binade x + 1)); [apply RN_binade; lra|].
    apply Rle_trans with (powerRZ 2 (binade y)); [|apply RN_binade; lra].
    apply powerRZ_2_le. lia.
  - assert (He : binade x = binade y).
    { destruct (Z.eq_dec (binade x) (binade y)) as [|Hne]; [assumption|exfalso].
      assert (H : (powerRZ 2 (binade y + 1) <= powerRZ 2 (binade x))%R)
        by (apply powerRZ_2_le; lia).
      lra. }
    rewrite (RN_pos x Hx), (RN_pos y Hy), He.
    pose proof (powerRZ_2_pos (binade y - 52)).
    pose proof (powerRZ_2_pos (52 - binade y)).
    apply Rmult_le_compat_r; [lra|]. apply IZR_le, round_half_even_mono.
    apply Rmult_le_compat_r; lra.
Qed.

Lemma RN_le_1 (x : R) : (0 <= x <= 1)%R → (RN x <= 1)%R.
Proof.
  intros [[Hx|<-] H1]; [|rewrite RN_0; lra].
  rewrite <- RN_1. now apply RN_mono.
Qed.

(** A rounded value is an integer times a power of two. *)
Lemma RN_dyadic (x : R) : ∃ (m e : Z), RN x = (IZR m * powerRZ 2 e)%R.
Proof.
  unfold RN. destruct (Req_dec_T x 0).
  - exists 0, 0. simpl. ring.
  - destruct (Rlt_dec x 0).
    + eexists (- _), _. rewrite opp_IZR. ring_simplify. reflexivity.
    + eexists _, _. rewrite Rmult_1_l. reflexivity.
Qed.

Lemma libm_log2_error_eq : libm_log2_error = (8 * unit_roundoff)%R.
Proof. unfold libm_log2_error, unit_roundoff. simpl. field. Qed.

(** Two-sided form of the rounding error, for a positive and for a
    negative operand. *)
Lemma RN_error_pos (x : R) :
  (0 <= x)%R →
  ((1 - unit_roundoff) * x <= RN x <= (1 + unit_roundoff) * x)%R.
Proof.
  intros Hx. pose proof (RN_error x) as H. rewrite (Rabs_pos_eq x) in H by exact Hx.
  apply Rabs_le_between in H. lra.
Qed.

Lemma RN_error_neg (x : R) :
  (x <= 0)%R →
  ((1 + unit_roundoff) * x <= RN x <= (1 - unit_roundoff) * x)%R.
Proof.
  intros Hx. pose proof (RN_error x) as H.
  rewrite (Rabs_left1 x) in H by exact Hx. apply Rabs_le_between in H. lra.
Qed.

(** The logarithms of two reals that are close are close. *)
Lemma log2_close (p q d : R) :
  (0 < q)%R → (0 <= d <= / 2)%R →
  ((1 - d) * q <= p <= (1 + d) * q)%R →
  (log2 q - 4 * d <= log2 p <= log2 q + 4 * d)%R.
Proof.
  intros Hq [Hd0 Hd1] [Hp1 Hp2]. pose proof ln2_pos as H2. pose proof ln_lt_2 as H2'.
  assert (Hp : (0 < p)%R) by nra.
  assert (Hpq : (0 < p / q)%R) by (apply Rdiv_lt_0_compat; lra).
  assert (Hqp : (0 < q / p)%R) by (apply Rdiv_lt_0_compat; lra).
  pose proof (ln_le_pred _ Hpq) as Hup. pose proof (ln_le_pred _ Hqp) as Hlo.
  unfold Rdiv in Hup, Hlo. rewrite ln_mult, ln_Rinv in Hup, Hlo
    by (try apply Rinv_0_lt_compat; lra).
  assert (Hr1 : (p * / q <= 1 + d)%R).
  { apply Rmult_le_reg_r with q; [lra|]. field_simplify; lra. }
  assert (Hr2 : (q * / p <= 1 + 2 * d)%R).
  { apply Rmult_le_reg_r with p; [lra|]. field_simplify; [|lra]. nra. }
  assert (Hln : (ln q - 2 * d <= ln p <= ln q + d)%R) by lra.
  unfold log2. split.
  - apply Rmult_le_reg_r with (ln 2); [lra|].
    replace ((ln q / ln 2 - 4 * d) * ln 2)%R with (ln q - 4 * d * ln 2)%R
      by (field; lra).
    replace (ln p / ln 2 * ln 2)%R with (ln p) by (field; lra). nra.
  - apply Rmult_le_reg_r with (ln 2); [lra|].
    replace ((ln q / ln 2 + 4 * d) * ln 2)%R with (ln q + 4 * d * ln 2)%R
      by (field; lra).
    replace (ln p / ln 2 * ln 2)%R with (ln p) by (field; lra). nra.
Qed.

(** ** The entropy loop in binary64 *)

(** The probability of a byte value, as the code computes it. *)
Lemma probability_bounds (len c : nat) :
  (0 < c ≤ len)%nat →
  let q := (INR c / INR len)%R in
  let p := RN (RN (INR c) / RN (INR len)) in
  (0 < p <= 1)%R
  ∧ ((1 - 4 * unit_roundoff) * q <= p <= (1 + 4 * unit_roundoff) * q)%R.
Proof.
  intros [Hc Hle] q p. pose proof unit_roundoff_bounds as [Hu0 Hu].
  assert (Hu' : (unit_roundoff <= / 1000)%R).
  { eapply Rle_trans; [exact Hu|]. apply Rinv_le_contravar; simpl; lra. }
  set (u := unit_roundoff) in *.
  assert (HC : (0 < INR c)%R) by (apply lt_0_INR; lia).
  assert (HN : (0 < INR len)%R) by (apply lt_0_INR; lia).
  assert (HCN : (INR c <= INR len)%R) by now apply le_INR.
  pose proof (RN_error_pos (INR c) (Rlt_le _ _ HC)) as [Ha1 Ha2].
  pose proof (RN_error_pos (INR len) (Rlt_le _ _ HN)) as [Hb1 Hb2].
  pose proof (RN_mono _ _ HC HCN) as Hab.
  pose proof (proj1 (RN_sign (INR c)) HC) as Ha0.
  pose proof (proj1 (RN_sign (INR len)) HN) as Hb0.
  fold u in Ha1, Ha2, Hb1, Hb2.
  set (a := RN (INR c)) in *. set (b := RN (INR len)) in *.
  assert (Hr0 : (0 < a / b)%R) by (apply Rdiv_lt_0_compat; lra).
  assert (Hr1 : (a / b <= 1)%R).
  { apply Rmult_le_reg_r with b; [lra|]. unfold Rdiv.
    rewrite Rmult_assoc, Rinv_l by lra. lra. }
  assert (Hrb : (a / b * b = a)%R) by (field; lra).
  assert (Hq : (q * INR len = INR c)%R) by (unfold q; field; lra).
  assert (Hq0 : (0 < q)%R) by (apply Rdiv_lt_0_compat; lra).
  pose proof (RN_error_pos (a / b) (Rlt_le _ _ Hr0)) as [Hp1 Hp2].
  fold u p in Hp1, Hp2. set (r := (a / b)%R) in *.
  split; [split|].
  - unfold p. now apply RN_sign.
  - unfold p. apply RN_le_1. lra.
  - assert (Hr_up : (r * (1 - u) <= q * (1 + u))%R).
    { apply Rmult_le_reg_r with (INR len); [lra|]. nra. }
    assert (Hr_lo : (q * (1 - u) <= r * (1 + u))%R).
    { apply Rmult_le_reg_r with (INR len); [lra|]. nra. }
    split.
    + apply Rle_trans with ((1 - u) * r)%R; [|lra].
      apply Rmult_le_reg_r with (1 + u)%R; [lra|]. nra.
    + apply Rle_trans with ((1 + u) * r)%R; [lra|].
      apply Rmult_le_reg_r with (1 - u)%R; [lra|]. nra.
Qed.

(** One term of the sum, as the code computes it: the product is within
    a few units of rounding of [- q * log2 q]. *)
Lemma entropy_term_rounded (len c : nat) :
  log2_accurate libm_log2 → (0 < c ≤ len)%nat →
  let q := (INR c / INR len)%R in
  let p := RN (RN (INR c) / RN (INR len)) in
  let T := (- entropy_term len c)%R in
  let t := (- RN (p * libm_log2 p))%R in
  (0 <= T)%R ∧ (0 <= t)%R
  ∧ (Rabs (t - T) <= 14 * unit_roundoff * T + 17 * unit_roundoff * q)%R.
Proof.
  intros Hacc Hc q p T t.
  destruct (probability_bounds len c Hc) as [[Hp0 Hp1] [Hpl Hpu]].
  fold q p in Hp0, Hp1, Hpl, Hpu.
  pose proof unit_roundoff_bounds as [Hu0 Hu].
  assert (Hu' : (unit_roundoff <= / 1000)%R).
  { eapply Rle_trans; [exact Hu|]. apply Rinv_le_contravar; simpl; lra. }
  assert (HC : (0 < INR c)%R) by (apply lt_0_INR; lia).
  assert (HN : (0 < INR len)%R) by (apply lt_0_INR; lia).
  assert (HCN : (INR c <= INR len)%R) by (apply le_INR; lia).
  assert (Hq0 : (0 < q)%R) by (apply Rdiv_lt_0_compat; lra).
  assert (Hq1 : (q <= 1)%R).
  { apply Rmult_le_reg_r with (INR len); [lra|]. unfold q, Rdiv.
    rewrite Rmult_assoc, Rinv_l by lra. lra. }
  (* the logarithms *)
  assert (HA : (log2 q <= 0)%R) by (rewrite <- log2_1; apply log2_le; lra).
  assert (HL : (log2 p <= 0)%R) by (rewrite <- log2_1; apply log2_le; lra).
  pose proof (log2_close p q (4 * unit_roundoff)%R Hq0) as Hclose.
  destruct Hclose as [HLl HLu]; [lra|lra|].
  pose proof (Hacc p (conj Hp0 Hp1)) as Hl. rewrite libm_log2_error_eq in Hl.
  rewrite (Rabs_left1 (log2 p)) in Hl by exact HL.
  apply Rabs_le_between in Hl.
  set (u := unit_roundoff) in *. set (A := log2 q) in *. set (L := log2 p) in *.
  set (l := libm_log2 p) in *.
  assert (Hl0 : (l <= 0)%R) by nra.
  assert (Hpl0 : (p * l <= 0)%R) by nra.
  pose proof (RN_error_neg (p * l) Hpl0) as [Ht1 Ht2]. fold u in Ht1, Ht2.
  assert (HT : T = (q * - A)%R) by (unfold T, entropy_term; fold q A; ring).
  assert (HT0 : (0 <= T)%R) by (rewrite HT; nra).
  assert (Ht0 : (0 <= t)%R).
  { unfold t. pose proof (RN_nonpos _ Hpl0). fold l. lra. }
  split; [exact HT0|]. split; [exact Ht0|].
  (* everything as non-negative quantities *)
  set (a := (- A)%R) in *. set (lam := (- L)%R). set (ell := (- l)%R).
  assert (Ha0 : (0 <= a)%R) by (unfold a; lra).
  assert (Hlam0 : (0 <= lam)%R) by (unfold lam; lra).
  assert (Hlam : (a - 16 * u <= lam <= a + 16 * u)%R) by (unfold a, lam; lra).
  assert (Hell : ((1 - 8 * u) * lam <= ell <= (1 + 8 * u) * lam)%R) by (unfold ell, lam; lra).
  assert (Hell0 : (0 <= ell)%R) by (unfold ell; lra).
  assert (Htau : ((1 - u) * (p * ell) <= t <= (1 + u) * (p * ell))%R).
  { unfold t. fold l. replace (p * ell)%R with (- (p * l))%R by (unfold ell; ring).
    lra. }
  (* upper and lower bounds on the product *)
  assert (Hup : (p * ell <= (1 + 4 * u) * q * ((1 + 8 * u) * (a + 16 * u)))%R).
  { apply Rmult_le_compat; try lra.
    apply Rle_trans with ((1 + 8 * u) * lam)%R; [lra|].
    apply Rmult_le_compat_l; lra. }
  assert (Hlo : ((1 - 4 * u) * q * ((1 - 8 * u) * (a - 16 * u)) <= p * ell)%R).
  { apply Rle_trans with ((1 - 4 * u) * q * ell)%R.
    - apply Rmult_le_compat_l; [nra|].
      apply Rle_trans with ((1 - 8 * u) * lam)%R; [|lra].
      apply Rmult_le_compat_l; lra.
    - apply Rmult_le_compat_r; lra. }
  assert (Hqa : (0 <= q * a)%R) by nra.
  assert (Hpell0 : (0 <= p * ell)%R) by nra.
  assert (Hk1 : ((1 + u) * ((1 + 4 * u) * (1 + 8 * u)) <= 1 + 14 * u)%R) by nra.
  assert (Hk2 : (1 - 13 * u <= (1 - u) * ((1 - 4 * u) * (1 - 8 * u)))%R) by nra.
  rewrite HT. apply Rabs_le. split.
  - (* lower *)
    apply Rle_trans with ((1 - u) * ((1 - 4 * u) * q * ((1 - 8 * u) * (a - 16 * u))) - q * a)%R;
      [|nra].
    set (k := ((1 - u) * ((1 - 4 * u) * (1 - 8 * u)))%R) in *.
    replace ((1 - u) * ((1 - 4 * u) * q * ((1 - 8 * u) * (a - 16 * u))) - q * a)%R
      with ((k - 1) * (q * a) - k * 16 * u * q)%R by (unfold k; ring).
    assert (k <= 1)%R by (unfold k; nra). nra.
  - apply Rle_trans with ((1 + u) * ((1 + 4 * u) * q * ((1 + 8 * u) * (a + 16 * u))) - q * a)%R;
      [nra|].
    set (k := ((1 + u) * ((1 + 4 * u) * (1 + 8 * u)))%R) in *.
    replace ((1 + u) * ((1 + 4 * u) * q * ((1 + 8 * u) * (a + 16 * u))) - q * a)%R
      with ((k - 1) * (q * a) + k * 16 * u * q)%R by (unfold k; ring).
    assert (1 <= k)%R by (unfold k; nra). nra.
Qed.

(** One iteration of the loop on a positive count: the accumulator stays
    non-negative, and its distance to the exact partial sum grows by at
    most [256 * unit_roundoff]. *)
Lemma entropy_step_rounded (len c : nat) (e S0 : R) (k : nat) :
  log2_accurate libm_log2 → (0 < c ≤ len)%nat →
  (0 <= S0)%R → (S0 - entropy_term len c <= 8)%R →
  (0 <= e)%R → (Rabs (e - S0) <= INR k * (256 * unit_roundoff))%R →
  (k < 256)%nat →
  let e' := entropy_step len e (Z.of_nat c) in
  (0 <= e')%R
  ∧ (Rabs (e' - (S0 - entropy_term len c)) <= INR (S k) * (256 * unit_roundoff))%R.
Proof.
  intros Hacc Hc HS0 HS8 He0 Herr Hk e'. subst e'. unfold entropy_step.
  replace (0 <? Z.of_nat c) with true by (symmetry; apply Z.ltb_lt; lia).
  cbv zeta. rewrite <- INR_IZR_INZ.
  destruct (entropy_term_rounded len c Hacc Hc) as (HT0 & Ht0 & Hd).
  cbv zeta in HT0, Ht0, Hd.
  set (p := RN (RN (INR c) / RN (INR len))) in *.
  set (T := (- entropy_term len c)%R) in *.
  set (t := (- RN (p * libm_log2 p))%R) in *.
  replace (e - RN (p * libm_log2 p))%R with (e + t)%R by (unfold t; ring).
  replace (S0 - entropy_term len c)%R with (S0 + T)%R in * by (unfold T; ring).
  pose proof unit_roundoff_bounds as [Hu0 Hu].
  assert (Hu' : (unit_roundoff <= / 1000000)%R).
  { eapply Rle_trans; [exact Hu|]. apply Rinv_le_contravar; simpl; lra. }
  assert (Hq : (0 < INR c / INR len <= 1)%R).
  { assert (0 < INR c)%R by (apply lt_0_INR; lia).
    assert (0 < INR len)%R by (apply lt_0_INR; lia).
    assert (INR c <= INR len)%R by (apply le_INR; lia).
    split; [apply Rdiv_lt_0_compat; lra|].
    apply Rmult_le_reg_r with (INR len); [lra|]. unfold Rdiv.
    rewrite Rmult_assoc, Rinv_l by lra. lra. }
  assert (HK : (0 <= INR k <= 255)%R).
  { split; [apply pos_INR|]. replace 255%R with (INR 255)
      by (rewrite INR_IZR_INZ; reflexivity). apply le_INR. lia. }
  rewrite S_INR. set (u := unit_roundoff) in *. set (q := (INR c / INR len)%R) in *.
  apply Rabs_le_between in Herr, Hd.
  pose proof (RN_error_pos (e + t)) as [Hr1 Hr2]; [lra|]. fold u in Hr1, Hr2.
  split; [apply RN_nonneg; lra|].
  assert (HKu : (0 <= INR k * (256 * u) <= / 10)%R) by nra.
  assert (HTu : (0 <= 14 * u * T + 17 * u * q <= 129 * u)%R) by nra.
  assert (Hsum : (0 <= e + t <= 9)%R) by lra.
  apply Rabs_le. split; nra.
Qed.

(** The second loop over a table of counts: after the whole table the
    accumulator is within [256 * unit_roundoff] per slot of the exact
    sum. *)
Lemma entropy_fold_rounded (len : nat) (counts : list nat) :
  log2_accurate libm_log2 → (0 < len)%nat →
  (∀ c, c ∈ counts → (c ≤ len)%nat) →
  ∀ (e S0 : R) (k : nat),
    (0 <= S0)%R →
    (S0 - Rsum (entropy_term len <$> filter (λ c, (0 < c)%nat) counts) <= 8)%R →
    (0 <= e)%R → (Rabs (e - S0) <= INR k * (256 * unit_roundoff))%R →
    (k + length counts ≤ 256)%nat →
    let r := fold_left (entropy_step len) (Z.of_nat <$> counts) e in
    (0 <= r)%R
    ∧ (Rabs (r - (S0 - Rsum (entropy_term len
                               <$> filter (λ c, (0 < c)%nat) counts)))
       <= INR (k + length counts) * (256 * unit_roundoff))%R.
Proof.
  intros Hacc Hlen. induction counts as [|c counts IH]; intros Hle e S0 k HS0 HS8 He0 Herr Hk.
  - simpl. unfold Rsum. simpl. rewrite Nat.add_0_r, Rminus_0_r. now split.
  - assert (Hc : (c ≤ len)%nat) by (apply Hle, elem_of_cons; now left).
    assert (Hle' : ∀ c', c' ∈ counts → (c' ≤ len)%nat)
      by (intros c' Hc'; apply Hle, elem_of_cons; now right).
    destruct (entropy_sum_bounds len counts Hlen Hle') as [Hrest _].
    cbv zeta in Hrest. rewrite fmap_cons. simpl fold_left. simpl length in *.
    rewrite filter_cons in *. destruct (decide (0 < c)%nat) as [Hpos|Hzero].
    + rewrite fmap_cons in *. unfold Rsum in HS8 |- *. simpl foldr in HS8 |- *.
      fold (Rsum (entropy_term len <$> filter (λ c, (0 < c)%nat) counts)) in *.
      set (rest := Rsum (entropy_term len <$> filter (λ c, (0 < c)%nat) counts)) in *.
      destruct (entropy_step_rounded len c e S0 k Hacc) as [He1 Herr1];
        try assumption; try lia; [lra|].
      cbv zeta in He1, Herr1.
      destruct (IH Hle' (entropy_step len e (Z.of_nat c))
                  (S0 - entropy_term len c)%R (S k)) as [Hr0 Hr];
        try assumption; try lia.
      * assert (H : (entropy_term len c <= 0)%R).
        { unfold entropy_term. apply entropy_term_nonpos.
          assert (0 < INR c)%R by (apply lt_0_INR; lia).
          assert (0 < INR len)%R by (apply lt_0_INR; lia).
          assert (INR c <= INR len)%R by (apply le_INR; lia).
          split; [apply Rdiv_lt_0_compat; lra|].
          apply Rmult_le_reg_r with (INR len); [lra|]. unfold Rdiv.
          rewrite Rmult_assoc, Rinv_l by lra. lra. }
        lra.
      * fold rest. lra.
      * cbv zeta in Hr0, Hr. fold rest in Hr. split; [exact Hr0|].
        replace (k + S (length counts))%nat with (S k + length counts)%nat by lia.
        replace (S0 - (entropy_term len c + rest))%R
          with (S0 - entropy_term len c - rest)%R by ring.
        exact Hr.
    + assert (c = 0%nat) as -> by lia.
      change (entropy_step len e (Z.of_nat 0)) with e.
      destruct (IH Hle' e S0 (S k)) as [Hr0 Hr]; try assumption; try lia.
      * eapply Rle_trans; [exact Herr|]. rewrite S_INR.
        pose proof unit_roundoff_bounds. nra.
      * cbv zeta in Hr0, Hr. split; [exact Hr0|].
        replace (k + S (length counts))%nat with (S k + length counts)%nat by lia.
        exact Hr.
Qed.

Lemma shannon_entropy_nil : shannon_entropy [] = 0%R.
Proof.
  unfold shannon_entropy.
  replace (filter (λ c, (0 < c)%nat) ((λ v, occurrences v []) <$> seq 0 256))
    with (@nil nat) by (vm_compute; reflexivity).
  unfold Rsum. simpl. ring.
Qed.

(** The value of [calculate_entropy] is not negative and lies within
    [entropy_tolerance] of the Shannon entropy of the buffer. *)
Lemma calculate_entropy_rounded (b : list byte) :
  log2_accurate libm_log2 → Z.of_nat (length b) < 2 ^ 64 →
  (0 <= calculate_entropy b)%R
  ∧ (Rabs (calculate_entropy b - shannon_entropy b) <= entropy_tolerance)%R.
Proof.
  intros Hacc Hlen. unfold calculate_entropy. destruct b as [|x b].
  - simpl Nat.eqb. cbv iota. rewrite shannon_entropy_nil, Rminus_0_r, Rabs_R0.
    unfold entropy_tolerance. split; [lra|]. left.
    apply Rinv_0_lt_compat, pow_lt. lra.
  - set (buf := x :: b) in *. change (length buf =? 0)%nat with false. cbv iota.
    assert (Hpos : (0 < length buf)%nat) by (simpl; lia).
    rewrite count_bytes_spec by exact Hlen.
    rewrite (list_fmap_compose (λ v, occurrences v buf) Z.of_nat).
    destruct (entropy_fold_rounded (length buf)
                ((λ v, occurrences v buf) <$> seq 0 256) Hacc Hpos)
      with (e := 0%R) (S0 := 0%R) (k := 0%nat) as [H0 H].
    + intros c Hc. apply list_elem_of_fmap in Hc as (v & -> & _).
      apply occurrences_le.
    + lra.
    + pose proof (shannon_entropy_bounds buf) as Hb. unfold shannon_entropy in Hb.
      fold (entropy_term (length buf)) in Hb. lra.
    + lra.
    + rewrite Rminus_0_r, Rabs_R0. simpl. lra.
    + rewrite length_fmap, length_seq. lia.
    + cbv zeta in H0, H. split; [exact H0|].
      rewrite length_fmap, length_seq in H. unfold shannon_entropy.
      fold (entropy_term (length buf)).
      replace (- Rsum (entropy_term (length buf)
                         <$> filter (λ c, (0 < c)%nat)
                               ((λ v, occurrences v buf) <$> seq 0 256)))%R
        with (0 - Rsum (entropy_term (length buf)
                          <$> filter (λ c, (0 < c)%nat)
                                ((λ v, occurrences v buf) <$> seq 0 256)))%R by ring.
      eapply Rle_trans; [exact H|]. right.
      unfold entropy_tolerance, unit_roundoff.
      replace (INR (0 + 256)) with 256%R by (rewrite INR_IZR_INZ; reflexivity).
      simpl. field.
Qed.

(** A slot that holds the whole buffer leaves an accumulator of 0 at 0:
    the probability is exactly 1 and its logarithm exactly 0. *)
Lemma entropy_step_whole (len : nat) :
  log2_accurate libm_log2 → (0 < len)%nat →
  entropy_step len 0 (Z.of_nat len) = 0%R.
Proof.
  intros Hacc Hlen. unfold entropy_step.
  replace (0 <? Z.of_nat len) with true by (symmetry; apply Z.ltb_lt; lia).
  cbv zeta. rewrite <- INR_IZR_INZ.
  assert (Hn : (0 < RN (INR len))%R) by (apply RN_sign, lt_0_INR; lia).
  replace (RN (INR len) / RN (INR len))%R with 1%R by (field; lra).
  rewrite RN_1.
  assert (Hl : libm_log2 1 = 0%R).
  { assert (H01 : (0 < 1 <= 1)%R) by lra.
    pose proof (Hacc 1%R H01) as H. rewrite log2_1, Rabs_R0, Rmult_0_r in H.
    rewrite Rminus_0_r in H. pose proof (Rabs_pos (libm_log2 1)).
    destruct (Req_dec (libm_log2 1) 0) as [|Hne]; [assumption|].
    pose proof (Rabs_pos_lt _ Hne). lra. }
  rewrite Hl, Rmult_0_r, RN_0, Rminus_0_r. apply RN_0.
Qed.

Lemma entropy_fold_single (len : nat) (counts : list nat) :
  log2_accurate libm_log2 → (0 < len)%nat →
  (∀ c, c ∈ counts → c = 0%nat ∨ c = len) →
  fold_left (entropy_step len) (Z.of_nat <$> counts) 0%R = 0%R.
Proof.
  intros Hacc Hlen. induction counts as [|c counts IH]; intros H; [reflexivity|].
  rewrite fmap_cons. simpl fold_left.
  destruct (H c) as [-> | ->]; [apply elem_of_cons; now left| |].
  - change (entropy_step len 0 (Z.of_nat 0)) with 0%R.
    apply IH. intros c' Hc'. apply H, elem_of_cons. now right.
  - rewrite entropy_step_whole by assumption.
    apply IH. intros c' Hc'. apply H, elem_of_cons. now right.
Qed.

(** A buffer of one distinct byte value has entropy 0, exactly. *)
Lemma calculate_entropy_single (x : byte) (b : list byte) :
  log2_accurate libm_log2 → Z.of_nat (length b) < 2 ^ 64 →
  (∀ y, y ∈ b → y = x) → calculate_entropy b = 0%R.
Proof.
  intros Hacc Hlen Hx. unfold calculate_entropy.
  destruct (length b =? 0)%nat eqn:Hz; [reflexivity|].
  apply Nat.eqb_neq in Hz. rewrite count_bytes_spec by exact Hlen.
  rewrite (list_fmap_compose (λ v, occurrences v b) Z.of_nat).
  apply entropy_fold_single; [exact Hacc|lia|].
  intros c Hc. apply list_elem_of_fmap in Hc as (v & -> & _).
  rewrite (occurrences_single x b v Hx). destruct (decide _); auto.
Qed.

(** Whatever [log2] computes, the value of [calculate_entropy] is a
    [double]: an integer times a power of two. *)
Lemma entropy_fold_dyadic (len : nat) (counts : list Z) (e : R) :
  (∃ m ex : Z, e = (IZR m * powerRZ 2 ex)%R) →
  ∃ m ex : Z, fold_left (entropy_step len) counts e = (IZR m * powerRZ 2 ex)%R.
Proof.
  revert e. induction counts as [|c counts IH]; intros e He; [exact He|].
  simpl fold_left. apply IH. unfold entropy_step.
  destruct (0 <? c); [apply RN_dyadic|exact He].
Qed.

Lemma calculate_entropy_dyadic (b : list byte) :
  ∃ m ex : Z, calculate_entropy b = (IZR m * powerRZ 2 ex)%R.
Proof.
  assert (H0 : ∃ m ex : Z, 0%R = (IZR m * powerRZ 2 ex)%R)
    by (exists 0, 0; simpl; ring).
  unfold calculate_entropy. destruct (length b =? 0)%nat; [exact H0|].
  now apply entropy_fold_dyadic.
Qed.

(** No multiple of [ln 11] by a positive integer is a multiple of [ln 2]
    by an integer: a power of 11 is odd. *)
Lemma ln_11_ln_2 (n : nat) (m : Z) :
  (0 < n)%nat → (INR n * ln 11 ≠ IZR m * ln 2)%R.
Proof.
  intros Hn Heq. pose proof ln2_pos as H2.
  assert (H11 : (0 < ln 11)%R) by (rewrite <- ln_1; apply ln_increasing; lra).
  assert (HN : (0 < INR n)%R) by (apply lt_0_INR; lia).
  assert (Hm : (0 < IZR m)%R) by nra.
  apply lt_IZR in Hm.
  assert (Hpow : (11 ^ n = 2 ^ Z.to_nat m)%R).
  { apply ln_inv; [apply pow_lt; lra|apply pow_lt; lra|].
    rewrite !ln_pow by lra. rewrite Heq, INR_IZR_INZ, Z2Nat.id by lia.
    reflexivity. }
  rewrite !pow_IZR in Hpow. apply eq_IZR in Hpow.
  assert (Hodd : Z.odd (11 ^ Z.of_nat n) = true).
  { rewrite Z.odd_pow by lia. reflexivity. }
  assert (Heven : Z.even (2 ^ Z.of_nat (Z.to_nat m)) = true).
  { rewrite Z.even_pow by lia. reflexivity. }
  rewrite Hpow, <- Z.negb_even, Heven in Hodd. discriminate.
Qed.

(** [log2 11] is no [double]. *)
Lemma log2_11_not_dyadic (m ex : Z) : (log2 11 ≠ IZR m * powerRZ 2 ex)%R.
Proof.
  intros Heq. pose proof ln2_pos as H2. unfold log2 in Heq.
  assert (Hln : (ln 11 = IZR m * powerRZ 2 ex * ln 2)%R).
  { rewrite <- Heq. field. lra. }
  destruct (Z_lt_le_dec ex 0) as [Hneg|Hpos].
  - apply (ln_11_ln_2 (2 ^ Z.to_nat (- ex)) m).
    + apply Nat.neq_0_lt_0, Nat.pow_nonzero. lia.
    + rewrite Hln, pow_INR. simpl INR.
      replace (1 + 1)%R with 2%R by ring.
      rewrite pow_powerRZ, Z2Nat.id by lia.
      replace (powerRZ 2 (- ex) * (IZR m * powerRZ 2 ex * ln 2))%R
        with (IZR m * ln 2 * (powerRZ 2 (- ex) * powerRZ 2 ex))%R by ring.
      rewrite <- powerRZ_add by lra.
      replace (- ex + ex) with 0 by lia. simpl. ring.
  - apply (ln_11_ln_2 1 (m * 2 ^ ex)); [lia|].
    rewrite Hln, mult_IZR. simpl INR.
    rewrite <- (Z2Nat.id ex) at 2 by lia. rewrite <- pow_IZR.
    rewrite <- (Z2Nat.id ex) at 1 by lia. rewrite <- pow_powerRZ. ring.
Qed.

(** C6, amended: for every byte buffer [b] (of a length that fits
    [size_t]) and a [log2] of the C library that is accurate to [2^-50],
    [0 <= calculate_entropy b <= 8 + 2^-37]; the entropy is exactly 0 when
    [b] is empty or holds a single distinct byte value; otherwise it is
    the binary64 evaluation of [- Σ (count_i / n) * log2 (count_i / n)]
    over the byte values of positive count, [n] the length: a [double]
    (an integer times a power of two) within [2^-37] of that sum. *)
Theorem C6_entropy_is_shannon_entropy_rounded (b : list byte)
    (Hacc : log2_accurate libm_log2)
    (Hlen : Z.of_nat (length b) < 2 ^ 64) :
  (0 <= calculate_entropy b <= 8 + entropy_tolerance)%R
  ∧ (b = [] → calculate_entropy b = 0%R)
  ∧ (∀ x : byte, (∀ y, y ∈ b → y = x) → calculate_entropy b = 0%R)
  ∧ (Rabs (calculate_entropy b - shannon_entropy b) <= entropy_tolerance)%R
  ∧ (∃ m ex : Z, calculate_entropy b = (IZR m * powerRZ 2 ex)%R).
Proof.
  destruct (calculate_entropy_rounded b Hacc Hlen) as [H0 Hclose].
  pose proof (shannon_entropy_bounds b) as [_ H8].
  pose proof (Rabs_le_between _ _ Hclose) as [_ Hup].
  split; [split; [exact H0|lra]|]. split; [now intros ->|].
  split; [intros x Hx; now apply (calculate_entropy_single x)|].
  split; [exact Hclose|apply calculate_entropy_dyadic].
Qed.

(** ** Entropy of example buffers *)

Lemma entropy_tolerance_bounds : (0 < entropy_tolerance <= / 2 ^ 20)%R.
Proof.
  unfold entropy_tolerance. split; [apply Rinv_0_lt_compat, pow_lt; lra|].
  apply Rinv_le_contravar; [apply pow_lt; lra|]. apply Rle_pow; [lra|lia].
Qed.

Lemma Rsum_replicate (k : nat) (a : R) : Rsum (replicate k a) = (INR k * a)%R.
Proof.
  induction k as [|k IH]; [unfold Rsum; simpl; ring|].
  rewrite S_INR. unfold Rsum in *. simpl. rewrite IH. ring.
Qed.

(** Every byte value once: 8 bits per byte. *)
Lemma shannon_entropy_all_bytes : shannon_entropy all_bytes = 8%R.
Proof.
  unfold shannon_entropy.
  replace (length all_bytes) with 256%nat by (vm_compute; reflexivity).
  replace (filter (λ c, (0 < c)%nat) ((λ v, occurrences v all_bytes) <$> seq 0 256))
    with (replicate 256 1%nat) by (vm_compute; reflexivity).
  rewrite fmap_replicate, Rsum_replicate.
  replace (INR 256) with 256%R by (rewrite INR_IZR_INZ; reflexivity).
  replace (INR 1 / 256)%R with (/ 256)%R by (simpl; field).
  unfold log2. rewrite ln_Rinv, ln_256 by lra. pose proof ln2_pos. field. lra.
Qed.

Lemma calculate_entropy_all_bytes :
  log2_accurate libm_log2 → (calculate_entropy all_bytes > ENTROPY_THRESHOLD)%R.
Proof.
  intros Hacc. destruct (calculate_entropy_rounded all_bytes Hacc) as [_ H];
    [vm_compute; reflexivity|].
  rewrite shannon_entropy_all_bytes in H. apply Rabs_le_between in H.
  pose proof entropy_tolerance_bounds as [_ Ht].
  assert (/ 2 ^ 20 < / 4)%R by (apply Rinv_lt_contravar; simpl; lra).
  unfold ENTROPY_THRESHOLD. lra.
Qed.

(** ** The copy loop *)

Lemma backup_frame_refl (dst : string) (w : world) : backup_frame dst w w.
Proof.
  repeat split. exists []. split; [now rewrite app_nil_r|constructor].
Qed.

Lemma backup_frame_trans (dst : string) (w1 w2 w3 : world) :
  backup_frame dst w1 w2 → backup_frame dst w2 w3 → backup_frame dst w1 w3.
Proof.
  intros (Ht & Hb & Hd & Hc & Hf & t & Htr & Hall)
         (Ht' & Hb' & Hd' & Hc' & Hf' & t' & Htr' & Hall').
  repeat split; try congruence.
  - intros p Hp. rewrite Hf', Hf; auto.
  - exists (t ++ t'). split.
    + rewrite Htr', Htr. now rewrite app_assoc.
    + apply Forall_app. now split.
Qed.

Lemma copy_loop_S (fuel : nat) (src dst : FILE) (w : world) :
  copy_loop (S fuel) src dst w
  = let '(chunk, src', w1) := fread sizeof_buffer src w in
    if (0 <? length chunk)%nat then
      let '(_, w2) := fwrite chunk dst w1 in
      copy_loop fuel src' dst w2
    else Some w1.
Proof. reflexivity. Qed.

(** More fuel does not change the outcome of the loop. *)
Lemma copy_loop_fuel_mono (n m : nat) (src dst : FILE) (w w' : world) :
  copy_loop n src dst w = Some w' → (n ≤ m)%nat →
  copy_loop m src dst w = Some w'.
Proof.
  revert m src w. induction n as [|n IH]; intros m src w H Hle; [discriminate|].
  destruct m as [|m]; [lia|]. rewrite copy_loop_S in H |- *.
  destruct (fread sizeof_buffer src w) as [[chunk src'] w1].
  destruct (0 <? length chunk)%nat; [|exact H].
  destruct (fwrite chunk dst w1) as [k w2]. apply IH; [exact H|lia].
Qed.

(** The loop ends: each round moves the read position forward, and what
    is appended in between is bounded by the free space of the storage. *)
Lemma copy_loop_terminates (n : nat) (src dst : FILE) (w : world) :
  (length (default [] (files w !! f_path src)) - f_pos src + space w < n)%nat →
  ∃ w' : world, copy_loop n src dst w = Some w'.
Proof.
  revert src w. induction n as [|n IH]; intros src w Hlt; [lia|].
  simpl. unfold fread, fwrite. simpl.
  set (data := default [] (files w !! f_path src)) in *.
  set (chunk := take sizeof_buffer (drop (f_pos src) data)).
  destruct (0 <? length chunk)%nat eqn:Hk; [|eauto].
  apply Nat.ltb_lt in Hk. apply IH. simpl.
  assert (Hchunk : (length chunk ≤ length data - f_pos src)%nat).
  { unfold chunk. rewrite length_take, length_drop. lia. }
  assert (Hw : (length (take (space w) chunk) ≤ space w)%nat).
  { rewrite length_take. lia. }
  destruct (decide (f_path dst = f_path src)) as [He|Hne].
  - rewrite He, lookup_insert_eq. simpl. fold data. rewrite length_app. lia.
  - rewrite lookup_insert_ne by exact Hne. fold data. lia.
Qed.

Lemma copy_loop_returns (src dst : FILE) (w : world) :
  ∃ w' : world, returns (λ fuel, copy_loop fuel src dst w) w'.
Proof.
  set (n := S (length (default [] (files w !! f_path src)) - f_pos src + space w)).
  destruct (copy_loop_terminates n src dst w) as [w' Hw']; [unfold n; lia|].
  exists w', n. intros fuel Hfuel. now apply (copy_loop_fuel_mono n).
Qed.

Lemma fread_world (n : nat) (f : FILE) (w : world) :
  (fread n f w).2 = sys (SysFread (f_path f) n) w.
Proof. reflexivity. Qed.

Lemma fwrite_world (chunk : list byte) (f : FILE) (w : world) :
  ∃ (data : list byte) (room : nat),
    (fwrite chunk f w).2
    = set_space room
        (set_files (<[f_path f := data]> (files w))
           (sys (SysFwrite (f_path f) (length chunk)) w)).
Proof. eexists _, _. reflexivity. Qed.

(** The loop touches the file [dst] only, and nothing of the bookkeeping. *)
Lemma copy_loop_frame (n : nat) (src dst : FILE) (w w' : world) :
  copy_loop n src dst w = Some w' →
  backup_frame (f_path dst) w w'
  ∧ stats w' = stats w ∧ stderr w' = stderr w ∧ open_fds w' = open_fds w.
Proof.
  revert src w. induction n as [|n IH]; intros src w H; [discriminate|].
  rewrite copy_loop_S in H.
  pose proof (fread_world sizeof_buffer src w) as Hw1.
  destruct (fread sizeof_buffer src w) as [[chunk src'] w1].
  simpl in Hw1. subst w1.
  destruct (0 <? length chunk)%nat.
  - destruct (fwrite_world chunk dst (sys (SysFread (f_path src) sizeof_buffer) w))
      as (data & room & Hw2).
    destruct (fwrite chunk dst _) as [k w2]. simpl in Hw2. subst w2.
    apply IH in H as (Hfr & Hst & Herr & Hfd).
    split; [|now repeat split].
    eapply backup_frame_trans; [|exact Hfr].
    repeat split; simpl.
    + intros p Hp. now rewrite lookup_insert_ne.
    + eexists [_; _]. split; [now rewrite <- app_assoc|].
      repeat constructor.
  - injection H as <-. split; [|now repeat split].
    repeat split; simpl. eexists [_]. split; [reflexivity|]. repeat constructor.
Qed.

(** ** The JIT backup, path by path *)


(** The time stamp of the backup name is read from a clock that no call
    of the backup advances. *)
Lemma get_backup_path_clock (ctx : sentinelfs_context_t) (p : string)
    (w1 w2 : world) :
  clock w1 = clock w2 → get_backup_path ctx p w1 = get_backup_path ctx p w2.
Proof. intros H. unfold get_backup_path. now rewrite H. Qed.

(** [stat] fails: error, nothing else happens. *)
Lemma create_jit_backup_missing (ctx : sentinelfs_context_t) (p : string)
    (w : world) (fuel : nat) :
  files w !! p = None →
  create_jit_backup fuel ctx p w = Some (-1, sys (SysStat p) w).
Proof.
  intros H. unfold create_jit_backup, os_stat. wsimpl. now rewrite H.
Qed.

(** The file is larger than the cap: diagnostic, success, nothing else. *)
Lemma create_jit_backup_too_large (ctx : sentinelfs_context_t) (p : string)
    (w : world) (data : list byte) (fuel : nat) :
  files w !! p = Some data →
  JIT_BACKUP_MAX_SIZE < Z.of_nat (length data) →
  create_jit_backup fuel ctx p w
  = Some (0, eprint (SkippingBackup p) (sys (SysStat p) w)).
Proof.
  intros H Hbig. unfold create_jit_backup, os_stat. wsimpl. rewrite H.
  now rewrite (proj2 (Z.ltb_lt _ _) Hbig).
Qed.

(** The source cannot be opened: error, no descriptor is left open. *)
Lemma create_jit_backup_source_denied (ctx : sentinelfs_context_t) (p : string)
    (w : world) (data : list byte) (fuel : nat) :
  files w !! p = Some data →
  Z.of_nat (length data) ≤ JIT_BACKUP_MAX_SIZE →
  p ∈ denied w →
  create_jit_backup fuel ctx p w
  = Some (-1, sys (SysFopen p "rb") (sys (SysStat p) w)).
Proof.
  intros H Hsmall Hden. unfold create_jit_backup, os_stat, fopen_rb. wsimpl.
  rewrite H. rewrite (proj2 (Z.ltb_ge _ _) Hsmall). wsimpl. rewrite H.
  destruct (decide (p ∈ denied w)); [reflexivity|contradiction].
Qed.

(** The backup file cannot be opened: the source is closed, error. *)
Lemma create_jit_backup_backup_denied (ctx : sentinelfs_context_t) (p : string)
    (w : world) (data : list byte) (fuel : nat) :
  files w !! p = Some data →
  Z.of_nat (length data) ≤ JIT_BACKUP_MAX_SIZE →
  p ∉ denied w →
  get_backup_path ctx p w ∈ denied w →
  create_jit_backup fuel ctx p w
  = Some (-1, fclose {| f_path := p; f_pos := 0 |}
                (sys (SysFopen (get_backup_path ctx p w) "wb")
                   (source_opened p w))).
Proof.
  intros H Hsmall Hsrc Hdst.
  unfold create_jit_backup, os_stat, fopen_rb, fopen_wb. wsimpl.
  rewrite H. rewrite (proj2 (Z.ltb_ge _ _) Hsmall). wsimpl. rewrite H.
  destruct (decide (p ∈ denied w)); [contradiction|]. wsimpl.
  change (get_backup_path ctx p (sys (SysStat p) w))
    with (get_backup_path ctx p w).
  destruct (decide (get_backup_path ctx p w ∈ denied w)); [reflexivity|contradiction].
Qed.

(** Both files are opened: whatever the loop does, the backup is counted
    and the result is success. *)
Lemma create_jit_backup_copy (ctx : sentinelfs_context_t) (p : string)
    (w : world) (data : list byte) (fuel : nat) :
  files w !! p = Some data →
  Z.of_nat (length data) ≤ JIT_BACKUP_MAX_SIZE →
  p ∉ denied w →
  get_backup_path ctx p w ∉ denied w →
  let backup := get_backup_path ctx p w in
  create_jit_backup fuel ctx p w
  = match copy_loop fuel {| f_path := p; f_pos := 0 |}
            {| f_path := backup; f_pos := 0 |} (backup_opened backup p w) with
    | None => None
    | Some w' => Some (0, backup_finished backup p w')
    end.
Proof.
  intros H Hsmall Hsrc Hdst backup.
  unfold create_jit_backup, os_stat, fopen_rb, fopen_wb. wsimpl.
  rewrite H. rewrite (proj2 (Z.ltb_ge _ _) Hsmall). wsimpl. rewrite H.
  destruct (decide (p ∈ denied w)); [contradiction|]. wsimpl.
  change (get_backup_path ctx p (sys (SysStat p) w)) with backup.
  destruct (decide (backup ∈ denied w)); [contradiction|]. reflexivity.
Qed.

Lemma returns_const {A : Type} (f : nat → option A) (r : A) :
  (∀ fuel, f fuel = Some r) → returns f r.
Proof. intros H. exists 0%nat. intros fuel _. apply H. Qed.

Lemma returns_unique {A : Type} (f : nat → option A) (r1 r2 : A) :
  returns f r1 → returns f r2 → r1 = r2.
Proof.
  intros [n1 H1] [n2 H2].
  specialize (H1 (Nat.max n1 n2) (Nat.le_max_l _ _)).
  specialize (H2 (Nat.max n1 n2) (Nat.le_max_r _ _)). congruence.
Qed.

(** [create_jit_backup] returns, with 0 or -1; it leaves every file but
    the backup file as it was, and closes the descriptors it opens. *)
Lemma create_jit_backup_returns (ctx : sentinelfs_context_t) (p : string)
    (w : world) :
  ∃ (r : Z) (w' : world),
    returns (λ fuel, create_jit_backup fuel ctx p w) (r, w')
    ∧ (r = 0 ∨ r = -1)
    ∧ backup_frame (get_backup_path ctx p w) w w'
    ∧ open_fds w' = open_fds w.
Proof.
  destruct (files w !! p) as [data|] eqn:Hp.
  2:{ eexists _, _. split; [apply returns_const; intros fuel;
        now apply create_jit_backup_missing|].
      split; [now right|]. split; [|reflexivity].
      repeat split. eexists [_]. split; [reflexivity|]. repeat constructor. }
  destruct (Z_lt_le_dec JIT_BACKUP_MAX_SIZE (Z.of_nat (length data))) as [Hbig|Hsmall].
  { eexists _, _. split; [apply returns_const; intros fuel;
      now apply (create_jit_backup_too_large ctx p w data)|].
    split; [now left|]. split; [|reflexivity].
    repeat split. eexists [_]. split; [reflexivity|]. repeat constructor. }
  destruct (decide (p ∈ denied w)) as [Hsrc|Hsrc].
  { eexists _, _. split; [apply returns_const; intros fuel;
      now apply (create_jit_backup_source_denied ctx p w data)|].
    split; [now right|]. split; [|reflexivity].
    repeat split. eexists [_; _]. split; [wsimpl; now rewrite <- app_assoc|].
    repeat constructor. }
  destruct (decide (get_backup_path ctx p w ∈ denied w)) as [Hdst|Hdst].
  { eexists _, _. split; [apply returns_const; intros fuel;
      now apply (create_jit_backup_backup_denied ctx p w data)|].
    split; [now right|]. split; [|reflexivity].
    repeat split. eexists [_; _; _; _].
    split; [unfold source_opened; wsimpl; now rewrite <- !app_assoc|].
    repeat constructor. }
  set (backup := get_backup_path ctx p w) in *.
  destruct (copy_loop_returns {| f_path := p; f_pos := 0 |}
              {| f_path := backup; f_pos := 0 |} (backup_opened backup p w))
    as (w4 & fuel0 & Hloop).
  exists 0, (backup_finished backup p w4). split.
  { exists fuel0. intros fuel Hfuel.
    rewrite (create_jit_backup_copy ctx p w data) by assumption.
    fold backup. now rewrite Hloop. }
  split; [now left|].
  destruct (copy_loop_frame _ _ _ _ _ (Hloop fuel0 (Nat.le_refl _)))
    as ((Ht & Hb & Hd & Hc & Hf & t & Htr & Hall) & Hst & Herr & Hfd).
  unfold backup_finished, backup_opened, source_opened in *. wsimpl. split.
  - repeat split; wsimpl; try congruence.
    + intros q Hq. rewrite Hf by exact Hq. now rewrite lookup_insert_ne.
    + exists ([SysStat p; SysFopen p "rb"; SysFopen backup "wb"] ++ t
              ++ [SysFclose p; SysFclose backup]).
      split.
      * rewrite Htr, <- !app_assoc. reflexivity.
      * apply Forall_app. split; [repeat constructor|].
        apply Forall_app. split; [exact Hall|repeat constructor].
  - rewrite Hfd. reflexivity.
Qed.

(** ** The write gate *)

(** The three outcomes of [detect_ransomware], in the order of the code:
    [total_writes] is counted first, then the safe-list is consulted, then
    the entropy. *)
Lemma detect_ransomware_cases (ctx : sentinelfs_context_t) (buf : list byte)
    (w : world) :
  let w1 := snd (is_whitelisted_file ctx buf
                   (set_stats (incr_total_writes (stats w)) w)) in
  (fst (is_whitelisted_file ctx buf w) ≠ 0
   ∧ detect_ransomware ctx buf w = (0, w1))
  ∨ (fst (is_whitelisted_file ctx buf w) = 0
     ∧ (calculate_entropy buf > ENTROPY_THRESHOLD)%R
     ∧ detect_ransomware ctx buf w
       = (- EIO, eprint (RansomwareDetected (calculate_entropy buf))
                   (set_stats (incr_blocked_writes (stats w1)) w1)))
  ∨ (fst (is_whitelisted_file ctx buf w) = 0
     ∧ ¬ (calculate_entropy buf > ENTROPY_THRESHOLD)%R
     ∧ detect_ransomware ctx buf w = (0, w1)).
Proof.
  intros w1. unfold detect_ransomware.
  pose proof (is_whitelisted_file_value ctx buf w
                (set_stats (incr_total_writes (stats w)) w)) as Hv.
  subst w1. destruct (is_whitelisted_file ctx buf (set_stats _ w)) as [wl w1].
  simpl in Hv. simpl snd. rewrite Hv.
  destruct (Z.eqb_spec wl 0) as [->|Hne]; simpl negb; cbv iota.
  - right. destruct (Rgt_dec (calculate_entropy buf) ENTROPY_THRESHOLD).
    + left. repeat split. assumption.
    + right. repeat split. assumption.
  - left. split; [assumption|reflexivity].
Qed.

(** The value of [detect_ransomware] depends on the buffer only. *)
Lemma detect_ransomware_value (ctx : sentinelfs_context_t) (buf : list byte)
    (w1 w2 : world) :
  fst (detect_ransomware ctx buf w1) = fst (detect_ransomware ctx buf w2).
Proof.
  pose proof (is_whitelisted_file_value ctx buf w1 w2) as Hv.
  destruct (detect_ransomware_cases ctx buf w1) as [(H1 & ->)|[(H1 & G1 & ->)|(H1 & G1 & ->)]],
    (detect_ransomware_cases ctx buf w2) as [(H2 & ->)|[(H2 & G2 & ->)|(H2 & G2 & ->)]];
    simpl; try reflexivity; try congruence; contradiction.
Qed.

(** [detect_ransomware] changes counters and the standard error stream,
    nothing else. *)
Lemma detect_ransomware_frame (ctx : sentinelfs_context_t) (buf : list byte)
    (w : world) :
  let w' := snd (detect_ransomware ctx buf w) in
  files w' = files w ∧ denied w' = denied w ∧ space w' = space w
  ∧ clock w' = clock w ∧ open_fds w' = open_fds w ∧ trace w' = trace w
  ∧ backups_created (stats w') = backups_created (stats w)
  ∧ total_writes (stats w') = wrap64 (total_writes (stats w) + 1)
  ∧ (blocked_writes (stats w') = blocked_writes (stats w)
     ∨ blocked_writes (stats w') = wrap64 (blocked_writes (stats w) + 1)).
Proof.
  destruct (is_whitelisted_file_world ctx buf
              (set_stats (incr_total_writes (stats w)) w)) as [Hw|Hw];
    destruct (detect_ransomware_cases ctx buf w)
      as [(_ & ->)|[(_ & _ & ->)|(_ & _ & ->)]];
    rewrite Hw; wsimpl; repeat split; auto.
Qed.


(** A buffer that is not on the safe-list and has a high entropy is
    blocked. *)
Lemma detect_ransomware_high (ctx : sentinelfs_context_t) (buf : list byte)
    (w : world) :
  fst (is_whitelisted_file ctx buf w) = 0 →
  (calculate_entropy buf > ENTROPY_THRESHOLD)%R →
  fst (detect_ransomware ctx buf w) = - EIO.
Proof.
  intros Hunsafe Hhigh.
  destruct (detect_ransomware_cases ctx buf w)
    as [(Hs & _)|[(_ & _ & ->)|(_ & Hlow & _)]];
    [contradiction|reflexivity|contradiction].
Qed.

(** Every byte value once, not recognised by the classifier: blocked. *)
Lemma detect_ransomware_all_bytes (w : world) :
  log2_accurate libm_log2 →
  fst (detect_ransomware (example_ctx (λ _, Some "application/octet-stream"))
         all_bytes w) = - EIO.
Proof.
  intros Hacc.
  destruct (detect_ransomware_cases
              (example_ctx (λ _, Some "application/octet-stream")) all_bytes w)
    as [(Hs & _)|[(_ & _ & ->)|(_ & Hh & _)]].
  - exfalso. apply Hs. vm_compute. reflexivity.
  - reflexivity.
  - exfalso. apply Hh. now apply calculate_entropy_all_bytes.
Qed.

(** C5: [detect_ransomware] blocks, that is returns [-EIO] and increments
    [blocked_writes], if and only if the buffer is not on the safe-list and
    its entropy is strictly greater than 7.5; otherwise it returns 0 and
    leaves [blocked_writes] alone. So a buffer of entropy at most 7.5 is
    never blocked, a safe buffer is never blocked whatever its entropy,
    and an empty buffer is allowed. *)
Theorem C5_gate_blocks_iff_unsafe_and_high_entropy (ctx : sentinelfs_context_t)
    (buf : list byte) (w : world) :
  let r := fst (detect_ransomware ctx buf w) in
  let w' := snd (detect_ransomware ctx buf w) in
  let unsafe := fst (is_whitelisted_file ctx buf w) = 0 in
  let high := (calculate_entropy buf > ENTROPY_THRESHOLD)%R in
  (r = - EIO ↔ unsafe ∧ high)
  ∧ (r = 0 ↔ ¬ (unsafe ∧ high))
  ∧ (r = - EIO →
     blocked_writes (stats w') = wrap64 (blocked_writes (stats w) + 1))
  ∧ (r = 0 → blocked_writes (stats w') = blocked_writes (stats w))
  ∧ ((calculate_entropy buf <= ENTROPY_THRESHOLD)%R → r = 0)
  ∧ (¬ unsafe → r = 0)
  ∧ (buf = [] → r = 0).
Proof.
  intros r w' unsafe high. subst r w' unsafe high.
  assert (Hempty : buf = [] → ¬ (calculate_entropy buf > ENTROPY_THRESHOLD)%R).
  { intros ->. unfold calculate_entropy, ENTROPY_THRESHOLD. simpl. lra. }
  destruct (is_whitelisted_file_world ctx buf
              (set_stats (incr_total_writes (stats w)) w)) as [Hw|Hw];
    destruct (detect_ransomware_cases ctx buf w)
      as [(Hs & ->)|[(Hs & Hh & ->)|(Hs & Hh & ->)]];
    rewrite Hw; wsimpl; unfold EIO;
    repeat split; try tauto; try discriminate; try lra;
    try (intros; exfalso; tauto); try (intros; exfalso; lra).
Qed.

(** ** The write callback *)

Lemma write_backup_phase_missing (ctx : sentinelfs_context_t)
    (full_path : string) (offset : Z) (w : world) (fuel : nat) :
  files w !! full_path = None →
  write_backup_phase fuel ctx full_path offset w
  = Some (if offset =? 0 then sys (SysStat full_path) w else w).
Proof.
  intros H. unfold write_backup_phase, os_stat. wsimpl. rewrite H.
  destruct (offset =? 0); reflexivity.
Qed.

Lemma backup_frame_stat (dst p : string) (w : world) :
  backup_frame dst w (sys (SysStat p) w).
Proof.
  repeat split. eexists [_]. split; [reflexivity|]. repeat constructor.
Qed.

(** The backup phase returns; it leaves every file but the backup file
    as it was and closes the descriptors it opens; at a non-zero offset it
    does nothing. *)
Lemma write_backup_phase_returns (ctx : sentinelfs_context_t)
    (full_path : string) (offset : Z) (w : world) :
  ∃ w1 : world,
    returns (λ fuel, write_backup_phase fuel ctx full_path offset w) w1
    ∧ backup_frame (get_backup_path ctx full_path w) w w1
    ∧ open_fds w1 = open_fds w
    ∧ (offset ≠ 0 → w1 = w).
Proof.
  destruct (Z.eqb_spec offset 0) as [->|Hoff].
  2:{ exists w. split; [|split; [apply backup_frame_refl|split; [reflexivity|]]].
      - apply returns_const. intros fuel. unfold write_backup_phase.
        now rewrite (proj2 (Z.eqb_neq _ _) Hoff).
      - reflexivity. }
  destruct (files w !! full_path) as [data|] eqn:Hp.
  2:{ exists (sys (SysStat full_path) w).
      split; [|split; [apply backup_frame_stat|split; [reflexivity|congruence]]].
      apply returns_const. intros fuel.
      now rewrite write_backup_phase_missing. }
  destruct (0 <? Z.of_nat (length data)) eqn:Hsize.
  2:{ exists (sys (SysStat full_path) w).
      split; [|split; [apply backup_frame_stat|split; [reflexivity|congruence]]].
      apply returns_const. intros fuel. unfold write_backup_phase, os_stat.
      wsimpl. now rewrite Hp, Hsize. }
  destruct (create_jit_backup_returns ctx full_path (sys (SysStat full_path) w))
    as (r & w1 & (fuel0 & Hret) & _ & Hframe & Hfd).
  exists w1. split; [|split; [|split; [exact Hfd|congruence]]].
  - exists fuel0. intros fuel Hfuel. unfold write_backup_phase, os_stat.
    wsimpl. rewrite Hp, Hsize. now rewrite (Hret fuel Hfuel).
  - eapply backup_frame_trans; [apply (backup_frame_stat _ full_path)|].
    exact Hframe.
Qed.

(** The pass-through part of [sentinelfs_write] leaves the counters
    alone. *)
Lemma os_open_wronly_stats (p : string) (w : world) :
  stats (os_open_wronly p w).2 = stats w.
Proof.
  unfold os_open_wronly. wsimpl. destruct (files w !! p); [|reflexivity].
  destruct (decide _); reflexivity.
Qed.

Lemma os_pwrite_stats (fd : string) (buf : list byte) (offset : Z) (w : world) :
  stats (os_pwrite fd buf offset w).2 = stats w.
Proof.
  unfold os_pwrite. wsimpl. destruct (offset <? 0); [reflexivity|].
  destruct (length buf =? 0)%nat; [reflexivity|].
  destruct (_ =? 0)%nat; reflexivity.
Qed.


(** ** A successful copy *)

Lemma fread_eq (n : nat) (f : FILE) (w : world) :
  fread n f w
  = (take n (drop (f_pos f) (default [] (files w !! f_path f))),
     {| f_path := f_path f;
        f_pos := f_pos f
                 + length (take n (drop (f_pos f)
                                     (default [] (files w !! f_path f)))) |},
     sys (SysFread (f_path f) n) w).
Proof. reflexivity. Qed.

Lemma fwrite_eq (chunk : list byte) (f : FILE) (w : world) :
  fwrite chunk f w
  = (length (take (space w) chunk),
     set_space (space w - length (take (space w) chunk))
       (set_files
          (<[f_path f := default [] (files w !! f_path f)
                         ++ take (space w) chunk]> (files w))
          (sys (SysFwrite (f_path f) (length chunk)) w))).
Proof. reflexivity. Qed.

Lemma sizeof_buffer_pos : (0 < sizeof_buffer)%nat.
Proof. unfold sizeof_buffer. lia. Qed.

Lemma take_drop_length {A : Type} (n : nat) (l : list A) :
  take n l ++ drop (length (take n l)) l = l.
Proof.
  destruct (le_lt_dec n (length l)) as [H|H].
  - rewrite length_take_le by exact H. apply take_drop.
  - rewrite take_ge by lia. rewrite drop_ge by lia. apply app_nil_r.
Qed.

(** With room for what is left of the source, the loop appends it to the
    backup file, and the source is as it was. *)
Lemma copy_loop_copies (n : nat) (src dst : FILE) (w w' : world)
    (data acc : list byte) :
  f_path src ≠ f_path dst →
  files w !! f_path src = Some data →
  files w !! f_path dst = Some acc →
  (length data - f_pos src ≤ space w)%nat →
  copy_loop n src dst w = Some w' →
  files w' !! f_path dst = Some (acc ++ drop (f_pos src) data)
  ∧ files w' !! f_path src = Some data.
Proof.
  revert src w acc. induction n as [|n IH]; intros src w acc Hne Hsrc Hdst Hroom H;
    [discriminate|].
  rewrite copy_loop_S, fread_eq in H. cbv beta iota zeta in H.
  rewrite Hsrc in H. change (default [] (Some data)) with data in H.
  set (chunk := take sizeof_buffer (drop (f_pos src) data)) in *.
  assert (Hk : (length chunk ≤ length data - f_pos src)%nat).
  { unfold chunk. rewrite length_take, length_drop. lia. }
  destruct (0 <? length chunk)%nat eqn:Hpos.
  - rewrite fwrite_eq in H. cbv beta iota zeta in H. wsimpl.
    rewrite Hdst in H. change (default [] (Some acc)) with acc in H.
    rewrite (take_ge chunk) in H by lia.
    apply (IH _ _ (acc ++ chunk)) in H; wsimpl.
    + destruct H as [Hd Hs]. split; [|exact Hs]. rewrite Hd. f_equal.
      rewrite <- app_assoc. f_equal. unfold chunk.
      rewrite <- drop_drop. apply take_drop_length.
    + exact Hne.
    + rewrite lookup_insert_ne by congruence. exact Hsrc.
    + apply lookup_insert_eq.
    + lia.
  - injection H as <-. wsimpl. split; [|exact Hsrc]. rewrite Hdst. f_equal.
    apply Nat.ltb_ge in Hpos. pose proof sizeof_buffer_pos.
    assert (Hnil : drop (f_pos src) data = []).
    { destruct (drop (f_pos src) data) as [|x l] eqn:Hd; [reflexivity|].
      unfold chunk in Hpos. rewrite length_take in Hpos.
      assert (length (x :: l) = S (length l)) by reflexivity. lia. }
    rewrite Hnil. now rewrite app_nil_r.
Qed.

(** A file of at most the cap, readable, with a backup file that can be
    written, is another file and fits the storage, is copied in full. *)
Lemma create_jit_backup_copies (ctx : sentinelfs_context_t) (p : string)
    (w : world) (data : list byte) :
  let backup := get_backup_path ctx p w in
  files w !! p = Some data →
  Z.of_nat (length data) ≤ JIT_BACKUP_MAX_SIZE →
  p ∉ denied w → backup ∉ denied w → backup ≠ p →
  (length data ≤ space w)%nat →
  ∃ w' : world,
    returns (λ fuel, create_jit_backup fuel ctx p w) (0, w')
    ∧ files w' !! backup = Some data
    ∧ files w' !! p = Some data
    ∧ backups_created (stats w') = wrap64 (backups_created (stats w) + 1)
    ∧ stderr w' = stderr w ++ [JitBackupCreated p backup]
    ∧ open_fds w' = open_fds w.
Proof.
  intros backup Hp Hsmall Hsrc Hdst Hne Hroom.
  destruct (copy_loop_returns {| f_path := p; f_pos := 0 |}
              {| f_path := backup; f_pos := 0 |} (backup_opened backup p w))
    as (w4 & fuel0 & Hloop).
  exists (backup_finished backup p w4). split.
  { exists fuel0. intros fuel Hfuel.
    rewrite (create_jit_backup_copy ctx p w data) by assumption.
    fold backup. now rewrite Hloop. }
  pose proof (Hloop fuel0 (Nat.le_refl _)) as Hrun.
  destruct (copy_loop_frame _ _ _ _ _ Hrun) as (_ & Hst & Herr & Hfd).
  apply (copy_loop_copies _ _ _ _ _ data []) in Hrun.
  - destruct Hrun as [Hb Hs]. unfold backup_finished. wsimpl.
    rewrite Hst, Herr, Hfd. unfold backup_opened, source_opened. wsimpl.
    repeat split; assumption.
  - simpl. congruence.
  - unfold backup_opened, source_opened. wsimpl.
    rewrite lookup_insert_ne by exact Hne. exact Hp.
  - unfold backup_opened, source_opened. wsimpl. apply lookup_insert_eq.
  - unfold backup_opened, source_opened. wsimpl. lia.
Qed.

Lemma big_file_length (n : Z) : length (big_file n) = Z.to_nat n.
Proof. apply length_replicate. Qed.

(** C4, where the code departs from the specification: the storage has
    room for one byte only, so [fwrite] stores one byte of the three of
    the source; the return value of [fwrite] is not looked at, and
    [create_jit_backup] counts the backup, reports it as created and
    returns success, where an error return and no count are specified. *)
Lemma C4_short_copy_is_counted_as_backup :
  let ctx := example_ctx (λ _, None) in
  let source := "/srv/storage/a.txt" in
  let backup := "/srv/storage/.sentinelfs_backups/a.txt.1700000000.backup" in
  let w := example_world {[ source := [Byte.x41; Byte.x42; Byte.x43] ]} 1
             stats_init in
  ∃ w' : world,
    returns (λ fuel, create_jit_backup fuel ctx source w) (0, w')
    ∧ trace w'
      = [SysStat source; SysFopen source "rb"; SysFopen backup "wb";
         SysFread source sizeof_buffer; SysFwrite backup 3;
         SysFread source sizeof_buffer;
         SysFclose source; SysFclose backup]
    ∧ files w' !! source = Some [Byte.x41; Byte.x42; Byte.x43]
    ∧ files w' !! backup = Some [Byte.x41]
    ∧ backups_created (stats w') = 1
    ∧ stderr w' = [JitBackupCreated source backup]
    ∧ open_fds w' = 0%nat.
Proof.
  intros ctx source backup w. eexists. split.
  - exists 2%nat. intros fuel Hfuel.
    destruct fuel as [|[|fuel]]; [lia|lia|]. vm_compute. reflexivity.
  - vm_compute. repeat split.
Qed.

(** C8: on an existing file of exactly [JIT_BACKUP_MAX_SIZE] bytes (50
    MiB) [create_jit_backup] makes the copy (the file can be read, the
    backup file can be written and is another file, the storage has room:
    the backup file then holds the contents of the source, and the backup
    is counted and reported); on a file of [JIT_BACKUP_MAX_SIZE + 1] bytes
    or more it prints the diagnostic and returns 0 and does nothing else
    than the [stat]. *)
Theorem C8_backup_size_cap (ctx : sentinelfs_context_t) (p : string)
    (w : world) (data : list byte)
    (Hfile : files w !! p = Some data) :
  let backup := get_backup_path ctx p w in
  (Z.of_nat (length data) = JIT_BACKUP_MAX_SIZE →
   p ∉ denied w → backup ∉ denied w → backup ≠ p →
   (length data ≤ space w)%nat →
   ∃ w' : world,
     returns (λ fuel, create_jit_backup fuel ctx p w) (0, w')
     ∧ files w' !! backup = Some data
     ∧ files w' !! p = Some data
     ∧ backups_created (stats w') = wrap64 (backups_created (stats w) + 1)
     ∧ stderr w' = stderr w ++ [JitBackupCreated p backup])
  ∧ (JIT_BACKUP_MAX_SIZE + 1 ≤ Z.of_nat (length data) →
     ∃ w' : world,
       returns (λ fuel, create_jit_backup fuel ctx p w) (0, w')
       ∧ files w' = files w
       ∧ stats w' = stats w
       ∧ stderr w' = stderr w ++ [SkippingBackup p]
       ∧ trace w' = trace w ++ [SysStat p]
       ∧ open_fds w' = open_fds w).
Proof.
  intros backup. split.
  - intros Hsize Hsrc Hdst Hne Hroom.
    destruct (create_jit_backup_copies ctx p w data Hfile) as (w' & H);
      try assumption; [lia|].
    exists w'. tauto.
  - intros Hsize. exists (eprint (SkippingBackup p) (sys (SysStat p) w)).
    split; [|now repeat split].
    apply returns_const. intros fuel.
    apply (create_jit_backup_too_large ctx p w data); [exact Hfile|lia].
Qed.

(** A file of 50 MiB, and one of 50 MiB and one byte. *)
Lemma C8_backup_size_cap_witness :
  let ctx := example_ctx (λ _, None) in
  let p := "/srv/storage/disk.img" in
  let at_cap := example_world {[ p := big_file JIT_BACKUP_MAX_SIZE ]}
                  (Z.to_nat JIT_BACKUP_MAX_SIZE) stats_init in
  let over_cap := example_world {[ p := big_file (JIT_BACKUP_MAX_SIZE + 1) ]}
                    (Z.to_nat JIT_BACKUP_MAX_SIZE) stats_init in
  (∃ w' : world,
     returns (λ fuel, create_jit_backup fuel ctx p at_cap) (0, w')
     ∧ files w' !! get_backup_path ctx p at_cap
       = Some (big_file JIT_BACKUP_MAX_SIZE)
     ∧ files w' !! p = Some (big_file JIT_BACKUP_MAX_SIZE)
     ∧ backups_created (stats w') = wrap64 (backups_created (stats at_cap) + 1)
     ∧ stderr w'
       = stderr at_cap ++ [JitBackupCreated p (get_backup_path ctx p at_cap)])
  ∧ (∃ w' : world,
       returns (λ fuel, create_jit_backup fuel ctx p over_cap) (0, w')
       ∧ files w' = files over_cap
       ∧ stats w' = stats over_cap
       ∧ stderr w' = stderr over_cap ++ [SkippingBackup p]
       ∧ trace w' = trace over_cap ++ [SysStat p]
       ∧ open_fds w' = open_fds over_cap).
Proof.
  intros ctx p at_cap over_cap.
  assert (Hcap : 0 ≤ JIT_BACKUP_MAX_SIZE) by (unfold JIT_BACKUP_MAX_SIZE; lia).
  split.
  - refine (proj1 (C8_backup_size_cap ctx p at_cap
                     (big_file JIT_BACKUP_MAX_SIZE) _) _ _ _ _ _).
    + apply lookup_singleton_eq.
    + rewrite big_file_length. apply Z2Nat.id. exact Hcap.
    + apply not_elem_of_empty.
    + apply not_elem_of_empty.
    + rewrite (get_backup_path_clock ctx p at_cap (example_world ∅ 0 stats_init))
        by reflexivity.
      vm_compute. intros H. discriminate H.
    + rewrite big_file_length. unfold at_cap, example_world. cbn [space].
      apply Nat.le_refl.
  - refine (proj2 (C8_backup_size_cap ctx p over_cap
                     (big_file (JIT_BACKUP_MAX_SIZE + 1)) _) _).
    + apply lookup_singleton_eq.
    + rewrite big_file_length. rewrite Z2Nat.id by lia. apply Z.le_refl.
Defined.

(** ** Counters *)


(** ** Blocked writes and missing files *)

(** X22: a write that the gate blocks returns [-EIO]. After the backup
    phase (which issues no [open] or [pwrite], closes what it opens and
    writes to the backup file only) nothing happens to the files: no call
    at all follows the blocking decision, in particular no [open] and no
    [pwrite] on the concrete path. So the target file is as the backup
    phase left it, which is as it was before the write when the backup
    path is another path; at a non-zero offset no file at all changes. *)
Theorem X22_blocked_write_stops_at_the_decision (ctx : sentinelfs_context_t)
    (path : string) (buf : list byte) (offset : Z) (w : world)
    (Hblock : fst (detect_ransomware ctx buf w) ≠ 0) :
  let full_path := translate_path ctx path in
  ∃ (w1 w' : world),
    returns (λ fuel, write_backup_phase fuel ctx full_path offset w) w1
    ∧ returns (λ fuel, sentinelfs_write fuel ctx path buf offset w) (- EIO, w')
    ∧ files w' = files w1
    ∧ trace w' = trace w1
    ∧ open_fds w' = open_fds w
    ∧ (∃ t : list syscall,
         trace w' = trace w ++ t ∧ Forall (λ c, payload_call c = false) t)
    ∧ (offset ≠ 0 → files w' = files w)
    ∧ (get_backup_path ctx full_path w ≠ full_path →
       files w' !! full_path = files w !! full_path).
Proof.
  intros full_path.
  destruct (write_backup_phase_returns ctx full_path offset w)
    as (w1 & Hret1 & (Ht & Hb & Hd & Hc & Hf & t & Htr & Hall) & Hfd & Hoff).
  exists w1, (snd (detect_ransomware ctx buf w1)).
  rewrite (detect_ransomware_value ctx buf w w1) in Hblock.
  destruct (detect_ransomware_frame ctx buf w1)
    as (Hfiles & _ & _ & _ & Hfds & Htrace & _).
  split; [exact Hret1|]. split.
  { destruct Hret1 as [fuel0 Hret1]. exists fuel0. intros fuel Hfuel.
    unfold sentinelfs_write. fold full_path. rewrite (Hret1 fuel Hfuel).
    destruct (detect_ransomware_cases ctx buf w1)
      as [(_ & Hd0)|[(_ & _ & Hd0)|(_ & _ & Hd0)]];
      rewrite Hd0 in *; simpl in Hblock; try congruence.
    reflexivity. }
  split; [exact Hfiles|]. split; [exact Htrace|].
  split; [congruence|]. split; [exists t; split; [congruence|exact Hall]|].
  split.
  - intros Hne. rewrite Hfiles. now rewrite (Hoff Hne).
  - intros Hne. rewrite Hfiles. apply Hf. congruence.
Qed.

(** *** The error of a failed lookup *)

Lemma string_app_nil_r (a : string) : a +:+ "" = a.
Proof.
  induction a as [|c a IH]; [reflexivity|].
  transitivity (String c (a +:+ "")); [reflexivity|]. now rewrite IH.
Qed.

Lemma path_components_from_cons (current path : string) :
  ∃ (name : string) (rest : list string),
    path_components_from current path = name :: rest.
Proof.
  revert current. induction path as [|c path IH]; intros current; simpl.
  - now exists current, [].
  - destruct (Ascii.eqb c "/"); [now eexists _, _|apply IH].
Qed.

(** The components, joined by slashes, are the path. *)
Lemma join_path_components_from (current path : string) :
  join_path (path_components_from current path) = current +:+ path.
Proof.
  revert current. induction path as [|c path IH]; intros current.
  - simpl. now rewrite string_app_nil_r.
  - simpl path_components_from. destruct (Ascii.eqb_spec c "/") as [->|Hne].
    + destruct (path_components_from_cons "" path) as (name & rest & Hc).
      simpl join_path. pose proof (IH "") as Hj. rewrite Hc in *.
      rewrite Hj. reflexivity.
    + rewrite IH, string_app_assoc. reflexivity.
Qed.

Lemma walk_errno_cases (fs : gmap string (list byte)) (here : string)
    (names : list string) :
  walk_errno fs here names = ENOENT ∨ walk_errno fs here names = ENOTDIR
  ∨ walk_errno fs here names = ENAMETOOLONG.
Proof.
  revert here. induction names as [|name rest IH]; intros here; simpl; [now left|].
  destruct (NAME_MAX <? String.length name)%nat; [now right; right|].
  destruct rest as [|next rest]; [now left|].
  destruct (decide _); [now right; left|apply IH].
Qed.

(** [ENOTDIR]: the walk stopped at a component that is a regular file,
    with components left. *)
Lemma walk_errno_ENOTDIR (fs : gmap string (list byte)) (here : string)
    (names : list string) :
  walk_errno fs here names = ENOTDIR →
  ∃ d rest : string,
    here +:+ join_path names = d +:+ "/" +:+ rest ∧ is_Some (fs !! d).
Proof.
  revert here. induction names as [|name rest IH]; intros here; simpl;
    [discriminate|].
  destruct (NAME_MAX <? String.length name)%nat; [discriminate|].
  destruct rest as [|next rest]; [discriminate|].
  destruct (decide _) as [Hfile|_].
  - intros _. exists (here +:+ name), (join_path (next :: rest)).
    split; [|exact Hfile]. now rewrite !string_app_assoc.
  - intros H. destruct (IH _ H) as (d & r & Heq & Hd). exists d, r.
    split; [|exact Hd]. rewrite <- Heq. now rewrite !string_app_assoc.
Qed.

(** [ENAMETOOLONG]: one of the components is too long. *)
Lemma walk_errno_ENAMETOOLONG (fs : gmap string (list byte)) (here : string)
    (names : list string) :
  walk_errno fs here names = ENAMETOOLONG →
  ∃ name : string, name ∈ names ∧ (NAME_MAX < String.length name)%nat.
Proof.
  revert here. induction names as [|name rest IH]; intros here; simpl;
    [discriminate|].
  destruct (NAME_MAX <? String.length name)%nat eqn:Hlong.
  - intros _. exists name. split; [apply elem_of_cons; now left|].
    now apply Nat.ltb_lt.
  - destruct rest as [|next rest]; [discriminate|].
    destruct (decide _); [discriminate|]. intros H.
    destruct (IH _ H) as (long & Hin & Hn). exists long.
    split; [apply elem_of_cons; now right|exact Hn].
Qed.

(** The components of a path that continues after a slash. *)
Lemma path_components_from_app (current a b : string) :
  path_components_from current (a +:+ "/" +:+ b)
  = path_components_from current a ++ path_components_from "" b.
Proof.
  revert current. induction a as [|c a IH]; intros current.
  - reflexivity.
  - change (String c a +:+ "/" +:+ b) with (String c (a +:+ "/" +:+ b)).
    simpl path_components_from. destruct (Ascii.eqb c "/"); rewrite IH; reflexivity.
Qed.

(** A component that is too long is found, unless the walk stops before
    it at a regular file: the walk does not end with [ENOENT]. *)
Lemma walk_errno_long (fs : gmap string (list byte)) (here : string)
    (names : list string) (long : string) :
  long ∈ names → (NAME_MAX < String.length long)%nat →
  walk_errno fs here names ≠ ENOENT.
Proof.
  revert here. induction names as [|name rest IH]; intros here Hin Hlong.
  - now apply elem_of_nil in Hin.
  - simpl. destruct (NAME_MAX <? String.length name)%nat eqn:Hname;
      [discriminate|].
    apply elem_of_cons in Hin as [->|Hin].
    + apply Nat.ltb_ge in Hname. lia.
    + destruct rest as [|next rest]; [now apply elem_of_nil in Hin|].
      destruct (decide _); [discriminate|]. now apply IH.
Qed.

(** A regular file on the way, with components left after it, stops the
    walk. *)
Lemma walk_errno_file (fs : gmap string (list byte)) (here : string)
    (before after : list string) :
  before ≠ [] → after ≠ [] → is_Some (fs !! (here +:+ join_path before)) →
  walk_errno fs here (before ++ after) ≠ ENOENT.
Proof.
  revert here. induction before as [|name before IH]; intros here Hb Ha Hfile;
    [congruence|].
  simpl app. simpl walk_errno.
  destruct (NAME_MAX <? String.length name)%nat; [discriminate|].
  destruct before as [|next before].
  - simpl app. destruct after as [|a after]; [congruence|].
    simpl in Hfile. destruct (decide _); [discriminate|contradiction].
  - change ((next :: before) ++ after) with (next :: (before ++ after)).
    destruct (decide _); [discriminate|].
    change (next :: (before ++ after)) with ((next :: before) ++ after).
    apply IH; [discriminate|exact Ha|].
    change (join_path (name :: next :: before))
      with (name +:+ "/" +:+ join_path (next :: before)) in Hfile.
    now rewrite !string_app_assoc in *.
Qed.

(** What a failed lookup reports. *)
Lemma lookup_errno_spec (fs : gmap string (list byte)) (path : string) :
  let errno := lookup_errno fs path in
  (errno = ENOENT ∨ errno = ENOTDIR ∨ errno = ENAMETOOLONG)
  ∧ (errno = ENOTDIR → below_a_file fs path)
  ∧ (errno = ENAMETOOLONG →
     (PATH_MAX ≤ String.length path)%nat ∨ has_long_component path)
  ∧ (errno = ENOENT → ¬ below_a_file fs path ∧ ¬ has_long_component path).
Proof.
  unfold lookup_errno. destruct (PATH_MAX <=? String.length path)%nat eqn:Hlen.
  - cbv zeta. split; [now right; right|]. split; [discriminate|].
    split; [|discriminate]. intros _. left. now apply Nat.leb_le.
  - cbv zeta. split; [apply walk_errno_cases|]. split; [|split].
    + intros H. apply walk_errno_ENOTDIR in H as (d & rest & Heq & Hd).
      unfold path_components in Heq. rewrite join_path_components_from in Heq.
      exists d, rest. split; [exact Heq|exact Hd].
    + intros H. right. now apply walk_errno_ENAMETOOLONG in H.
    + intros H. split.
      * intros (d & rest & -> & Hd). revert H. unfold path_components.
        rewrite path_components_from_app.
        destruct (path_components_from_cons "" d) as (n1 & r1 & H1).
        destruct (path_components_from_cons "" rest) as (n2 & r2 & H2).
        apply walk_errno_file.
        -- rewrite H1. discriminate.
        -- rewrite H2. discriminate.
        -- now rewrite join_path_components_from.
      * intros (long & Hin & Hlong). revert H. now apply (walk_errno_long _ _ _ long).
Qed.

(** C10, amended: a write whose payload passes the gate, on a concrete
    path that names no file, returns the negated [errno] of the failed
    [open] and creates no file: after the [stat] of the backup phase (at
    offset 0) the only call is the [open], which fails; the files are as
    they were. The [errno] is [ENOENT] exactly when the path neither lies
    below a regular file nor has a component of more than [NAME_MAX]
    bytes; it is [ENOTDIR] or [ENAMETOOLONG] otherwise, the first for a
    path below a regular file only, the second for a path with such a
    component only. The file comes into being through
    [sentinelfs_create] only, which makes it empty. *)
Theorem C10_write_never_creates_its_target (ctx : sentinelfs_context_t)
    (path : string) (buf : list byte) (offset : Z) (w : world)
    (Hpass : fst (detect_ransomware ctx buf w) = 0)
    (Hmissing : files w !! translate_path ctx path = None) :
  let full_path := translate_path ctx path in
  let errno := lookup_errno (files w) full_path in
  (∃ w' : world,
     (∀ fuel, sentinelfs_write fuel ctx path buf offset w = Some (- errno, w'))
     ∧ files w' = files w
     ∧ open_fds w' = open_fds w
     ∧ trace w'
       = trace w ++ (if offset =? 0 then [SysStat full_path] else [])
           ++ [SysOpen full_path])
  ∧ (errno = ENOENT ∨ errno = ENOTDIR ∨ errno = ENAMETOOLONG)
  ∧ (errno = ENOENT ↔
     ¬ below_a_file (files w) full_path ∧ ¬ has_long_component full_path)
  ∧ (errno = ENOTDIR → below_a_file (files w) full_path)
  ∧ (errno = ENAMETOOLONG → has_long_component full_path)
  ∧ (full_path ∉ denied w →
     fst (sentinelfs_create ctx path w) = 0
     ∧ files (snd (sentinelfs_create ctx path w)) !! full_path = Some []).
Proof.
  intros full_path errno.
  destruct (lookup_errno_spec (files w) full_path)
    as (Hcases & Hnotdir & Hlong' & Hnoent).
  fold errno in Hcases, Hnotdir, Hlong', Hnoent.
  assert (Hlong : errno = ENAMETOOLONG → has_long_component full_path).
  { intros He. destruct (Hlong' He) as [Hlen|H]; [|exact H]. exfalso.
    pose proof (snprintf_length MAX_PATH (storage_path ctx +:+ path)) as Hs.
    unfold full_path, translate_path, PATH_MAX, MAX_PATH in *. lia. }
  split; [|split; [exact Hcases|split; [|split; [exact Hnotdir|split; [exact Hlong|]]]]].
  2:{ split; [exact Hnoent|]. intros [Hnf Hnl].
      destruct Hcases as [H|[H|H]]; [exact H| |].
      - exfalso. exact (Hnf (Hnotdir H)).
      - exfalso. exact (Hnl (Hlong H)). }
  2:{ intros Hden. unfold sentinelfs_create, os_creat. fold full_path. wsimpl.
      destruct (decide (full_path ∈ denied w)); [contradiction|]. wsimpl.
      split; [reflexivity|]. apply lookup_insert_eq. }
  set (w1 := if offset =? 0 then sys (SysStat full_path) w else w).
  assert (Hw1 : files w1 = files w ∧ open_fds w1 = open_fds w
                   ∧ trace w1 = trace w
                       ++ (if offset =? 0 then [SysStat full_path] else [])).
    { unfold w1. destruct (offset =? 0); wsimpl; [now repeat split|].
      now rewrite app_nil_r. }
    destruct Hw1 as (Hf1 & Hfd1 & Htr1).
    rewrite (detect_ransomware_value ctx buf w w1) in Hpass.
    destruct (detect_ransomware_frame ctx buf w1)
      as (Hfiles & _ & _ & _ & Hfds & Htrace & _).
    destruct (detect_ransomware ctx buf w1) as [d wd] eqn:Hdet.
    simpl in Hpass, Hfiles, Hfds, Htrace. subst d.
    exists (sys (SysOpen full_path) wd). split.
    + intros fuel. unfold sentinelfs_write. fold full_path.
      rewrite write_backup_phase_missing by exact Hmissing. fold w1.
      rewrite Hdet. simpl negb. cbv iota. unfold os_open_wronly. wsimpl.
      rewrite Hfiles, Hf1. fold full_path in Hmissing. now rewrite Hmissing.
    + wsimpl. rewrite Hfiles, Hfds, Htrace, Htr1, <- app_assoc. now repeat split.
Qed.

(** * Further properties of the code *)

(** ** Entropy: order of the bytes, short buffers, distinct bytes *)

Lemma occurrences_Permutation (v : nat) (b b' : list byte) :
  b ≡ₚ b' → occurrences v b = occurrences v b'.
Proof. intros H. unfold occurrences. now rewrite H. Qed.

Lemma shannon_entropy_Permutation (b b' : list byte) :
  b ≡ₚ b' → shannon_entropy b = shannon_entropy b'.
Proof.
  intros H. unfold shannon_entropy. rewrite (Permutation_length H).
  replace ((λ v, occurrences v b) <$> seq 0 256)
    with ((λ v, occurrences v b') <$> seq 0 256); [reflexivity|].
  apply list_fmap_ext. intros i v _. symmetry. now apply occurrences_Permutation.
Qed.

(** X1: [calculate_entropy] does not depend on the order of the bytes:
    two buffers that are permutations of each other have the same
    entropy. *)
Theorem X1_entropy_of_a_permutation (b b' : list byte)
    (Hlen : Z.of_nat (length b) < 2 ^ 64)
    (Hperm : b ≡ₚ b') :
  calculate_entropy b = calculate_entropy b'.
Proof.
  assert (Hlen' : Z.of_nat (length b') < 2 ^ 64)
    by (rewrite <- (Permutation_length Hperm); exact Hlen).
  unfold calculate_entropy. rewrite !count_bytes_spec by assumption.
  rewrite (Permutation_length Hperm).
  replace ((λ v, Z.of_nat (occurrences v b)) <$> seq 0 256)
    with ((λ v, Z.of_nat (occurrences v b')) <$> seq 0 256); [reflexivity|].
  apply list_fmap_ext. intros i v _. f_equal. symmetry.
  now apply occurrences_Permutation.
Qed.

(** A count of at least one contributes at most its share of [log2 len]. *)
Lemma entropy_term_log_bound (len c : nat) :
  (0 < len)%nat → (0 < c)%nat →
  (- entropy_term len c <= INR c / INR len * log2 (INR len))%R.
Proof.
  intros Hlen Hc. pose proof (lt_0_INR _ Hlen) as Hn.
  pose proof (lt_0_INR _ Hc) as Hc0. pose proof ln2_pos as H2.
  assert (Hc1 : (1 <= INR c)%R) by (apply (le_INR 1); lia).
  pose proof (ln_ge_1 _ Hc1) as Hln.
  unfold entropy_term, log2.
  replace (INR c / INR len)%R with (INR c * / INR len)%R by reflexivity.
  rewrite ln_mult, ln_Rinv by (try apply Rinv_0_lt_compat; lra).
  assert (Hp : (0 < INR c * / INR len)%R)
    by (apply Rmult_lt_0_compat; [lra|now apply Rinv_0_lt_compat]).
  assert (Hq : (0 <= ln (INR c) / ln 2)%R)
    by (apply Rmult_le_pos; [lra|left; now apply Rinv_0_lt_compat]).
  replace ((ln (INR c) + - ln (INR len)) / ln 2)%R
    with (ln (INR c) / ln 2 - ln (INR len) / ln 2)%R by (field; lra).
  nra.
Qed.

Lemma entropy_sum_log_bound (len : nat) (counts : list nat) :
  (0 < len)%nat →
  (- Rsum (entropy_term len <$> filter (λ c, (0 < c)%nat) counts)
   <= INR (sum_list counts) / INR len * log2 (INR len))%R.
Proof.
  intros Hlen. pose proof (lt_0_INR _ Hlen) as Hn.
  induction counts as [|c counts IH].
  - unfold Rsum. simpl. lra.
  - rewrite filter_cons.
    change (sum_list (c :: counts)) with (c + sum_list counts)%nat.
    rewrite plus_INR.
    replace ((INR c + INR (sum_list counts)) / INR len * log2 (INR len))%R
      with (INR c / INR len * log2 (INR len)
            + INR (sum_list counts) / INR len * log2 (INR len))%R
      by (field; lra).
    destruct (decide (0 < c)%nat) as [Hc|Hc].
    + rewrite fmap_cons. unfold Rsum in *. simpl foldr.
      pose proof (entropy_term_log_bound len c Hlen Hc). lra.
    + assert (c = 0%nat) as -> by lia. simpl INR.
      replace (0 / INR len * log2 (INR len))%R with 0%R by (field; lra). lra.
Qed.

Lemma shannon_entropy_log_bound (b : list byte) :
  b ≠ [] → (shannon_entropy b <= log2 (INR (length b)))%R.
Proof.
  intros Hne.
  assert (Hpos : (0 < length b)%nat) by (destruct b; [congruence|simpl; lia]).
  unfold shannon_entropy.
  pose proof (entropy_sum_log_bound (length b)
                ((λ v, occurrences v b) <$> seq 0 256) Hpos) as H.
  rewrite sum_occurrences in H. pose proof (lt_0_INR _ Hpos).
  replace (INR (length b) / INR (length b) * log2 (INR (length b)))%R
    with (log2 (INR (length b))) in H by (field; lra).
  exact H.
Qed.

(** X2: the entropy that [calculate_entropy] returns for a non-empty
    buffer is at most the base-2 logarithm of its length, up to the
    rounding of the computation ([2^-37]), when the [log2] of the C
    library is accurate to [2^-50]. *)
Theorem X2_entropy_le_log2_length_rounded (b : list byte)
    (Hacc : log2_accurate libm_log2)
    (Hlen : Z.of_nat (length b) < 2 ^ 64)
    (Hne : b ≠ []) :
  (calculate_entropy b <= log2 (INR (length b)) + entropy_tolerance)%R.
Proof.
  destruct (calculate_entropy_rounded b Hacc Hlen) as [_ H].
  apply Rabs_le_between in H.
  pose proof (shannon_entropy_log_bound b Hne). lra.
Qed.

Lemma ln2_lt_1 : (ln 2 < 1)%R.
Proof.
  rewrite <- (ln_exp 1). apply ln_increasing; [lra|].
  pose proof (exp_ineq1 1). lra.
Qed.

(** [181^2 = 32761] is below [2^15 = 32768] by more than rounding can
    make up for. *)
Lemma log2_181 : (log2 181 + entropy_tolerance < 7.5)%R.
Proof.
  unfold log2. pose proof ln2_pos as H2. pose proof ln2_lt_1 as H1.
  pose proof entropy_tolerance_bounds as [_ Ht].
  assert (Hy : (0 < 32761 / 32768)%R) by lra.
  pose proof (ln_le_pred _ Hy) as H. unfold Rdiv in H.
  rewrite ln_mult, ln_Rinv in H by lra.
  replace 32761%R with (181 ^ 2)%R in H by (simpl; ring).
  replace 32768%R with (2 ^ 15)%R in H at 1 by (simpl; ring).
  rewrite !ln_pow in H by lra. simpl INR in H.
  assert (Hln : (2 * ln 181 <= 15 * ln 2 - 7 / 32768)%R) by lra.
  assert (Hq : (ln 181 / ln 2 <= 7.5 - 7 / 65536)%R).
  { apply Rmult_le_reg_r with (ln 2); [exact H2|].
    replace (ln 181 / ln 2 * ln 2)%R with (ln 181) by (field; lra). nra. }
  assert (/ 2 ^ 20 < 7 / 65536)%R.
  { replace (7 / 65536)%R with (/ (65536 / 7))%R by field.
    apply Rinv_lt_contravar; simpl; lra. }
  lra.
Qed.

(** A buffer of at most 181 bytes has entropy below 7.5. *)
Lemma short_buffer_entropy (b : list byte) :
  log2_accurate libm_log2 →
  (length b ≤ 181)%nat → (calculate_entropy b < ENTROPY_THRESHOLD)%R.
Proof.
  intros Hacc Hshort. unfold ENTROPY_THRESHOLD. destruct b as [|x b].
  - unfold calculate_entropy. simpl. lra.
  - set (buf := x :: b) in *.
    assert (Hpos : (0 < length buf)%nat) by (simpl; lia).
    destruct (calculate_entropy_rounded buf Hacc) as [_ H]; [lia|].
    apply Rabs_le_between in H.
    pose proof (shannon_entropy_log_bound buf) as Hlog.
    assert (Hl : (log2 (INR (length buf)) <= log2 181)%R).
    { apply log2_le; [now apply lt_0_INR|].
      replace 181%R with (INR 181) by (rewrite INR_IZR_INZ; reflexivity).
      now apply le_INR. }
    pose proof log2_181. specialize (Hlog ltac:(discriminate)). lra.
Qed.

(** X3: a buffer of at most 181 bytes is never blocked, whatever its
    bytes and whatever the classifier says: the entropy of so few bytes
    is below the threshold, by more than the rounding of the computation
    (for a [log2] of the C library that is accurate to [2^-50]).
    [detect_ransomware] returns 0 and leaves [blocked_writes] as it
    was. *)
Theorem X3_short_writes_are_never_blocked (ctx : sentinelfs_context_t)
    (buf : list byte) (w : world)
    (Hacc : log2_accurate libm_log2)
    (Hshort : (length buf ≤ 181)%nat) :
  fst (detect_ransomware ctx buf w) = 0
  ∧ blocked_writes (stats (snd (detect_ransomware ctx buf w)))
    = blocked_writes (stats w).
Proof.
  pose proof (short_buffer_entropy buf Hacc Hshort) as Hlow.
  destruct (is_whitelisted_file_world ctx buf
              (set_stats (incr_total_writes (stats w)) w)) as [Hw|Hw];
    destruct (detect_ransomware_cases ctx buf w)
      as [(_ & ->)|[(_ & Hhigh & _)|(_ & _ & ->)]];
    try (exfalso; lra); rewrite Hw; wsimpl; now split.
Qed.

Lemma byte_index_inj (x y : byte) :
  N.to_nat (Byte.to_N x) = N.to_nat (Byte.to_N y) → x = y.
Proof.
  intros H. apply N2Nat.inj in H.
  pose proof (Byte.of_to_N x) as Hx. rewrite H, Byte.of_to_N in Hx. congruence.
Qed.

Lemma occurrences_absent (x : byte) (b : list byte) :
  x ∉ b → occurrences (N.to_nat (Byte.to_N x)) b = 0%nat.
Proof.
  induction b as [|y b IH]; intros Hx; [reflexivity|].
  rewrite occurrences_cons. apply not_elem_of_cons in Hx as [Hne Hx].
  destruct (decide _) as [He|_]; [|now apply IH].
  apply byte_index_inj in He. congruence.
Qed.

(** In a buffer of pairwise distinct bytes every count is 0 or 1. *)
Lemma occurrences_NoDup (v : nat) (b : list byte) :
  NoDup b → (occurrences v b ≤ 1)%nat.
Proof.
  induction 1 as [|x b Hx Hnd IH]; [unfold occurrences; simpl; lia|].
  rewrite occurrences_cons. destruct (decide _) as [<-|_]; [|exact IH].
  rewrite occurrences_absent by exact Hx. lia.
Qed.

Lemma positive_counts_of_bits (counts : list nat) :
  (∀ c, c ∈ counts → (c ≤ 1)%nat) →
  length (filter (λ c, (0 < c)%nat) counts) = sum_list counts
  ∧ ∀ c, c ∈ filter (λ c, (0 < c)%nat) counts → c = 1%nat.
Proof.
  induction counts as [|c counts IH]; intros H.
  - split; [reflexivity|]. intros c Hc. now apply elem_of_nil in Hc.
  - destruct IH as [IHl IHc].
    { intros c' Hc'. apply H, elem_of_cons. now right. }
    assert (Hc : (c ≤ 1)%nat) by (apply H, elem_of_cons; now left).
    rewrite filter_cons. destruct (decide (0 < c)%nat) as [Hpos|Hzero].
    + assert (c = 1%nat) as -> by lia. split; [simpl; now rewrite IHl|].
      intros c' Hc'. apply elem_of_cons in Hc' as [->|Hc']; [reflexivity|].
      now apply IHc.
    + assert (c = 0%nat) as -> by lia. split; [exact IHl|exact IHc].
Qed.

Lemma Rsum_const (a : R) (l : list R) :
  (∀ r, r ∈ l → r = a) → Rsum l = (INR (length l) * a)%R.
Proof.
  induction l as [|r l IH]; intros H.
  - unfold Rsum. simpl. ring.
  - change (length (r :: l)) with (S (length l)). rewrite S_INR.
    unfold Rsum in *. simpl foldr. rewrite IH, (H r).
    + ring.
    + apply elem_of_cons. now left.
    + intros r' Hr'. apply H, elem_of_cons. now right.
Qed.

Lemma shannon_entropy_NoDup (b : list byte) :
  NoDup b → b ≠ [] → shannon_entropy b = log2 (INR (length b)).
Proof.
  intros Hnd Hne.
  assert (Hpos : (0 < length b)%nat) by (destruct b; [congruence|simpl; lia]).
  pose proof (lt_0_INR _ Hpos) as Hn. pose proof ln2_pos as H2.
  destruct (positive_counts_of_bits ((λ v, occurrences v b) <$> seq 0 256))
    as [Hlen Hone].
  { intros c Hc. apply list_elem_of_fmap in Hc as (v & -> & _).
    now apply occurrences_NoDup. }
  rewrite sum_occurrences in Hlen. unfold shannon_entropy.
  rewrite (Rsum_const (1 / INR (length b) * log2 (1 / INR (length b)))).
  - rewrite length_fmap, Hlen. unfold log2.
    replace (1 / INR (length b))%R with (/ INR (length b))%R by (field; lra).
    rewrite ln_Rinv by lra. field. lra.
  - intros r Hr. apply list_elem_of_fmap in Hr as (c & -> & Hc).
    now rewrite (Hone c Hc).
Qed.

(** Pairwise distinct bytes are at most 256. *)
Lemma NoDup_length_byte (b : list byte) : NoDup b → (length b ≤ 256)%nat.
Proof.
  intros Hnd. rewrite <- sum_occurrences.
  assert (H : ∀ l : list nat,
             (sum_list ((λ v, occurrences v b) <$> l) ≤ length l)%nat).
  { induction l as [|v l IH]; csimpl; [lia|].
    pose proof (occurrences_NoDup v b Hnd). lia. }
  specialize (H (seq 0 256)). now rewrite length_seq in H.
Qed.

(** X4: for a non-empty buffer of [n] pairwise distinct bytes
    [calculate_entropy] returns [log2 n], the largest entropy a buffer of
    [n] bytes can have, up to the rounding of the computation ([2^-37]),
    when the [log2] of the C library is accurate to [2^-50]. *)
Theorem X4_entropy_of_distinct_bytes_rounded (b : list byte)
    (Hacc : log2_accurate libm_log2)
    (Hnd : NoDup b) (Hne : b ≠ []) :
  (Rabs (calculate_entropy b - log2 (INR (length b))) <= entropy_tolerance)%R.
Proof.
  pose proof (NoDup_length_byte b Hnd) as H256.
  rewrite <- (shannon_entropy_NoDup b Hnd Hne).
  apply calculate_entropy_rounded; [exact Hacc|lia].
Qed.

Lemma all_bytes_NoDup : NoDup all_bytes.
Proof. apply (bool_decide_unpack _). vm_compute. reflexivity. Qed.

(** [182^2 = 33124] is above [2^15 = 32768] by more than rounding can
    take away. *)
Lemma log2_182 : (7.5 + entropy_tolerance < log2 182)%R.
Proof.
  unfold log2. pose proof ln2_pos as H2. pose proof ln2_lt_1 as H1.
  pose proof entropy_tolerance_bounds as [_ Ht].
  assert (Hy : (0 < 32768 / 33124)%R) by lra.
  pose proof (ln_le_pred _ Hy) as H. unfold Rdiv in H.
  rewrite ln_mult, ln_Rinv in H by lra.
  replace 33124%R with (182 ^ 2)%R in H at 1 by (simpl; ring).
  replace 32768%R with (2 ^ 15)%R in H at 1 by (simpl; ring).
  rewrite !ln_pow in H by lra. simpl INR in H.
  assert (Hln : (15 * ln 2 + 356 / 33124 <= 2 * ln 182)%R) by lra.
  assert (Hq : (7.5 + 178 / 33124 <= ln 182 / ln 2)%R).
  { apply Rmult_le_reg_r with (ln 2); [exact H2|].
    replace (ln 182 / ln 2 * ln 2)%R with (ln 182) by (field; lra). nra. }
  assert (/ 2 ^ 20 < 178 / 33124)%R.
  { replace (178 / 33124)%R with (/ (33124 / 178))%R by field.
    apply Rinv_lt_contravar; simpl; lra. }
  lra.
Qed.

(** X5: the bound of 181 bytes is sharp: a buffer of 182 or more pairwise
    distinct bytes that is not on the safe-list is blocked (for a [log2]
    of the C library that is accurate to [2^-50]). *)
Theorem X5_distinct_bytes_are_blocked_from_182 (ctx : sentinelfs_context_t)
    (buf : list byte) (w : world)
    (Hacc : log2_accurate libm_log2)
    (Hnd : NoDup buf)
    (Hlong : (182 ≤ length buf)%nat)
    (Hunsafe : fst (is_whitelisted_file ctx buf w) = 0) :
  fst (detect_ransomware ctx buf w) = - EIO.
Proof.
  assert (Hne : buf ≠ []) by (intros ->; simpl in Hlong; lia).
  pose proof (NoDup_length_byte buf Hnd) as H256.
  assert (Hhigh : (calculate_entropy buf > ENTROPY_THRESHOLD)%R).
  { destruct (calculate_entropy_rounded buf Hacc) as [_ H]; [lia|].
    rewrite shannon_entropy_NoDup in H by assumption.
    apply Rabs_le_between in H.
    assert (Hl : (log2 182 <= log2 (INR (length buf)))%R).
    { apply log2_le; [lra|].
      replace 182%R with (INR 182) by (rewrite INR_IZR_INZ; reflexivity).
      now apply le_INR. }
    pose proof log2_182. unfold ENTROPY_THRESHOLD. lra. }
  destruct (detect_ransomware_cases ctx buf w)
    as [(Hs & _)|[(_ & _ & ->)|(_ & Hlow & _)]];
    [contradiction|reflexivity|contradiction].
Qed.

(** ** Paths: what [translate_path] and [get_backup_path] produce *)

(** Cutting after a prefix that fits. *)
Lemma snprintf_app_l (size : nat) (a b : string) :
  (String.length a ≤ size - 1)%nat →
  snprintf size (a +:+ b)
  = a +:+ String.substring 0 (size - 1 - String.length a) b.
Proof.
  unfold snprintf. generalize (size - 1)%nat as n.
  induction a as [|x a IH]; intros n Hn.
  - simpl String.length. now rewrite Nat.sub_0_r.
  - simpl String.length in *. destruct n as [|n]; [lia|].
    change (String x (String.substring 0 n (a +:+ b))
            = String x (a +:+ String.substring 0 (S n - S (String.length a)) b)).
    rewrite IH by lia. reflexivity.
Qed.

(** Cutting before the end of a prefix. *)
Lemma snprintf_app_r (size : nat) (a b : string) :
  (size - 1 ≤ String.length a)%nat →
  snprintf size (a +:+ b) = snprintf size a.
Proof.
  unfold snprintf. generalize (size - 1)%nat as n.
  induction a as [|x a IH]; intros n Hn.
  - simpl in Hn. assert (n = 0%nat) as -> by lia. now destruct b.
  - destruct n as [|n]; [reflexivity|]. simpl String.length in Hn.
    change (String x (String.substring 0 n (a +:+ b))
            = String x (String.substring 0 n a)).
    rewrite IH by lia. reflexivity.
Qed.

(** X6: the concrete path always fits the buffer of [MAX_PATH] bytes with
    its terminator, and is a prefix of the concatenation of the storage
    path and the virtual path; it is that concatenation when it has at
    most [MAX_PATH - 1] bytes; and it begins with the storage path as soon
    as the storage path itself fits. Nothing else is done to the virtual
    path: it is copied as it is. *)
Theorem X6_translate_path_is_a_bounded_prefix (ctx : sentinelfs_context_t)
    (path : string) :
  (String.length (translate_path ctx path) ≤ MAX_PATH - 1)%nat
  ∧ starts_with (translate_path ctx path) (storage_path ctx +:+ path)
  ∧ ((String.length (storage_path ctx +:+ path) ≤ MAX_PATH - 1)%nat →
     translate_path ctx path = storage_path ctx +:+ path)
  ∧ ((String.length (storage_path ctx) ≤ MAX_PATH - 1)%nat →
     starts_with (storage_path ctx) (translate_path ctx path)).
Proof.
  unfold translate_path. split; [rewrite snprintf_length; lia|].
  split.
  { destruct (snprintf_prefix MAX_PATH (storage_path ctx +:+ path))
      as (rest & Hr & _). now exists rest. }
  split; [apply snprintf_fits|].
  intros Hfit. rewrite snprintf_app_l by exact Hfit. now eexists.
Qed.

(** X7: two virtual paths that both fit (storage path and virtual path
    together have fewer than [MAX_PATH] bytes) and differ are translated
    to different concrete paths. *)
Theorem X7_translate_path_is_injective_on_paths_that_fit
    (ctx : sentinelfs_context_t) (p1 p2 : string)
    (H1 : (String.length (storage_path ctx +:+ p1) < MAX_PATH)%nat)
    (H2 : (String.length (storage_path ctx +:+ p2) < MAX_PATH)%nat)
    (Hne : p1 ≠ p2) :
  translate_path ctx p1 ≠ translate_path ctx p2.
Proof.
  unfold translate_path. rewrite !snprintf_fits by lia.
  intros H. apply Hne. now apply (String.app_inj (storage_path ctx)).
Qed.

(** Two files of the storage. *)
Lemma X7_translate_path_is_injective_on_paths_that_fit_witness :
  translate_path (example_ctx (λ _, None)) "/a.txt"
  ≠ translate_path (example_ctx (λ _, None)) "/b.txt".
Proof.
  apply X7_translate_path_is_injective_on_paths_that_fit;
    [apply Nat.ltb_lt; vm_compute; reflexivity
    |apply Nat.ltb_lt; vm_compute; reflexivity
    |discriminate].
Defined.

(** X8: once storage path and virtual path together reach [MAX_PATH - 1]
    bytes, what follows in the virtual path is ignored: [p] and [p +:+ s]
    are the same concrete path, and a write to one is a write to the
    other. *)
Theorem X8_long_paths_are_aliases (ctx : sentinelfs_context_t) (p s : string)
    (Hlong : (MAX_PATH - 1 ≤ String.length (storage_path ctx +:+ p))%nat) :
  translate_path ctx (p +:+ s) = translate_path ctx p
  ∧ ∀ (fuel : nat) (buf : list byte) (offset : Z) (w : world),
      sentinelfs_write fuel ctx (p +:+ s) buf offset w
      = sentinelfs_write fuel ctx p buf offset w.
Proof.
  assert (H : translate_path ctx (p +:+ s) = translate_path ctx p).
  { unfold translate_path. rewrite <- string_app_assoc.
    now apply snprintf_app_r. }
  split; [exact H|]. intros fuel buf offset w.
  unfold sentinelfs_write. now rewrite H.
Qed.

Lemma strrchr_absent (s : string) (c : ascii) :
  c ∉ list_ascii_of_string s → strrchr s c = None.
Proof.
  induction s as [|a s IH]; intros H; [reflexivity|].
  simpl in *. apply not_elem_of_cons in H as [Hne Hs].
  rewrite IH by exact Hs.
  destruct (Ascii.eqb_spec a c); [congruence|reflexivity].
Qed.

(** The last [c] of [d +:+ String c name] is the one before [name]. *)
Lemma strrchr_last (d name : string) (c : ascii) :
  c ∉ list_ascii_of_string name →
  strrchr (d +:+ String c name) c = Some (String c name).
Proof.
  intros H. induction d as [|a d IH].
  - change (strrchr (String c name) c = Some (String c name)).
    simpl. rewrite strrchr_absent by exact H. now rewrite Ascii.eqb_refl.
  - change (strrchr (String a (d +:+ String c name)) c = Some (String c name)).
    simpl. now rewrite IH.
Qed.

Lemma get_backup_path_basename (ctx : sentinelfs_context_t) (d name : string)
    (w : world) :
  "/"%char ∉ list_ascii_of_string name →
  get_backup_path ctx (d +:+ "/" +:+ name) w
  = snprintf MAX_PATH
      (backup_path ctx +:+ "/" +:+ name +:+ "." +:+ print_ld (clock w)
       +:+ ".backup").
Proof.
  intros Hname. unfold get_backup_path.
  change (d +:+ "/" +:+ name) with (d +:+ String "/" name).
  now rewrite (strrchr_last d name "/" Hname).
Qed.

(** X9: the backup path is made of the backup directory, the part of the
    original path after its last [/], and the second of the clock; the
    directory of the original file does not enter. So two files of the
    same name in different directories get the same backup path within
    one second. *)
Theorem X9_backup_path_ignores_the_directory (ctx : sentinelfs_context_t)
    (d1 d2 name : string) (w1 w2 : world)
    (Hname : "/"%char ∉ list_ascii_of_string name)
    (Hclock : clock w1 = clock w2) :
  get_backup_path ctx (d1 +:+ "/" +:+ name) w1
  = snprintf MAX_PATH
      (backup_path ctx +:+ "/" +:+ name +:+ "." +:+ print_ld (clock w1)
       +:+ ".backup")
  ∧ get_backup_path ctx (d1 +:+ "/" +:+ name) w1
    = get_backup_path ctx (d2 +:+ "/" +:+ name) w2.
Proof.
  split; [now apply get_backup_path_basename|].
  rewrite !get_backup_path_basename by exact Hname. now rewrite Hclock.
Qed.

(** [report.txt] in two directories of the storage. *)
Lemma X9_backup_path_ignores_the_directory_witness :
  let ctx := example_ctx (λ _, None) in
  let w := example_world ∅ 0 stats_init in
  get_backup_path ctx ("/srv/storage/alice" +:+ "/" +:+ "report.txt") w
  = snprintf MAX_PATH
      (backup_path ctx +:+ "/" +:+ "report.txt" +:+ "." +:+ print_ld (clock w)
       +:+ ".backup")
  ∧ get_backup_path ctx ("/srv/storage/alice" +:+ "/" +:+ "report.txt") w
    = get_backup_path ctx ("/srv/storage/bob" +:+ "/" +:+ "report.txt") w.
Proof.
  intros ctx w. apply X9_backup_path_ignores_the_directory; [|reflexivity].
  rewrite list_elem_of_In. simpl. intuition discriminate.
Defined.

(** ** Writes that pass the gate *)

Lemma detect_ransomware_pass (ctx : sentinelfs_context_t) (buf : list byte)
    (w : world) :
  fst (detect_ransomware ctx buf w) = 0 →
  stats (snd (detect_ransomware ctx buf w)) = incr_total_writes (stats w).
Proof.
  intros H.
  destruct (is_whitelisted_file_world ctx buf
              (set_stats (incr_total_writes (stats w)) w)) as [Hw|Hw];
    destruct (detect_ransomware_cases ctx buf w)
      as [(_ & Hd)|[(_ & _ & Hd)|(_ & _ & Hd)]];
    rewrite Hd in *; try discriminate H; rewrite Hw; reflexivity.
Qed.

Lemma to_int_small (z : Z) : 0 ≤ z < 2 ^ 31 → to_int z = z.
Proof. intros H. unfold to_int. rewrite Z.mod_small; lia. Qed.

(** [pwrite] with room for all of the payload. *)
Lemma os_pwrite_full (fd : string) (buf data : list byte) (offset : Z)
    (w : world) :
  files w !! fd = Some data → 0 ≤ offset → buf ≠ [] →
  (pwrite_growth (Z.to_nat offset) (length buf) (length data) ≤ space w)%nat →
  os_pwrite fd buf offset w
  = (Ok (Z.of_nat (length buf)),
     set_space (space w
                - pwrite_growth (Z.to_nat offset) (length buf) (length data))
       (set_files
          (<[fd := pwrite_image (Z.to_nat offset) buf data]> (files w))
          (sys (SysPwrite fd (length buf) offset) w))).
Proof.
  intros Hfd Hoff Hne Hroom. unfold os_pwrite, pwrite_growth in *. wsimpl.
  rewrite (proj2 (Z.ltb_ge _ _) Hoff), Hfd.
  assert (Hlen : (0 < length buf)%nat) by (destruct buf; [congruence|simpl; lia]).
  rewrite (proj2 (Nat.eqb_neq _ _)) by lia. simpl default.
  replace (Z.to_nat offset + length buf - Z.to_nat offset `max` length data
           - space w)%nat with 0%nat by lia.
  rewrite Nat.sub_0_r. rewrite (proj2 (Nat.eqb_neq _ _)) by lia.
  rewrite firstn_all. reflexivity.
Qed.

(** The pass-through part of [sentinelfs_write] from the world [w1] that
    the backup phase leaves: the payload passes the gate, the file exists
    and can be opened, the storage has room. *)
Lemma sentinelfs_write_forward (ctx : sentinelfs_context_t) (path : string)
    (buf data : list byte) (offset : Z) (w w1 : world) :
  let full_path := translate_path ctx path in
  returns (λ fuel, write_backup_phase fuel ctx full_path offset w) w1 →
  fst (detect_ransomware ctx buf w) = 0 →
  files w1 !! full_path = Some data →
  full_path ∉ denied w1 →
  0 ≤ offset → buf ≠ [] → Z.of_nat (length buf) < 2 ^ 31 →
  (pwrite_growth (Z.to_nat offset) (length buf) (length data) ≤ space w1)%nat →
  ∃ w' : world,
    returns (λ fuel, sentinelfs_write fuel ctx path buf offset w)
      (Z.of_nat (length buf), w')
    ∧ files w' = <[full_path := pwrite_image (Z.to_nat offset) buf data]> (files w1)
    ∧ stats w' = incr_total_writes (stats w1)
    ∧ open_fds w' = open_fds w1
    ∧ denied w' = denied w1.
Proof.
  intros full_path [fuel0 Hret] Hpass Hfile Hden Hoff Hne Hint Hroom.
  rewrite (detect_ransomware_value ctx buf w w1) in Hpass.
  pose proof (detect_ransomware_pass ctx buf w1 Hpass) as Hstats.
  destruct (detect_ransomware_frame ctx buf w1)
    as (Hfiles & Hdenied & Hspace & _ & Hfds & _).
  destruct (detect_ransomware ctx buf w1) as [d wd] eqn:Hdet.
  simpl in Hpass, Hstats, Hfiles, Hdenied, Hspace, Hfds. subst d.
  eexists. split.
  - exists fuel0. intros fuel Hfuel. unfold sentinelfs_write. fold full_path.
    rewrite (Hret fuel Hfuel), Hdet. simpl negb. cbv iota.
    unfold os_open_wronly. wsimpl. rewrite Hfiles, Hfile, Hdenied.
    destruct (decide (full_path ∈ denied w1)); [contradiction|].
    rewrite (os_pwrite_full full_path buf data); wsimpl;
      [|now rewrite Hfiles|exact Hoff|exact Hne|now rewrite Hspace].
    rewrite to_int_small by lia. reflexivity.
  - wsimpl. rewrite Hfiles, Hfds, Hdenied. now repeat split.
Qed.

(** When the file is empty or the offset is not zero, the backup phase
    is at most a [stat]. *)
Lemma write_backup_phase_skipped (ctx : sentinelfs_context_t)
    (full_path : string) (offset : Z) (w : world) (data : list byte) :
  files w !! full_path = Some data →
  offset ≠ 0 ∨ data = [] →
  ∃ w1 : world,
    (∀ fuel, write_backup_phase fuel ctx full_path offset w = Some w1)
    ∧ files w1 = files w ∧ denied w1 = denied w ∧ space w1 = space w
    ∧ open_fds w1 = open_fds w ∧ stats w1 = stats w ∧ stderr w1 = stderr w.
Proof.
  intros Hfile Hskip. unfold write_backup_phase, os_stat. wsimpl. rewrite Hfile.
  destruct (Z.eqb_spec offset 0) as [Hz|Hnz].
  - destruct Hskip as [Hoff| ->]; [contradiction|]. simpl Z.ltb. cbv iota.
    eexists. split; [intros fuel; reflexivity|]. now repeat split.
  - exists w. now repeat split.
Qed.

Lemma sentinelfs_write_in_place (ctx : sentinelfs_context_t) (path : string)
    (buf data : list byte) (offset : Z) (w : world) :
  fst (detect_ransomware ctx buf w) = 0 →
  files w !! translate_path ctx path = Some data →
  translate_path ctx path ∉ denied w →
  offset ≠ 0 ∨ data = [] →
  0 ≤ offset → buf ≠ [] → Z.of_nat (length buf) < 2 ^ 31 →
  (pwrite_growth (Z.to_nat offset) (length buf) (length data) ≤ space w)%nat →
  ∃ w' : world,
    returns (λ fuel, sentinelfs_write fuel ctx path buf offset w)
      (Z.of_nat (length buf), w')
    ∧ files w'
      = <[translate_path ctx path := pwrite_image (Z.to_nat offset) buf data]>
          (files w)
    ∧ stats w' = incr_total_writes (stats w)
    ∧ open_fds w' = open_fds w
    ∧ denied w' = denied w.
Proof.
  intros Hpass Hfile Hopen Hskip Hoff Hne Hint Hroom.
  destruct (write_backup_phase_skipped ctx _ offset w data Hfile Hskip)
    as (w1 & Hret & Hf & Hd & Hs & Hfd & Hst & _).
  destruct (sentinelfs_write_forward ctx path buf data offset w w1)
    as (w' & Hw & Hfiles & Hstats & Hfds & Hden);
    try assumption.
  - now apply returns_const.
  - now rewrite Hf.
  - now rewrite Hd.
  - now rewrite Hs.
  - exists w'. rewrite Hfiles, Hstats, Hfds, Hden, Hf, Hst, Hfd, Hd.
    now repeat split.
Qed.

(** X10: a write that passes the gate, on a file that exists and can be
    opened, at a non-zero offset or on an empty file (no backup is due),
    with room on the storage: the payload is stored at the offset and the
    rest of the file is kept (the file is not truncated; a gap before the
    offset is filled with zeros); the return value is the size; the write
    is counted in [total_writes] only; no descriptor stays open. *)
Theorem X10_allowed_write_stores_the_payload_in_place
    (ctx : sentinelfs_context_t) (path : string) (buf data : list byte)
    (offset : Z) (w : world)
    (Hpass : fst (detect_ransomware ctx buf w) = 0)
    (Hfile : files w !! translate_path ctx path = Some data)
    (Hopen : translate_path ctx path ∉ denied w)
    (Hskip : offset ≠ 0 ∨ data = [])
    (Hoff : 0 ≤ offset)
    (Hne : buf ≠ [])
    (Hint : Z.of_nat (length buf) < 2 ^ 31)
    (Hroom : (pwrite_growth (Z.to_nat offset) (length buf) (length data)
              ≤ space w)%nat) :
  ∃ w' : world,
    returns (λ fuel, sentinelfs_write fuel ctx path buf offset w)
      (Z.of_nat (length buf), w')
    ∧ files w'
      = <[translate_path ctx path := pwrite_image (Z.to_nat offset) buf data]>
          (files w)
    ∧ stats w' = incr_total_writes (stats w)
    ∧ open_fds w' = open_fds w.
Proof.
  destruct (sentinelfs_write_in_place ctx path buf data offset w)
    as (w' & Hw & Hfiles & Hstats & Hfds & _); try assumption.
  exists w'. now repeat split.
Qed.

(** ** Reading *)

(** [sentinelfs_read] leaves the world as it is: files, free space,
    counters, and the descriptor it opens is closed. *)
Lemma sentinelfs_read_world (ctx : sentinelfs_context_t) (path : string)
    (size : nat) (offset : Z) (w : world) :
  (sentinelfs_read ctx path size offset w).2 = w.
Proof.
  unfold sentinelfs_read, os_open_rdonly, os_pread, os_release.
  destruct w as [fs dn sp ck fd tr er st]. wsimpl.
  destruct (fs !! translate_path ctx path); [|reflexivity].
  destruct (decide _); [reflexivity|]. wsimpl.
  destruct (offset <? 0); reflexivity.
Qed.

Lemma pwrite_image_read (offset : nat) (buf data : list byte) :
  take (length buf) (drop offset (pwrite_image offset buf data)) = buf.
Proof.
  unfold pwrite_image.
  set (head := take offset (data ++ replicate (offset - length data) Byte.x00)).
  assert (Hhead : length head = offset).
  { unfold head. rewrite length_take, length_app, length_replicate. lia. }
  rewrite <- Hhead at 1. rewrite drop_app_length. apply take_app_length.
Qed.

(** X11: what an allowed write has stored is what a read of the same
    size at the same offset returns (under the conditions of X10); the
    read changes nothing. *)
Theorem X11_read_returns_what_was_written
    (ctx : sentinelfs_context_t) (path : string) (buf data : list byte)
    (offset : Z) (w : world)
    (Hpass : fst (detect_ransomware ctx buf w) = 0)
    (Hfile : files w !! translate_path ctx path = Some data)
    (Hopen : translate_path ctx path ∉ denied w)
    (Hskip : offset ≠ 0 ∨ data = [])
    (Hoff : 0 ≤ offset)
    (Hne : buf ≠ [])
    (Hint : Z.of_nat (length buf) < 2 ^ 31)
    (Hroom : (pwrite_growth (Z.to_nat offset) (length buf) (length data)
              ≤ space w)%nat) :
  ∃ w' : world,
    returns (λ fuel, sentinelfs_write fuel ctx path buf offset w)
      (Z.of_nat (length buf), w')
    ∧ sentinelfs_read ctx path (length buf) offset w'
      = (Z.of_nat (length buf), buf, w').
Proof.
  destruct (sentinelfs_write_in_place ctx path buf data offset w)
    as (w' & Hw & Hfiles & _ & _ & Hden); try assumption.
  exists w'. split; [exact Hw|].
  pose proof (sentinelfs_read_world ctx path (length buf) offset w') as Hworld.
  assert (Hlook : files w' !! translate_path ctx path
                  = Some (pwrite_image (Z.to_nat offset) buf data))
    by (rewrite Hfiles; apply lookup_insert_eq).
  unfold sentinelfs_read, os_open_rdonly, os_pread in *. rewrite Hlook in *.
  rewrite Hden in *.
  destruct (decide (translate_path ctx path ∈ denied w)); [contradiction|].
  wsimpl. rewrite (proj2 (Z.ltb_ge _ _) Hoff) in *. rewrite Hlook in *.
  simpl default in *. rewrite pwrite_image_read in *.
  rewrite to_int_small in * by lia. simpl in Hworld. now rewrite Hworld.
Qed.

(** ** What a write touches *)

Lemma os_pwrite_frame (fd : string) (buf : list byte) (offset : Z) (w : world) :
  let w' := (os_pwrite fd buf offset w).2 in
  (∀ p : string, p ≠ fd → files w' !! p = files w !! p)
  ∧ open_fds w' = open_fds w ∧ denied w' = denied w ∧ stderr w' = stderr w.
Proof.
  unfold os_pwrite. wsimpl. destruct (offset <? 0); [now repeat split|].
  destruct (length buf =? 0)%nat; [now repeat split|].
  destruct (_ =? 0)%nat; [now repeat split|]. wsimpl.
  repeat split. intros p Hp. now rewrite lookup_insert_ne.
Qed.

(** [detect_ransomware] only adds lines to the standard error stream. *)
Lemma detect_ransomware_stderr (ctx : sentinelfs_context_t) (buf : list byte)
    (w : world) :
  ∃ l : list diag, stderr (snd (detect_ransomware ctx buf w)) = stderr w ++ l.
Proof.
  destruct (is_whitelisted_file_world ctx buf
              (set_stats (incr_total_writes (stats w)) w)) as [Hw|Hw];
    destruct (detect_ransomware_cases ctx buf w)
      as [(_ & ->)|[(_ & _ & ->)|(_ & _ & ->)]];
    rewrite Hw; wsimpl;
    first [ now exists [] ; rewrite app_nil_r
          | eexists; rewrite <- ?app_assoc; reflexivity ].
Qed.

Lemma os_open_wronly_frame (p : string) (w : world) :
  let w' := (os_open_wronly p w).2 in
  files w' = files w ∧ denied w' = denied w
  ∧ open_fds w'
    = match (os_open_wronly p w).1 with
      | Ok _ => S (open_fds w)
      | Err _ => open_fds w
      end.
Proof.
  unfold os_open_wronly. wsimpl. destruct (files w !! p); [|now repeat split].
  destruct (decide _); now repeat split.
Qed.

(** [sentinelfs_write] returns; after the backup phase it changes no file
    but its target, and it closes the descriptor it opens. *)
Lemma sentinelfs_write_returns_frame (ctx : sentinelfs_context_t)
    (path : string) (buf : list byte) (offset : Z) (w : world) :
  ∃ (w1 : world) (r : Z) (w' : world),
    returns (λ fuel, write_backup_phase fuel ctx (translate_path ctx path) offset w) w1
    ∧ returns (λ fuel, sentinelfs_write fuel ctx path buf offset w) (r, w')
    ∧ (∀ p : string, p ≠ translate_path ctx path →
         files w' !! p = files w1 !! p)
    ∧ open_fds w' = open_fds w1
    ∧ denied w' = denied w1
    ∧ stats w' = stats (snd (detect_ransomware ctx buf w1))
    ∧ stderr w' = stderr (snd (detect_ransomware ctx buf w1)).
Proof.
  set (full_path := translate_path ctx path).
  destruct (write_backup_phase_returns ctx full_path offset w)
    as (w1 & Hret & _).
  exists w1.
  assert (H : ∃ (r : Z) (w' : world),
    (let '(detection_result, w) := detect_ransomware ctx buf w1 in
     if negb (detection_result =? 0) then Some (detection_result, w)
     else
       match os_open_wronly full_path w with
       | (Err errno, w) => Some (- errno, w)
       | (Ok fd, w) =>
           let '(r, w) := os_pwrite fd buf offset w in
           let res := match r with Ok n => to_int n | Err errno => - errno end in
           Some (res, os_close fd w)
       end) = Some (r, w')
    ∧ (∀ p : string, p ≠ full_path → files w' !! p = files w1 !! p)
    ∧ open_fds w' = open_fds w1
    ∧ denied w' = denied w1
    ∧ stats w' = stats (snd (detect_ransomware ctx buf w1))
    ∧ stderr w' = stderr (snd (detect_ransomware ctx buf w1))).
  { destruct (detect_ransomware_frame ctx buf w1)
      as (Hfiles & Hdenied & _ & _ & Hfds & _).
    destruct (detect_ransomware ctx buf w1) as [d wd]. simpl snd in *.
    destruct (negb (d =? 0)).
    { eexists _, _. split; [reflexivity|]. rewrite Hfiles. now repeat split. }
    pose proof (os_open_wronly_stats full_path wd) as Hos.
    destruct (os_open_wronly_frame full_path wd) as (Hof & Hod & Hofd).
    unfold os_open_wronly in *. wsimpl.
    destruct (files wd !! full_path) as [data|].
    2:{ eexists _, _. split; [reflexivity|]. wsimpl. rewrite Hfiles.
        now repeat split. }
    destruct (decide (full_path ∈ denied wd)).
    { eexists _, _. split; [reflexivity|]. wsimpl. rewrite Hfiles.
      now repeat split. }
    wsimpl.
    pose proof (os_pwrite_stats full_path buf offset
                  (set_open_fds (S (open_fds wd)) (sys (SysOpen full_path) wd)))
      as Hps.
    destruct (os_pwrite_frame full_path buf offset
                (set_open_fds (S (open_fds wd)) (sys (SysOpen full_path) wd)))
      as (Hpf & Hpfd & Hpd & Hpe).
    destruct (os_pwrite full_path buf offset _) as [res wp]. wsimpl.
    eexists _, _. split; [reflexivity|]. wsimpl.
    rewrite Hpfd, Hpd, Hps, Hpe. wsimpl. split; [|now repeat split].
    intros p Hp. rewrite Hpf by exact Hp. wsimpl. now rewrite Hfiles. }
  destruct H as (r & w' & Hrun & Hframe). exists r, w'.
  split; [exact Hret|]. split; [|exact Hframe].
  destruct Hret as [fuel0 Hret]. exists fuel0. intros fuel Hfuel.
  unfold sentinelfs_write. fold full_path. rewrite (Hret fuel Hfuel). exact Hrun.
Qed.

(** A blocked write ends with [detect_ransomware]. *)
Lemma sentinelfs_write_blocked (ctx : sentinelfs_context_t) (path : string)
    (buf : list byte) (offset : Z) (w w1 : world) :
  returns (λ fuel, write_backup_phase fuel ctx (translate_path ctx path) offset w) w1 →
  fst (detect_ransomware ctx buf w) ≠ 0 →
  returns (λ fuel, sentinelfs_write fuel ctx path buf offset w)
    (- EIO, snd (detect_ransomware ctx buf w1)).
Proof.
  intros [fuel0 Hret] Hblock. exists fuel0. intros fuel Hfuel.
  rewrite (detect_ransomware_value ctx buf w w1) in Hblock.
  unfold sentinelfs_write. rewrite (Hret fuel Hfuel).
  destruct (detect_ransomware_cases ctx buf w1)
    as [(_ & Hd0)|[(_ & _ & Hd0)|(_ & _ & Hd0)]];
    rewrite Hd0 in *; simpl in Hblock; try congruence.
  reflexivity.
Qed.

(** X12: whatever the payload and the outcome, [sentinelfs_write] returns
    and changes no file but its target and the backup file of its target;
    it leaves no descriptor open and no access right changed. At a
    non-zero offset it makes no backup: no file but the target changes and
    [backups_created] keeps its value. *)
Theorem X12_write_touches_target_and_backup_only (ctx : sentinelfs_context_t)
    (path : string) (buf : list byte) (offset : Z) (w : world) :
  let full_path := translate_path ctx path in
  ∃ (r : Z) (w' : world),
    returns (λ fuel, sentinelfs_write fuel ctx path buf offset w) (r, w')
    ∧ (∀ p : string, p ≠ full_path → p ≠ get_backup_path ctx full_path w →
         files w' !! p = files w !! p)
    ∧ open_fds w' = open_fds w
    ∧ denied w' = denied w
    ∧ (offset ≠ 0 →
       (∀ p : string, p ≠ full_path → files w' !! p = files w !! p)
       ∧ backups_created (stats w') = backups_created (stats w)).
Proof.
  intros full_path.
  destruct (sentinelfs_write_returns_frame ctx path buf offset w)
    as (w1 & r & w' & Hret1 & Hret & Hfiles & Hfds & Hden & Hstats & _).
  destruct (write_backup_phase_returns ctx full_path offset w)
    as (w1' & Hret1' & (_ & _ & Hd & _ & Hf & _) & Hfd & Hoff).
  assert (w1' = w1) as -> by (eapply returns_unique; eassumption).
  exists r, w'. split; [exact Hret|]. split.
  { intros p Hp Hb. rewrite Hfiles by exact Hp. now apply Hf. }
  split; [congruence|]. split; [congruence|].
  intros Hnz. rewrite (Hoff Hnz) in *. split; [exact Hfiles|].
  rewrite Hstats.
  now destruct (detect_ransomware_frame ctx buf w)
    as (_ & _ & _ & _ & _ & _ & Hb & _).
Qed.

(** ** The backup and the write together *)

(** The backup phase on a non-empty file is [create_jit_backup] after a
    [stat]. *)
Lemma write_backup_phase_nonempty (ctx : sentinelfs_context_t)
    (full_path : string) (w : world) (data : list byte) (r : Z) (wb : world) :
  files w !! full_path = Some data → data ≠ [] →
  returns (λ fuel, create_jit_backup fuel ctx full_path
                     (sys (SysStat full_path) w)) (r, wb) →
  returns (λ fuel, write_backup_phase fuel ctx full_path 0 w) wb.
Proof.
  intros Hfile Hne [fuel0 Hret]. exists fuel0. intros fuel Hfuel.
  unfold write_backup_phase, os_stat. wsimpl. rewrite Hfile.
  assert (Hpos : (0 <? Z.of_nat (length data)) = true).
  { apply Z.ltb_lt. destruct data; [congruence|simpl length; lia]. }
  simpl Z.eqb. cbv iota. rewrite Hpos. now rewrite (Hret fuel Hfuel).
Qed.

(** X13: a write at offset 0 to a non-empty file of at most the cap,
    when the copy can be made (the file can be read, the backup file can
    be written and is another file, the storage has room): after the
    write, whatever the verdict of the gate and the outcome of the write,
    the backup file holds the contents the file had before, and the
    backup is counted. If the write is blocked it returns [-EIO] and the
    file itself still holds these contents. *)
Theorem X13_backup_holds_the_contents_before_the_write
    (ctx : sentinelfs_context_t) (path : string) (buf data : list byte)
    (w : world)
    (Hfile : files w !! translate_path ctx path = Some data)
    (Hne : data ≠ [])
    (Hsmall : Z.of_nat (length data) ≤ JIT_BACKUP_MAX_SIZE)
    (Hsrc : translate_path ctx path ∉ denied w)
    (Hdst : get_backup_path ctx (translate_path ctx path) w ∉ denied w)
    (Hother : get_backup_path ctx (translate_path ctx path) w
              ≠ translate_path ctx path)
    (Hroom : (length data ≤ space w)%nat) :
  let backup := get_backup_path ctx (translate_path ctx path) w in
  ∃ (r : Z) (w' : world),
    returns (λ fuel, sentinelfs_write fuel ctx path buf 0 w) (r, w')
    ∧ files w' !! backup = Some data
    ∧ backups_created (stats w') = wrap64 (backups_created (stats w) + 1)
    ∧ (fst (detect_ransomware ctx buf w) ≠ 0 →
       r = - EIO ∧ files w' !! translate_path ctx path = Some data).
Proof.
  intros backup. set (full_path := translate_path ctx path) in *.
  destruct (create_jit_backup_copies ctx full_path (sys (SysStat full_path) w) data)
    as (wb & Hcopy & Hbak & Hsrcdata & Hcount & _); try assumption.
  change (get_backup_path ctx full_path (sys (SysStat full_path) w))
    with backup in Hbak.
  pose proof (write_backup_phase_nonempty ctx full_path w data 0 wb
                Hfile Hne Hcopy) as Hphase.
  destruct (sentinelfs_write_returns_frame ctx path buf 0 w)
    as (w1 & r & w' & Hret1 & Hret & Hfiles & _ & _ & Hstats & _).
  assert (w1 = wb) as -> by (eapply returns_unique; eassumption).
  exists r, w'. split; [exact Hret|]. split.
  { rewrite Hfiles by exact Hother. exact Hbak. }
  split.
  { rewrite Hstats.
    destruct (detect_ransomware_frame ctx buf wb)
      as (_ & _ & _ & _ & _ & _ & Hb & _).
    rewrite Hb. exact Hcount. }
  intros Hblock.
  pose proof (sentinelfs_write_blocked ctx path buf 0 w wb Hphase Hblock) as Hb.
  pose proof (returns_unique _ _ _ Hret Hb) as Heq. injection Heq as -> ->.
  split; [reflexivity|].
  destruct (detect_ransomware_frame ctx buf wb) as (Hf & _).
  rewrite Hf. exact Hsrcdata.
Qed.

(** X14: a backup that fails does not stop the write. The backup file
    cannot be opened: [create_jit_backup] returns -1, which
    [sentinelfs_write] does not look at; a payload that passes the gate is
    then stored as usual, no backup file is made and none is counted. *)
Theorem X14_failed_backup_does_not_stop_the_write
    (ctx : sentinelfs_context_t) (path : string) (buf data : list byte)
    (w : world)
    (Hfile : files w !! translate_path ctx path = Some data)
    (Hne : data ≠ [])
    (Hsmall : Z.of_nat (length data) ≤ JIT_BACKUP_MAX_SIZE)
    (Hsrc : translate_path ctx path ∉ denied w)
    (Hdst : get_backup_path ctx (translate_path ctx path) w ∈ denied w)
    (Hpass : fst (detect_ransomware ctx buf w) = 0)
    (Hbuf : buf ≠ [])
    (Hint : Z.of_nat (length buf) < 2 ^ 31)
    (Hroom : (pwrite_growth 0 (length buf) (length data) ≤ space w)%nat) :
  let full_path := translate_path ctx path in
  (∀ fuel, ∃ wb, create_jit_backup fuel ctx full_path (sys (SysStat full_path) w)
                 = Some (-1, wb))
  ∧ ∃ w' : world,
      returns (λ fuel, sentinelfs_write fuel ctx path buf 0 w)
        (Z.of_nat (length buf), w')
      ∧ files w' = <[full_path := pwrite_image 0 buf data]> (files w)
      ∧ backups_created (stats w') = backups_created (stats w).
Proof.
  intros full_path. fold full_path in Hfile, Hsrc, Hdst.
  pose proof (λ fuel, create_jit_backup_backup_denied ctx full_path
                (sys (SysStat full_path) w) data fuel Hfile Hsmall Hsrc Hdst)
    as Hfail.
  split; [intros fuel; eexists; apply Hfail|].
  set (wb := fclose {| f_path := full_path; f_pos := 0 |}
               (sys (SysFopen (get_backup_path ctx full_path
                                 (sys (SysStat full_path) w)) "wb")
                  (source_opened full_path (sys (SysStat full_path) w)))) in *.
  assert (Hphase : returns (λ fuel, write_backup_phase fuel ctx full_path 0 w) wb).
  { apply (write_backup_phase_nonempty ctx full_path w data (-1) wb Hfile Hne).
    apply returns_const. exact Hfail. }
  destruct (sentinelfs_write_forward ctx path buf data 0 w wb)
    as (w' & Hret & Hfiles & Hstats & _); try assumption; try lia.
  exists w'. split; [exact Hret|]. rewrite Hfiles, Hstats. now split.
Qed.

(** ** Ways around the backup *)

Lemma sentinelfs_truncate_to_zero (ctx : sentinelfs_context_t) (path : string)
    (w : world) (data : list byte) :
  files w !! translate_path ctx path = Some data →
  translate_path ctx path ∉ denied w →
  ∃ wt : world,
    sentinelfs_truncate ctx path 0 w = (0, wt)
    ∧ files wt = <[translate_path ctx path := []]> (files w)
    ∧ stats wt = stats w ∧ stderr wt = stderr w ∧ denied wt = denied w
    ∧ open_fds wt = open_fds w.
Proof.
  intros Hfile Hden. unfold sentinelfs_truncate, os_truncate. rewrite Hfile.
  destruct (decide _); [contradiction|]. simpl Z.ltb. cbv iota.
  eexists. split; [reflexivity|]. wsimpl.
  rewrite take_0. now repeat split.
Qed.

(** X15: [sentinelfs_truncate] is not gated and makes no backup, and the
    backup of [sentinelfs_write] is made of what the file holds when the
    write arrives. So after a truncation to length 0 a write at offset 0
    finds an empty file and makes no backup: the contents the file had
    are in no file afterwards, no diagnostic tells, and
    [backups_created] has not moved. *)
Theorem X15_truncate_then_write_makes_no_backup (ctx : sentinelfs_context_t)
    (path : string) (buf data : list byte) (w : world)
    (Hfile : files w !! translate_path ctx path = Some data)
    (Hopen : translate_path ctx path ∉ denied w) :
  let full_path := translate_path ctx path in
  ∃ (wt : world) (r : Z) (w' : world),
    sentinelfs_truncate ctx path 0 w = (0, wt)
    ∧ files wt !! full_path = Some []
    ∧ stats wt = stats w
    ∧ returns (λ fuel, sentinelfs_write fuel ctx path buf 0 wt) (r, w')
    ∧ (∀ p : string, p ≠ full_path → files w' !! p = files w !! p)
    ∧ backups_created (stats w') = backups_created (stats w).
Proof.
  intros full_path.
  destruct (sentinelfs_truncate_to_zero ctx path w data Hfile Hopen)
    as (wt & Htr & Hft & Hst & _).
  assert (Hempty : files wt !! full_path = Some [])
    by (rewrite Hft; apply lookup_insert_eq).
  destruct (write_backup_phase_skipped ctx full_path 0 wt [] Hempty)
    as (w1 & Hskip & Hf1 & _ & _ & _ & Hs1 & _); [now right|].
  destruct (sentinelfs_write_returns_frame ctx path buf 0 wt)
    as (w1' & r & w' & Hret1 & Hret & Hfiles & _ & _ & Hstats & _).
  assert (w1' = w1) as ->.
  { eapply returns_unique; [exact Hret1|]. now apply returns_const. }
  exists wt, r, w'. split; [exact Htr|]. split; [exact Hempty|].
  split; [exact Hst|]. split; [exact Hret|]. split.
  - intros p Hp. rewrite Hfiles by exact Hp. rewrite Hf1, Hft.
    now apply lookup_insert_ne.
  - rewrite Hstats.
    destruct (detect_ransomware_frame ctx buf w1)
      as (_ & _ & _ & _ & _ & _ & Hb & _).
    rewrite Hb, Hs1, Hst. reflexivity.
Qed.

(** The loop on a source that is empty ends at the first [fread]. *)
Lemma copy_loop_empty_source (fuel : nat) (src dst : FILE) (w : world) :
  files w !! f_path src = Some [] →
  copy_loop (S fuel) src dst w
  = Some (sys (SysFread (f_path src) sizeof_buffer) w).
Proof.
  intros H. rewrite copy_loop_S, fread_eq. cbv beta iota zeta. rewrite H.
  simpl default. rewrite drop_nil, take_nil. reflexivity.
Qed.

(** The run of [create_jit_backup] on a file that is its own backup
    file: the second [fopen] empties it and the first [fread] finds
    nothing. *)
Lemma create_jit_backup_onto_itself (ctx : sentinelfs_context_t)
    (p : string) (w : world) (data : list byte) (fuel : nat) :
  files w !! p = Some data →
  Z.of_nat (length data) ≤ JIT_BACKUP_MAX_SIZE →
  p ∉ denied w →
  get_backup_path ctx p w = p →
  create_jit_backup (S fuel) ctx p w
  = Some (0, backup_finished p p
               (sys (SysFread p sizeof_buffer) (backup_opened p p w))).
Proof.
  intros Hfile Hsmall Hopen Hsame.
  rewrite (create_jit_backup_copy ctx p w data) by (rewrite ?Hsame; assumption).
  cbv zeta. rewrite Hsame.
  rewrite (copy_loop_empty_source fuel _ _ (backup_opened p p w)); [reflexivity|].
  unfold backup_opened, source_opened. wsimpl. apply lookup_insert_eq.
Qed.

(** A blocked write at offset 0 to a file that is its own backup file
    returns [-EIO] and leaves the file empty. *)
Lemma sentinelfs_write_blocked_onto_itself (ctx : sentinelfs_context_t)
    (path : string) (buf : list byte) (w : world) (data : list byte) :
  let full_path := translate_path ctx path in
  fst (detect_ransomware ctx buf w) ≠ 0 →
  files w !! full_path = Some data → data ≠ [] →
  Z.of_nat (length data) ≤ JIT_BACKUP_MAX_SIZE →
  full_path ∉ denied w →
  get_backup_path ctx full_path w = full_path →
  ∃ w' : world,
    returns (λ fuel, sentinelfs_write fuel ctx path buf 0 w) (- EIO, w')
    ∧ files w' = <[full_path := []]> (files w).
Proof.
  intros full_path Hblock Hfile Hne Hsmall Hopen Hsame.
  set (w0 := sys (SysStat full_path) w).
  set (wb := backup_finished full_path full_path
               (sys (SysFread full_path sizeof_buffer)
                  (backup_opened full_path full_path w0))).
  assert (Hret : returns (λ fuel, create_jit_backup fuel ctx full_path w0) (0, wb)).
  { exists 1%nat. intros fuel Hfuel. destruct fuel as [|fuel]; [lia|].
    now apply (create_jit_backup_onto_itself ctx full_path w0 data). }
  pose proof (write_backup_phase_nonempty ctx full_path w data 0 wb Hfile Hne Hret)
    as Hphase.
  exists (snd (detect_ransomware ctx buf wb)). split.
  - now apply sentinelfs_write_blocked.
  - destruct (detect_ransomware_frame ctx buf wb) as (Hf & _).
    rewrite Hf. unfold wb, w0, backup_finished, backup_opened, source_opened.
    wsimpl. reflexivity.
Qed.

(** X16: when the backup path is the path of the source itself (both
    are cut to [MAX_PATH - 1] bytes, so a file of the backup directory
    with a path of that length is its own backup file),
    [create_jit_backup] opens the source for writing, which empties it,
    copies nothing, counts a backup and returns success: the contents are
    lost before the write is even examined. *)
Theorem X16_backup_onto_itself_empties_the_file (ctx : sentinelfs_context_t)
    (p : string) (w : world) (data : list byte)
    (Hfile : files w !! p = Some data)
    (Hsmall : Z.of_nat (length data) ≤ JIT_BACKUP_MAX_SIZE)
    (Hopen : p ∉ denied w)
    (Hsame : get_backup_path ctx p w = p) :
  ∃ w' : world,
    returns (λ fuel, create_jit_backup fuel ctx p w) (0, w')
    ∧ files w' = <[p := []]> (files w)
    ∧ backups_created (stats w') = wrap64 (backups_created (stats w) + 1)
    ∧ stderr w' = stderr w ++ [JitBackupCreated p p].
Proof.
  eexists. split.
  - exists 1%nat. intros fuel Hfuel. destruct fuel as [|fuel]; [lia|].
    now apply (create_jit_backup_onto_itself ctx p w data).
  - unfold backup_finished, backup_opened, source_opened. wsimpl.
    now repeat split.
Qed.

(** A file of the backup directory whose path has [MAX_PATH - 1] bytes. *)
Lemma X16_backup_onto_itself_empties_the_file_witness :
  let storage := String "/" (string_of_chars 3900 "s") in
  let ctx := main_context storage (λ _, None) in
  let p := backup_path ctx +:+ "/" +:+ string_of_chars 173 "n" in
  let w := example_world {[ p := [Byte.x41; Byte.x42] ]} 100 stats_init in
  ∃ w' : world,
    returns (λ fuel, create_jit_backup fuel ctx p w) (0, w')
    ∧ files w' = <[p := []]> (files w)
    ∧ backups_created (stats w') = wrap64 (backups_created (stats w) + 1)
    ∧ stderr w' = stderr w ++ [JitBackupCreated p p].
Proof.
  intros storage ctx p w.
  apply (X16_backup_onto_itself_empties_the_file ctx p w [Byte.x41; Byte.x42]);
    [ apply lookup_singleton_eq | vm_compute; discriminate
    | apply not_elem_of_empty | vm_compute; reflexivity ].
Defined.

(** X17: when [create_jit_backup] cannot [stat] its source, or cannot
    open it, or cannot open the backup file, it returns -1 and that is
    all: no file is changed, no backup is counted, no descriptor stays
    open, and nothing is printed. *)
Theorem X17_backup_errors_are_silent (ctx : sentinelfs_context_t) (p : string)
    (w : world)
    (Hfail : files w !! p = None
             ∨ ∃ data : list byte,
                 files w !! p = Some data
                 ∧ Z.of_nat (length data) ≤ JIT_BACKUP_MAX_SIZE
                 ∧ (p ∈ denied w ∨ get_backup_path ctx p w ∈ denied w)) :
  ∃ w' : world,
    (∀ fuel, create_jit_backup fuel ctx p w = Some (-1, w'))
    ∧ files w' = files w
    ∧ stats w' = stats w
    ∧ open_fds w' = open_fds w
    ∧ stderr w' = stderr w.
Proof.
  destruct Hfail as [Hmiss|(data & Hfile & Hsmall & Hden)].
  - eexists. split; [intros fuel; now apply create_jit_backup_missing|].
    now repeat split.
  - destruct (decide (p ∈ denied w)) as [Hsrc|Hsrc].
    + eexists. split;
        [intros fuel; now apply (create_jit_backup_source_denied ctx p w data)|].
      now repeat split.
    + destruct Hden as [Hd|Hdst]; [contradiction|].
      eexists. split;
        [intros fuel; now apply (create_jit_backup_backup_denied ctx p w data)|].
      now repeat split.
Qed.

(** The file has been removed between the two [stat]s. *)
Lemma X17_backup_errors_are_silent_witness :
  let ctx := example_ctx (λ _, None) in
  let w := example_world ∅ 100 stats_init in
  ∃ w' : world,
    (∀ fuel, create_jit_backup fuel ctx "/srv/storage/gone.txt" w = Some (-1, w'))
    ∧ files w' = files w
    ∧ stats w' = stats w
    ∧ open_fds w' = open_fds w
    ∧ stderr w' = stderr w.
Proof.
  intros ctx w. apply X17_backup_errors_are_silent. left. reflexivity.
Defined.

(** ** Creating and removing files *)

(** X18: [sentinelfs_create] on a path that names no file, followed by
    [sentinelfs_unlink] of the same path, both succeed and leave the
    files, the free space, the counters and the descriptors as they were;
    and [sentinelfs_unlink] of a path that names no file returns
    [-ENOENT] and changes nothing. *)
Theorem X18_create_then_unlink_restores_the_storage
    (ctx : sentinelfs_context_t) (path : string) (w : world)
    (Hmissing : files w !! translate_path ctx path = None)
    (Hopen : translate_path ctx path ∉ denied w) :
  let created := sentinelfs_create ctx path w in
  let removed := sentinelfs_unlink ctx path (snd created) in
  fst created = 0
  ∧ files (snd created) !! translate_path ctx path = Some []
  ∧ fst removed = 0
  ∧ files (snd removed) = files w
  ∧ space (snd removed) = space w
  ∧ stats (snd removed) = stats w
  ∧ open_fds (snd removed) = open_fds w
  ∧ sentinelfs_unlink ctx path w = (- ENOENT, w).
Proof.
  unfold sentinelfs_create, sentinelfs_unlink, os_creat, os_unlink. wsimpl.
  rewrite Hmissing.
  destruct (decide (translate_path ctx path ∈ denied w)); [contradiction|].
  wsimpl. rewrite lookup_insert_eq. wsimpl. simpl default. simpl length.
  rewrite delete_insert_id by exact Hmissing.
  repeat split; try reflexivity; lia.
Qed.

(** A file that does not exist yet. *)
Lemma X18_create_then_unlink_restores_the_storage_witness :
  let ctx := example_ctx (λ _, None) in
  let w := example_world {[ "/srv/storage/a.txt" := [Byte.x41] ]} 7 stats_init in
  let created := sentinelfs_create ctx "/tmp.txt" w in
  let removed := sentinelfs_unlink ctx "/tmp.txt" (snd created) in
  fst created = 0
  ∧ files (snd created) !! translate_path ctx "/tmp.txt" = Some []
  ∧ fst removed = 0
  ∧ files (snd removed) = files w
  ∧ space (snd removed) = space w
  ∧ stats (snd removed) = stats w
  ∧ open_fds (snd removed) = open_fds w
  ∧ sentinelfs_unlink ctx "/tmp.txt" w = (- ENOENT, w).
Proof.
  intros ctx w.
  apply (X18_create_then_unlink_restores_the_storage ctx "/tmp.txt" w);
    [vm_compute; reflexivity|apply not_elem_of_empty].
Defined.

(** ** The context of [main] *)

(** X19: in the context that [main] builds, when the storage path
    leaves room, the backup directory is the concrete path of the
    virtual path [/.sentinelfs_backups], and the backup file of a file
    named [name] is the concrete path of a virtual path under it. Backups
    are files of the mount like the others: here [sentinelfs_unlink]
    removes one. *)
Theorem X19_backups_are_files_of_the_mount (storage name : string)
    (cookie : list byte → option string) (d : string) (w : world)
    (b : list byte)
    (Hname : "/"%char ∉ list_ascii_of_string name)
    (Hfit : (String.length storage + 21
             + String.length (name +:+ "." +:+ print_ld (clock w) +:+ ".backup")
             < MAX_PATH)%nat) :
  let ctx := main_context storage cookie in
  let entry := name +:+ "." +:+ print_ld (clock w) +:+ ".backup" in
  let backup := get_backup_path ctx (d +:+ "/" +:+ name) w in
  backup_path ctx = translate_path ctx ("/" +:+ BACKUP_DIR)
  ∧ backup = translate_path ctx ("/" +:+ BACKUP_DIR +:+ "/" +:+ entry)
  ∧ (files w !! backup = Some b →
     fst (sentinelfs_unlink ctx ("/" +:+ BACKUP_DIR +:+ "/" +:+ entry) w) = 0
     ∧ files (snd (sentinelfs_unlink ctx ("/" +:+ BACKUP_DIR +:+ "/" +:+ entry) w))
         !! backup = None).
Proof.
  intros ctx entry backup. fold entry in Hfit.
  assert (Hdir : backup_path ctx = storage +:+ "/" +:+ BACKUP_DIR).
  { unfold ctx, main_context. simpl backup_path. apply snprintf_fits.
    rewrite string_app_length. unfold MAX_PATH in *.
    change (String.length ("/" +:+ BACKUP_DIR)) with 20%nat. lia. }
  assert (H1 : translate_path ctx ("/" +:+ BACKUP_DIR) = storage +:+ "/" +:+ BACKUP_DIR).
  { unfold translate_path. simpl storage_path. apply snprintf_fits.
    rewrite string_app_length. unfold MAX_PATH in *.
    change (String.length ("/" +:+ BACKUP_DIR)) with 20%nat. lia. }
  assert (H2 : backup = translate_path ctx ("/" +:+ BACKUP_DIR +:+ "/" +:+ entry)).
  { unfold backup. rewrite get_backup_path_basename by exact Hname.
    rewrite Hdir. unfold translate_path. simpl storage_path.
    f_equal. rewrite !string_app_assoc. reflexivity. }
  split; [congruence|]. split; [exact H2|].
  intros Hb. unfold sentinelfs_unlink, os_unlink. rewrite <- H2, Hb. wsimpl.
  split; [reflexivity|]. apply lookup_delete_eq.
Qed.

(** The backup of [doc.txt], removed through the mount. *)
Lemma X19_backups_are_files_of_the_mount_witness :
  let ctx := main_context "/srv/storage" (λ _, None) in
  let backup := "/srv/storage/.sentinelfs_backups/doc.txt.1700000000.backup" in
  let w := example_world {[ backup := [Byte.x64] ]} 0 stats_init in
  backup_path ctx = translate_path ctx "/.sentinelfs_backups"
  ∧ get_backup_path ctx "/srv/storage/doc.txt" w
    = translate_path ctx "/.sentinelfs_backups/doc.txt.1700000000.backup"
  ∧ fst (sentinelfs_unlink ctx "/.sentinelfs_backups/doc.txt.1700000000.backup" w)
    = 0
  ∧ files (snd (sentinelfs_unlink ctx
                  "/.sentinelfs_backups/doc.txt.1700000000.backup" w))
      !! backup = None.
Proof.
  intros ctx backup w.
  destruct (X19_backups_are_files_of_the_mount "/srv/storage" "doc.txt"
              (λ _, None) "/srv/storage" w [Byte.x64]) as (H1 & H2 & H3).
  - rewrite list_elem_of_In. simpl. intuition discriminate.
  - apply Nat.ltb_lt. vm_compute. reflexivity.
  - split; [exact H1|]. split; [exact H2|]. apply H3. vm_compute. reflexivity.
Defined.

(** ** The arguments handed to FUSE *)

Lemma fuse_argv_loop_length (todo i : nat) (argv : list string)
    (a : list (option string)) :
  length (fuse_argv_loop todo i argv a) = length a.
Proof.
  revert i a. induction todo as [|todo IH]; intros i a; [reflexivity|].
  simpl. rewrite IH. apply length_insert.
Qed.

(** The loop fills the slots [i - 1], ..., [i + todo - 2] and no other. *)
Lemma fuse_argv_loop_lookup (todo i j : nat) (argv : list string)
    (a : list (option string)) :
  (1 ≤ i)%nat → (i - 1 + todo ≤ length a)%nat →
  fuse_argv_loop todo i argv a !! j
  = if decide (i - 1 ≤ j < i - 1 + todo)%nat then Some (argv !! S j)
    else a !! j.
Proof.
  revert i a. induction todo as [|todo IH]; intros i a Hi Hlen.
  - simpl. destruct (decide _); [lia|reflexivity].
  - simpl. rewrite IH by (rewrite ?length_insert; lia).
    destruct (decide (S i - 1 ≤ j < S i - 1 + todo)%nat) as [H|H].
    + destruct (decide _); [reflexivity|lia].
    + destruct (decide (j = i - 1)%nat) as [->|Hne].
      * rewrite list_lookup_insert_eq by lia.
        destruct (decide _); [|lia]. do 2 f_equal. lia.
      * rewrite list_lookup_insert_ne by lia.
        destruct (decide _); [lia|reflexivity].
Qed.

(** X20: with at least a storage path and a mount point ([argc >= 3]),
    the argument vector that [main] hands to FUSE has [argc] slots: the
    program name, then every argument after the storage path, in order
    (the mount point comes first), then the null pointer. The storage
    path is the one argument FUSE does not see. *)
Theorem X20_fuse_arguments_skip_the_storage_path (argv : list string)
    (Hargc : (3 ≤ length argv)%nat) :
  ∃ fuse_argv : list (option string),
    main_fuse_argv argv = Some fuse_argv
    ∧ length fuse_argv = length argv
    ∧ fuse_argv !! 0%nat = Some (argv !! 0%nat)
    ∧ (∀ j : nat, (1 ≤ j < length argv - 1)%nat →
         fuse_argv !! j = Some (argv !! S j))
    ∧ fuse_argv !! (length argv - 1)%nat = Some None.
Proof.
  unfold main_fuse_argv. rewrite (proj2 (Nat.ltb_ge _ _) Hargc).
  eexists. split; [reflexivity|].
  assert (Hlen : length (<[0%nat := argv !! 0%nat]>
                          (replicate (length argv - 1 + 1) (@None string)))
                 = length argv)
    by (rewrite length_insert, length_replicate; lia).
  split; [now rewrite length_insert, fuse_argv_loop_length|].
  split; [|split].
  - rewrite list_lookup_insert_ne by lia.
    rewrite fuse_argv_loop_lookup by lia.
    destruct (decide _); [lia|]. apply list_lookup_insert_eq.
    rewrite length_replicate. lia.
  - intros j Hj. rewrite list_lookup_insert_ne by lia.
    rewrite fuse_argv_loop_lookup by lia.
    destruct (decide _); [reflexivity|lia].
  - apply list_lookup_insert_eq. rewrite fuse_argv_loop_length. lia.
Qed.

(** [sentinelfs /srv/storage /mnt/safe -f]. *)
Lemma X20_fuse_arguments_skip_the_storage_path_witness :
  main_fuse_argv ["sentinelfs"; "/srv/storage"; "/mnt/safe"; "-f"]
  = Some [Some "sentinelfs"; Some "/mnt/safe"; Some "-f"; None].
Proof.
  destruct (X20_fuse_arguments_skip_the_storage_path
              ["sentinelfs"; "/srv/storage"; "/mnt/safe"; "-f"])
    as (a & -> & Hlen & H0 & Hj & Hlast); [simpl; lia|].
  pose proof (Hj 1%nat ltac:(simpl; lia)) as H1.
  pose proof (Hj 2%nat ltac:(simpl; lia)) as H2.
  destruct a as [|a0 [|a1 [|a2 [|a3 [|]]]]]; try discriminate Hlen.
  simpl in H0, H1, H2, Hlast. congruence.
Defined.

(** ** Files above the cap *)

(** X21: a write at offset 0 to a file of more than the cap goes on
    without a backup: the "skipping" diagnostic is printed, no file but
    the target is touched, [backups_created] keeps its value, and the
    payload is then examined and written like any other. *)
Theorem X21_large_files_are_written_without_backup
    (ctx : sentinelfs_context_t) (path : string) (buf data : list byte)
    (w : world)
    (Hfile : files w !! translate_path ctx path = Some data)
    (Hbig : JIT_BACKUP_MAX_SIZE < Z.of_nat (length data)) :
  let full_path := translate_path ctx path in
  ∃ (r : Z) (w' : world),
    returns (λ fuel, sentinelfs_write fuel ctx path buf 0 w) (r, w')
    ∧ SkippingBackup full_path ∈ stderr w'
    ∧ (∀ p : string, p ≠ full_path → files w' !! p = files w !! p)
    ∧ backups_created (stats w') = backups_created (stats w)
    ∧ (fst (detect_ransomware ctx buf w) ≠ 0 →
       r = - EIO ∧ files w' !! full_path = Some data).
Proof.
  intros full_path. fold full_path in Hfile.
  assert (Hne : data ≠ []).
  { intros ->. unfold JIT_BACKUP_MAX_SIZE in Hbig. simpl in Hbig. lia. }
  set (wb := eprint (SkippingBackup full_path)
               (sys (SysStat full_path) (sys (SysStat full_path) w))).
  assert (Hphase : returns (λ fuel, write_backup_phase fuel ctx full_path 0 w) wb).
  { apply (write_backup_phase_nonempty ctx full_path w data 0 wb Hfile Hne).
    apply returns_const. intros fuel.
    now apply (create_jit_backup_too_large ctx full_path _ data). }
  destruct (sentinelfs_write_returns_frame ctx path buf 0 w)
    as (w1 & r & w' & Hret1 & Hret & Hfiles & _ & _ & Hstats & Herr).
  assert (w1 = wb) as -> by (eapply returns_unique; eassumption).
  destruct (detect_ransomware_frame ctx buf wb)
    as (Hf & _ & _ & _ & _ & _ & Hb & _).
  exists r, w'. split; [exact Hret|]. split.
  { rewrite Herr. destruct (detect_ransomware_stderr ctx buf wb) as [l ->].
    unfold wb. wsimpl. rewrite elem_of_app. left. rewrite elem_of_app. right.
    apply list_elem_of_singleton. reflexivity. }
  split; [intros p Hp; now rewrite Hfiles|].
  split; [now rewrite Hstats, Hb|].
  intros Hblock.
  pose proof (sentinelfs_write_blocked ctx path buf 0 w wb Hphase Hblock) as Hbl.
  pose proof (returns_unique _ _ _ Hret Hbl) as Heq. injection Heq as -> ->.
  split; [reflexivity|]. rewrite Hf. exact Hfile.
Qed.

(** ** Two write callbacks at once *)

(** X23: the counters of two calls of [detect_ransomware]. A call whose
    accesses to [stats] are not interleaved with those of another call
    ends with the result and the counters of [detect_ransomware], and two
    such calls one after the other with those of the second call after
    the first. When the accesses of two blocked calls interleave, an
    increment of [total_writes] can be lost: from counters that are zero
    the two calls can end with [total_writes = 1] and
    [blocked_writes = 2]. *)
Theorem X23_overlapping_writes_can_lose_a_count (ctx : sentinelfs_context_t)
    (buf1 buf2 : list byte) (w : world) :
  let w1 := snd (detect_ransomware ctx buf1 w) in
  let w2 := snd (detect_ransomware ctx buf2 w1) in
  let blocks1 := negb (fst (detect_ransomware ctx buf1 w) =? 0) in
  let blocks2 := negb (fst (detect_ransomware ctx buf2 w1) =? 0) in
  run_gates blocks1 blocks2 [true; true; true; true; false; false; false; false]
    GateEntered GateEntered (stats w)
  = (GateReturned (fst (detect_ransomware ctx buf1 w)),
     GateReturned (fst (detect_ransomware ctx buf2 w1)), stats w2)
  ∧ run_gates true true [true; false; true; false; true; true; false; false]
      GateEntered GateEntered stats_init
    = (GateReturned (- EIO), GateReturned (- EIO),
       {| total_writes := 1; blocked_writes := 2; backups_created := 0 |})
  ∧ ¬ blocked_writes {| total_writes := 1; blocked_writes := 2;
                        backups_created := 0 |}
      ≤ total_writes {| total_writes := 1; blocked_writes := 2;
                        backups_created := 0 |}.
Proof.
  intros w1 w2 blocks1 blocks2. split; [|split; [reflexivity|simpl; lia]].
  subst w2 blocks2 blocks1 w1.
  destruct (is_whitelisted_file_world ctx buf1
              (set_stats (incr_total_writes (stats w)) w)) as [Hw|Hw];
    destruct (detect_ransomware_cases ctx buf1 w)
      as [(_ & ->)|[(_ & _ & ->)|(_ & _ & ->)]];
    rewrite Hw; cbn [fst snd];
    match goal with
    | |- context [detect_ransomware ctx buf2 ?w'] =>
        destruct (is_whitelisted_file_world ctx buf2
                    (set_stats (incr_total_writes (stats w')) w')) as [Hw'|Hw'];
        destruct (detect_ransomware_cases ctx buf2 w')
          as [(_ & ->)|[(_ & _ & ->)|(_ & _ & ->)]];
        rewrite Hw'; reflexivity
    end.
Qed.

(** ** The exponent range of binary64 *)

Lemma RN_powerRZ (e : Z) : RN (powerRZ 2 e) = powerRZ 2 e.
Proof.
  pose proof (powerRZ_2_pos e) as Hp. rewrite RN_pos by exact Hp.
  rewrite (binade_unique (powerRZ 2 e) e) by (rewrite powerRZ_2_succ; lra).
  rewrite <- powerRZ_add by lra. replace (e + (52 - e)) with 52 by lia.
  change (powerRZ 2 52) with (2 ^ 52)%R. rewrite <- (IZR_pow2 52).
  rewrite round_half_even_IZR, (IZR_pow2 52).
  change (2 ^ 52)%R with (powerRZ 2 52). rewrite <- powerRZ_add by lra.
  f_equal. lia.
Qed.

Lemma unit_roundoff_half : (0 < / 2 ^ 53 <= / 2)%R.
Proof.
  split; [apply Rinv_0_lt_compat, pow_lt; lra|].
  apply Rinv_le_contravar; [lra|]. replace 2%R with (2 ^ 1)%R at 1 by (simpl; lra).
  apply Rle_pow; [lra|lia].
Qed.

(** The largest [double] below 1 is [1 - 2^-53]. *)
Lemma RN_below_1 (x : R) :
  (0 < x)%R → (RN x < 1)%R → (RN x <= 1 - / 2 ^ 53)%R.
Proof.
  intros Hx Hlt. pose proof unit_roundoff_half as [Hh0 Hh1].
  destruct (RN_binade x Hx) as [B1 B2].
  destruct (Z_lt_le_dec (binade x) (-1)) as [Hlow|Hge].
  - apply Rle_trans with (powerRZ 2 (-1)).
    + eapply Rle_trans; [exact B2|]. apply powerRZ_2_le. lia.
    + change (powerRZ 2 (-1)) with (/ 2 ^ 1)%R. simpl pow at 1. lra.
  - destruct (Z.eq_dec (binade x) (-1)) as [He|Hne].
    + rewrite (RN_pos x Hx) in *. rewrite He in *.
      set (n := round_half_even (x * powerRZ 2 (52 - -1))) in *.
      change (powerRZ 2 (-1 - 52)) with (/ 2 ^ 53)%R in *.
      assert (Hn : (IZR n < 2 ^ 53)%R).
      { apply Rmult_lt_reg_r with (/ 2 ^ 53)%R; [exact Hh0|].
        rewrite Rinv_r by (apply pow_nonzero; lra). exact Hlt. }
      rewrite <- (IZR_pow2 53) in Hn. apply lt_IZR in Hn.
      assert (Hn' : n ≤ 2 ^ Z.of_nat 53 - 1) by lia.
      apply IZR_le in Hn'. rewrite minus_IZR, IZR_pow2 in Hn'.
      apply Rle_trans with ((2 ^ 53 - 1) * / 2 ^ 53)%R.
      * apply Rmult_le_compat_r; lra.
      * right. field.
    + exfalso.
      assert (H : (powerRZ 2 0 <= powerRZ 2 (binade x))%R)
        by (apply powerRZ_2_le; lia).
      simpl in H. lra.
Qed.

Lemma log2_below_1 (p : R) :
  (0 < p <= 1 - / 2 ^ 53)%R → (log2 p <= - / 2 ^ 53)%R.
Proof.
  intros [Hp0 Hp1]. pose proof (ln_le_pred p Hp0) as Hln.
  pose proof ln2_pos as H2. pose proof ln2_lt_1 as H2'.
  pose proof unit_roundoff_half as [Hh0 _].
  unfold log2. apply Rmult_le_reg_r with (ln 2); [lra|].
  replace (ln p / ln 2 * ln 2)%R with (ln p) by (field; lra). nra.
Qed.

Lemma log2_powerRZ (e : Z) : log2 (powerRZ 2 e) = IZR e.
Proof.
  unfold log2. rewrite powerRZ_2_exp, ln_exp. field.
  pose proof ln2_pos. lra.
Qed.

Lemma in_binary64_range_pos (x : R) (lo hi : Z) :
  -1022 ≤ lo → hi ≤ 1023 →
  (powerRZ 2 lo <= x <= powerRZ 2 hi)%R → in_binary64_range x.
Proof.
  intros Hlo Hhi [H1 H2]. right. pose proof (powerRZ_2_pos lo).
  rewrite Rabs_pos_eq by lra.
  pose proof (powerRZ_2_le (-1022) lo Hlo). pose proof (powerRZ_2_le hi 1023 Hhi).
  lra.
Qed.

Lemma in_binary64_range_neg (x : R) (lo hi : Z) :
  -1022 ≤ lo → hi ≤ 1023 →
  (powerRZ 2 lo <= - x <= powerRZ 2 hi)%R → in_binary64_range x.
Proof.
  intros Hlo Hhi H. destruct (in_binary64_range_pos (- x) lo hi Hlo Hhi H) as [H0|H0].
  - left. lra.
  - right. now rewrite Rabs_Ropp in H0.
Qed.

(** One iteration: the operands are in the range, and the accumulator is
    zero or at least [2^-118], and at most doubles. *)
Lemma entropy_step_in_range (len c : nat) (e : R) (k : Z) :
  log2_accurate libm_log2 → (0 < c ≤ len)%nat → Z.of_nat len < 2 ^ 64 →
  0 ≤ k ≤ 256 →
  (e = 0 ∨ powerRZ 2 (-118) <= e)%R → (e <= powerRZ 2 (7 + k))%R →
  let e' := entropy_step len e (Z.of_nat c) in
  Forall in_binary64_range (entropy_step_operands len e (Z.of_nat c))
  ∧ (e' = 0 ∨ powerRZ 2 (-118) <= e')%R
  ∧ (e' <= powerRZ 2 (7 + (k + 1)))%R.
Proof.
  intros Hacc [Hc Hle] Hlen Hk He0 He1 e'. subst e'.
  unfold entropy_step_operands, entropy_step.
  replace (0 <? Z.of_nat c) with true by (symmetry; apply Z.ltb_lt; lia).
  cbv zeta. rewrite <- INR_IZR_INZ.
  pose proof unit_roundoff_half as [Hh0 Hh1].
  (* the counts *)
  assert (HC : (1 <= INR c)%R) by (apply (le_INR 1 c); lia).
  assert (HCN : (INR c <= INR len)%R) by (apply le_INR; lia).
  assert (HN : (INR len <= powerRZ 2 64)%R).
  { rewrite INR_IZR_INZ. change (powerRZ 2 64) with (2 ^ 64)%R.
    rewrite <- (IZR_pow2 64). apply IZR_le. change (Z.of_nat 64) with 64. lia. }
  assert (Ha : (1 <= RN (INR c) <= powerRZ 2 64)%R).
  { split; [rewrite <- RN_1; apply RN_mono; lra|].
    rewrite <- (RN_powerRZ 64). apply RN_mono; lra. }
  assert (Hb : (1 <= RN (INR len) <= powerRZ 2 64)%R).
  { split; [rewrite <- RN_1; apply RN_mono; lra|].
    rewrite <- (RN_powerRZ 64). apply RN_mono; lra. }
  assert (Hab : (RN (INR c) <= RN (INR len))%R) by (apply RN_mono; lra).
  set (a := RN (INR c)) in *. set (b := RN (INR len)) in *.
  pose proof (powerRZ_2_pos (-64)) as Hm64.
  assert (Hr : (powerRZ 2 (-64) <= a / b <= 1)%R).
  { split.
    - change (powerRZ 2 (-64)) with (/ powerRZ 2 64)%R. unfold Rdiv.
      apply Rle_trans with (1 * / powerRZ 2 64)%R; [lra|].
      apply Rmult_le_compat; try lra.
      + left. apply Rinv_0_lt_compat. lra.
      + apply Rinv_le_contravar; lra.
    - apply Rmult_le_reg_r with b; [lra|]. unfold Rdiv.
      rewrite Rmult_assoc, Rinv_l by lra. lra. }
  set (r := (a / b)%R) in *.
  assert (Hp : (powerRZ 2 (-64) <= RN r <= 1)%R).
  { split; [rewrite <- (RN_powerRZ (-64)); apply RN_mono; lra|].
    apply RN_le_1. lra. }
  pose proof (RN_below_1 r) as Hbelow.
  set (p := RN r) in *.
  (* the logarithm *)
  assert (HL : (-64 <= log2 p <= 0)%R).
  { split.
    - change (-64)%R with (IZR (-64)). rewrite <- (log2_powerRZ (-64)).
      apply log2_le; lra.
    - rewrite <- log2_1. apply log2_le; lra. }
  pose proof (Hacc p) as Hl. unfold libm_log2_error in Hl.
  assert (He50 : (0 < / 2 ^ 50 <= / 2)%R).
  { split; [apply Rinv_0_lt_compat, pow_lt; lra|].
    apply Rinv_le_contravar; [lra|]. replace 2%R with (2 ^ 1)%R at 1 by (simpl; lra).
    apply Rle_pow; [lra|lia]. }
  rewrite (Rabs_left1 (log2 p)) in Hl by lra.
  assert (Hl' : (- (/ 2 ^ 50 * - log2 p) <= libm_log2 p - log2 p
                 <= / 2 ^ 50 * - log2 p)%R)
    by (apply Rabs_le_between, Hl; lra).
  clear Hl. set (l := libm_log2 p) in *. set (L := log2 p) in *.
  set (eps := (/ 2 ^ 50)%R) in *. set (h := (/ 2 ^ 53)%R) in *.
  assert (Hm54 : (powerRZ 2 (-54) = h / 2)%R).
  { unfold h. change (powerRZ 2 (-54)) with (/ 2 ^ 54)%R.
    replace (2 ^ 54)%R with (2 * 2 ^ 53)%R by (simpl; lra).
    field. }
  assert (Hlr : (l = 0 ∨ (powerRZ 2 (-54) <= - l <= powerRZ 2 7))%R).
  { destruct (Req_dec p 1) as [H1|H1].
    - left. assert (L = 0)%R by (unfold L; rewrite H1; apply log2_1). nra.
    - right. assert (HLh : (L <= - h)%R).
      { unfold L. apply log2_below_1. split; [lra|]. apply Hbelow; lra. }
      rewrite Hm54. change (powerRZ 2 7) with (2 ^ 7)%R. simpl pow. nra. }
  pose proof (powerRZ_2_pos (-54)) as Hm54pos.
  pose proof (powerRZ_2_pos (-118)) as Hm118pos.
  assert (Hm118 : (powerRZ 2 (-118) = powerRZ 2 (-64) * powerRZ 2 (-54))%R)
    by (rewrite <- powerRZ_add by lra; reflexivity).
  assert (Hplr : (p * l = 0 ∨ (powerRZ 2 (-118) <= - (p * l) <= powerRZ 2 7))%R).
  { destruct Hlr as [->|[Hl1 Hl2]]; [left; ring|right].
    rewrite Hm118. replace (- (p * l))%R with (p * - l)%R by ring. split.
    - apply Rmult_le_compat; lra.
    - apply Rle_trans with (1 * - l)%R; [|lra].
      apply Rmult_le_compat_r; lra. }
  assert (Htr : (RN (p * l) = 0 ∨ (powerRZ 2 (-118) <= - RN (p * l) <= powerRZ 2 7))%R).
  { destruct Hplr as [->|[H1 H2]]; [left; apply RN_0|right].
    rewrite <- RN_opp. split.
    - rewrite <- (RN_powerRZ (-118)). apply RN_mono; lra.
    - rewrite <- (RN_powerRZ 7). apply RN_mono; lra. }
  set (t := RN (p * l)) in *.
  pose proof (powerRZ_2_pos 7) as H7pos.
  assert (H7k : (powerRZ 2 7 <= powerRZ 2 (7 + k))%R) by (apply powerRZ_2_le; lia).
  assert (Hk1 : (powerRZ 2 (7 + (k + 1)) = 2 * powerRZ 2 (7 + k))%R).
  { replace (7 + (k + 1)) with (7 + k + 1) by lia. apply powerRZ_2_succ. }
  assert (Hsr : (e - t = 0 ∨ (powerRZ 2 (-118) <= e - t <= powerRZ 2 (7 + (k + 1))))%R).
  { rewrite Hk1. destruct He0 as [->|He0], Htr as [->|[Ht1 Ht2]]; [left; ring|right..];
      lra. }
  assert (He' : (RN (e - t) = 0
                 ∨ (powerRZ 2 (-118) <= RN (e - t) <= powerRZ 2 (7 + (k + 1))))%R).
  { destruct Hsr as [->|[H1 H2]]; [left; apply RN_0|right]. split.
    - rewrite <- (RN_powerRZ (-118)). apply RN_mono; lra.
    - rewrite <- (RN_powerRZ (7 + (k + 1))). apply RN_mono; lra. }
  split; [|split].
  - repeat apply Forall_cons_2; [| | | | | |apply Forall_nil_2].
    + apply (in_binary64_range_pos _ 0 64); [lia|lia|]. simpl powerRZ at 1. lra.
    + apply (in_binary64_range_pos _ 0 64); [lia|lia|]. simpl powerRZ at 1. lra.
    + apply (in_binary64_range_pos _ (-64) 0); [lia|lia|]. simpl powerRZ at 2. lra.
    + destruct Hlr as [->|H]; [now left|].
      apply (in_binary64_range_neg _ (-54) 7); [lia|lia|exact H].
    + destruct Hplr as [->|H]; [now left|].
      apply (in_binary64_range_neg _ (-118) 7); [lia|lia|exact H].
    + destruct Hsr as [->|H]; [now left|].
      apply (in_binary64_range_pos _ (-118) (7 + (k + 1))); [lia|lia|exact H].
  - destruct He' as [->|[H _]]; [now left|now right].
  - destruct He' as [->|[_ H]]; [|exact H]. left. apply powerRZ_2_pos.
Qed.

(** The loop over a table of counts: the operands are in the range, and
    so is what the loop leaves in the accumulator. *)
Lemma entropy_operands_in_range (len : nat) (counts : list nat) :
  log2_accurate libm_log2 → Z.of_nat len < 2 ^ 64 →
  (∀ c, c ∈ counts → (c ≤ len)%nat) →
  ∀ (e : R) (k : Z),
    0 ≤ k → k + Z.of_nat (length counts) ≤ 256 →
    (e = 0 ∨ powerRZ 2 (-118) <= e)%R → (e <= powerRZ 2 (7 + k))%R →
    let r := fold_left (entropy_step len) (Z.of_nat <$> counts) e in
    Forall in_binary64_range (entropy_operands len e (Z.of_nat <$> counts))
    ∧ (r = 0 ∨ powerRZ 2 (-118) <= r)%R
    ∧ (r <= powerRZ 2 (7 + 256))%R.
Proof.
  intros Hacc Hlen. induction counts as [|c counts IH]; intros Hle e k Hk0 Hk He0 He1.
  - rewrite fmap_nil. cbn [fold_left entropy_operands]. cbv zeta.
    split; [constructor|]. split; [exact He0|].
    eapply Rle_trans; [exact He1|]. apply powerRZ_2_le. simpl length in Hk. lia.
  - assert (Hc : (c ≤ len)%nat) by (apply Hle, elem_of_cons; now left).
    assert (Hle' : ∀ c', c' ∈ counts → (c' ≤ len)%nat)
      by (intros c' Hc'; apply Hle, elem_of_cons; now right).
    rewrite fmap_cons. cbn [fold_left entropy_operands]. cbv zeta.
    simpl length in Hk.
    destruct (decide (0 < c)%nat) as [Hpos|Hzero].
    + destruct (entropy_step_in_range len c e k Hacc) as (Hops & Hr0 & Hr1);
        try assumption; try lia.
      cbv zeta in Hr0, Hr1.
      destruct (IH Hle' (entropy_step len e (Z.of_nat c)) (k + 1))
        as (Hrest & Hf0 & Hf1); try assumption; try lia.
      cbv zeta in Hf0, Hf1. split; [|now split].
      apply Forall_app. now split.
    + assert (c = 0%nat) as -> by lia.
      change (entropy_step_operands len e (Z.of_nat 0)) with (@nil R).
      change (entropy_step len e (Z.of_nat 0)) with e.
      destruct (IH Hle' e k) as (Hrest & Hf0 & Hf1); try assumption; try lia.
      cbv zeta in Hf0, Hf1. split; [|now split]. exact Hrest.
Qed.

(** X24: the computation of [calculate_entropy] stays in the range of
    the normal numbers of binary64. On a buffer of fewer than [2^64]
    bytes, with a [log2] of relative error at most [2^-50], every value
    that the function converts or rounds (the counts, the length, the
    quotients, the products, the partial sums) and every logarithm that
    the C library returns to it is zero or of a magnitude between
    [2^-1022] and [2^1023]: no operation underflows or overflows, and the
    rounding of each is the rounding to 53 bits, [RN]. *)
Theorem X24_entropy_stays_in_binary64_range (b : list byte)
    (Hacc : log2_accurate libm_log2) (Hlen : Z.of_nat (length b) < 2 ^ 64) :
  Forall in_binary64_range (calculate_entropy_operands b)
  ∧ in_binary64_range (calculate_entropy b).
Proof.
  unfold calculate_entropy_operands, calculate_entropy.
  destruct (length b =? 0)%nat; [split; [constructor|now left]|].
  rewrite count_bytes_spec by exact Hlen.
  rewrite (list_fmap_compose (λ v, occurrences v b) Z.of_nat).
  destruct (entropy_operands_in_range (length b)
              ((λ v, occurrences v b) <$> seq 0 256) Hacc Hlen)
    with (e := 0%R) (k := 0) as (Hops & Hr0 & Hr1).
  - intros c Hc. apply list_elem_of_fmap in Hc as (v & -> & _).
    apply occurrences_le.
  - lia.
  - rewrite length_fmap, length_seq. lia.
  - now left.
  - left. apply powerRZ_2_pos.
  - cbv zeta in Hr0, Hr1. split; [exact Hops|].
    destruct Hr0 as [->|Hr0]; [now left|].
    apply (in_binary64_range_pos _ (-118) (7 + 256)); [lia|lia|now split].
Qed.

End Program.

(** * Concrete inputs

    The theorems that involve the gate, and the inputs on which the
    specification fails, with the correctly rounded [log2] for the
    function of the C library. *)

(** The correctly rounded [log2] is accurate to half a unit in the last
    place. *)
Lemma rounded_log2_accurate : log2_accurate rounded_log2.
Proof.
  intros x _. unfold rounded_log2. pose proof (RN_error (log2 x)) as H.
  pose proof (Rabs_pos (log2 x)). pose proof unit_roundoff_bounds.
  rewrite libm_log2_error_eq. nra.
Qed.

(** C6, as the specification states it, fails: the value that
    [calculate_entropy] returns is a [double], and the Shannon entropy of
    eleven distinct bytes, [log2 11], is none, whatever the [log2] of the
    C library computes. *)
Lemma C6_entropy_of_eleven_distinct_bytes :
  let b := take 11 all_bytes in
  length b = 11%nat
  ∧ NoDup b
  ∧ shannon_entropy b = log2 11
  ∧ ∀ libm_log2 : R → R, calculate_entropy libm_log2 b ≠ shannon_entropy b.
Proof.
  intros b.
  assert (Hnd : NoDup b) by (apply (bool_decide_unpack _); vm_compute; reflexivity).
  assert (Hs : shannon_entropy b = log2 11).
  { rewrite shannon_entropy_NoDup; [|exact Hnd|discriminate].
    replace (length b) with 11%nat by (vm_compute; reflexivity).
    f_equal. rewrite INR_IZR_INZ. reflexivity. }
  split; [reflexivity|]. split; [exact Hnd|]. split; [exact Hs|].
  intros libm_log2 Heq. rewrite Hs in Heq.
  destruct (calculate_entropy_dyadic libm_log2 b) as (m & ex & Hd).
  rewrite Heq in Hd. exact (log2_11_not_dyadic m ex Hd).
Qed.

(** Four times the same byte, with the correctly rounded [log2]. *)
Lemma C6_entropy_is_shannon_entropy_rounded_witness :
  let b := [Byte.x41; Byte.x41; Byte.x41; Byte.x41] in
  (0 <= calculate_entropy rounded_log2 b <= 8 + entropy_tolerance)%R
  ∧ (b = [] → calculate_entropy rounded_log2 b = 0%R)
  ∧ (∀ x : byte, (∀ y, y ∈ b → y = x) → calculate_entropy rounded_log2 b = 0%R)
  ∧ (Rabs (calculate_entropy rounded_log2 b - shannon_entropy b)
     <= entropy_tolerance)%R
  ∧ (∃ m ex : Z, calculate_entropy rounded_log2 b = (IZR m * powerRZ 2 ex)%R).
Proof.
  intros b.
  apply (C6_entropy_is_shannon_entropy_rounded rounded_log2 b rounded_log2_accurate).
  vm_compute. reflexivity.
Defined.

(** Every byte value once, of unknown type, is blocked and counted; the empty buffer is allowed. *)
Lemma C5_gate_blocks_iff_unsafe_and_high_entropy_witness :
  let ctx := example_ctx (λ _, Some "application/octet-stream") in
  let w := example_world ∅ 0 stats_init in
  fst (detect_ransomware rounded_log2 ctx all_bytes w) = - EIO
  ∧ blocked_writes (stats (snd (detect_ransomware rounded_log2 ctx all_bytes w))) = 1
  ∧ fst (detect_ransomware rounded_log2 ctx [] w) = 0.
Proof.
  intros ctx w.
  pose proof (C5_gate_blocks_iff_unsafe_and_high_entropy rounded_log2 ctx all_bytes w) as H.
  cbv zeta in H. destruct H as (Hblock & _ & Hcount & _).
  assert (Hr : fst (detect_ransomware rounded_log2 ctx all_bytes w) = - EIO).
  { apply Hblock. split; [vm_compute; reflexivity|].
    exact (calculate_entropy_all_bytes rounded_log2 rounded_log2_accurate). }
  split; [exact Hr|]. split; [exact (Hcount Hr)|].
  pose proof (C5_gate_blocks_iff_unsafe_and_high_entropy rounded_log2 ctx [] w) as H.
  cbv zeta in H. destruct H as (_ & _ & _ & _ & _ & _ & Hempty).
  now apply Hempty.
Defined.



(** C9 fails on the code: a blocked write at offset 0 to a file of the
    backup directory whose concrete path has [MAX_PATH - 1] bytes (the
    storage directory lies 15 directories deep, the names are of 255 and
    234 bytes) returns [-EIO] and leaves the file empty. The backup path
    of that file, cut to [MAX_PATH - 1] bytes, is its own path, and
    [create_jit_backup] opens it for writing before the gate is asked.
    The payload, every byte value once, is blocked with every [log2] of
    the C library that is accurate to [2^-50]. *)
Theorem C9_blocked_write_empties_its_target (libm_log2 : R → R)
    (Hacc : log2_accurate libm_log2) :
  let ctx := main_context (deep_directory 15)
               (λ _, Some "application/octet-stream") in
  let path := "/.sentinelfs_backups/" +:+ string_of_chars 234 "f" in
  let full_path := translate_path ctx path in
  let w := example_world {[ full_path := [Byte.x41; Byte.x42] ]} 100
             stats_init in
  String.length full_path = 4095%nat
  ∧ fst (detect_ransomware libm_log2 ctx all_bytes w) = - EIO
  ∧ files w !! full_path = Some [Byte.x41; Byte.x42]
  ∧ ∃ w' : world,
      returns (λ fuel, sentinelfs_write libm_log2 fuel ctx path all_bytes 0 w)
        (- EIO, w')
      ∧ files w' !! full_path = Some [].
Proof.
  intros ctx path full_path w.
  assert (Hblock : fst (detect_ransomware libm_log2 ctx all_bytes w) = - EIO).
  { apply detect_ransomware_high; [vm_compute; reflexivity|].
    exact (calculate_entropy_all_bytes libm_log2 Hacc). }
  assert (Hfile : files w !! full_path = Some [Byte.x41; Byte.x42])
    by apply lookup_singleton_eq.
  split; [vm_compute; reflexivity|]. split; [exact Hblock|]. split; [exact Hfile|].
  destruct (sentinelfs_write_blocked_onto_itself libm_log2 ctx path all_bytes w
              [Byte.x41; Byte.x42]) as (w' & Hret & Hfiles).
  - rewrite Hblock. discriminate.
  - exact Hfile.
  - discriminate.
  - vm_compute. discriminate.
  - apply not_elem_of_empty.
  - vm_compute. reflexivity.
  - exists w'. split; [exact Hret|]. fold full_path in Hfiles. rewrite Hfiles.
    apply lookup_insert_eq.
Qed.

(** The same with the correctly rounded [log2]. *)
Lemma C9_blocked_write_empties_its_target_witness :
  let ctx := main_context (deep_directory 15)
               (λ _, Some "application/octet-stream") in
  let path := "/.sentinelfs_backups/" +:+ string_of_chars 234 "f" in
  let full_path := translate_path ctx path in
  let w := example_world {[ full_path := [Byte.x41; Byte.x42] ]} 100
             stats_init in
  String.length full_path = 4095%nat
  ∧ fst (detect_ransomware rounded_log2 ctx all_bytes w) = - EIO
  ∧ files w !! full_path = Some [Byte.x41; Byte.x42]
  ∧ ∃ w' : world,
      returns (λ fuel, sentinelfs_write rounded_log2 fuel ctx path all_bytes 0 w)
        (- EIO, w')
      ∧ files w' !! full_path = Some [].
Proof.
  exact (C9_blocked_write_empties_its_target rounded_log2 rounded_log2_accurate).
Defined.

(** Every byte value once, written over an existing file at offset 0. *)
Lemma X22_blocked_write_stops_at_the_decision_witness :
  let ctx := example_ctx (λ _, Some "application/octet-stream") in
  let w := example_world {[ "/srv/storage/doc.txt" := [Byte.x41; Byte.x42] ]}
             100 stats_init in
  let full_path := translate_path ctx "/doc.txt" in
  ∃ (w1 w' : world),
    returns (λ fuel, write_backup_phase fuel ctx full_path 0 w) w1
    ∧ returns (λ fuel, sentinelfs_write rounded_log2 fuel ctx "/doc.txt" all_bytes 0 w)
        (- EIO, w')
    ∧ files w' = files w1
    ∧ trace w' = trace w1
    ∧ open_fds w' = open_fds w
    ∧ (∃ t : list syscall,
         trace w' = trace w ++ t ∧ Forall (λ c, payload_call c = false) t)
    ∧ (0 ≠ 0 → files w' = files w)
    ∧ (get_backup_path ctx full_path w ≠ full_path →
       files w' !! full_path = files w !! full_path).
Proof.
  intros ctx w full_path.
  apply (X22_blocked_write_stops_at_the_decision rounded_log2 ctx "/doc.txt"
           all_bytes 0 w).
  unfold ctx.
  rewrite (detect_ransomware_all_bytes rounded_log2 w rounded_log2_accurate).
  discriminate.
Defined.

(** C10, as the specification states it, fails: a write of a text buffer
    to a path below a regular file passes the gate, names no file, and
    returns [-ENOTDIR], not [-ENOENT]. *)
Lemma C10_write_below_a_regular_file :
  let ctx := example_ctx (λ _, Some "text/plain") in
  let w := example_world {[ "/srv/storage/a.txt" := [Byte.x41] ]} 100
             stats_init in
  let buf := [Byte.x68; Byte.x69] in
  files w !! translate_path ctx "/a.txt/x" = None
  ∧ (∀ libm_log2 : R → R,
       fst (detect_ransomware libm_log2 ctx buf w) = 0
       ∧ ∃ w' : world,
           (∀ fuel, sentinelfs_write libm_log2 fuel ctx "/a.txt/x" buf 0 w
                    = Some (- ENOTDIR, w'))
           ∧ files w' = files w)
  ∧ - ENOTDIR ≠ - ENOENT.
Proof.
  intros ctx w buf. split; [vm_compute; reflexivity|]. split; [|discriminate].
  intros libm_log2. split; [vm_compute; reflexivity|]. eexists. split.
  - intros fuel. vm_compute. reflexivity.
  - vm_compute. reflexivity.
Qed.

(** A text buffer written to a path of an empty storage. *)
Lemma C10_write_never_creates_its_target_witness :
  let ctx := example_ctx (λ _, Some "text/plain") in
  let w := example_world ∅ 100 stats_init in
  let buf := [Byte.x68; Byte.x69] in
  let full_path := translate_path ctx "/new.txt" in
  (∃ w' : world,
     (∀ fuel, sentinelfs_write rounded_log2 fuel ctx "/new.txt" buf 0 w = Some (- ENOENT, w'))
     ∧ files w' = files w
     ∧ open_fds w' = open_fds w
     ∧ trace w'
       = trace w ++ (if 0 =? 0 then [SysStat full_path] else [])
           ++ [SysOpen full_path])
  ∧ (full_path ∉ denied w →
     fst (sentinelfs_create ctx "/new.txt" w) = 0
     ∧ files (snd (sentinelfs_create ctx "/new.txt" w)) !! full_path = Some []).
Proof.
  intros ctx w buf full_path.
  pose proof (C10_write_never_creates_its_target rounded_log2 ctx "/new.txt"
                buf 0 w) as H.
  cbv zeta in H. fold full_path in H.
  replace (lookup_errno (files w) full_path) with ENOENT in H
    by (vm_compute; reflexivity).
  destruct H as (Hwrite & _ & _ & _ & _ & Hcreate);
    [vm_compute; reflexivity|vm_compute; reflexivity|].
  split; [exact Hwrite|exact Hcreate].
Defined.

(** A buffer and the same bytes in another order. *)
Lemma X1_entropy_of_a_permutation_witness :
  calculate_entropy rounded_log2 [Byte.x41; Byte.x42; Byte.x42; Byte.x43]
  = calculate_entropy rounded_log2 [Byte.x42; Byte.x42; Byte.x43; Byte.x41].
Proof.
  apply X1_entropy_of_a_permutation; [vm_compute; reflexivity|].
  apply (Permutation_cons_append [Byte.x42; Byte.x42; Byte.x43]).
Defined.

(** Two bytes: at most one bit. *)
Lemma X2_entropy_le_log2_length_rounded_witness :
  (calculate_entropy rounded_log2 [Byte.x00; Byte.xff]
   <= log2 (INR 2) + entropy_tolerance)%R.
Proof.
  apply (X2_entropy_le_log2_length_rounded rounded_log2 [Byte.x00; Byte.xff]);
    [exact rounded_log2_accurate|vm_compute; reflexivity|discriminate].
Defined.

(** 181 bytes, all different, of a type the classifier does not know. *)
Lemma X3_short_writes_are_never_blocked_witness :
  let ctx := example_ctx (λ _, Some "application/octet-stream") in
  let w := example_world ∅ 0 stats_init in
  fst (detect_ransomware rounded_log2 ctx (take 181 all_bytes) w) = 0
  ∧ blocked_writes (stats (snd (detect_ransomware rounded_log2 ctx (take 181 all_bytes) w)))
    = blocked_writes (stats w).
Proof.
  intros ctx w.
  apply X3_short_writes_are_never_blocked; [exact rounded_log2_accurate|].
  apply Nat.leb_le. vm_compute. reflexivity.
Defined.

(** The 256 byte values: 8 bits. *)
Lemma X4_entropy_of_distinct_bytes_rounded_witness :
  (Rabs (calculate_entropy rounded_log2 all_bytes - log2 (INR (length all_bytes)))
   <= entropy_tolerance)%R.
Proof.
  apply X4_entropy_of_distinct_bytes_rounded;
    [exact rounded_log2_accurate|exact all_bytes_NoDup|].
  intros H. apply (f_equal length) in H. vm_compute in H. discriminate H.
Defined.

(** 182 bytes, all different, of a type the classifier does not know. *)
Lemma X5_distinct_bytes_are_blocked_from_182_witness :
  let ctx := example_ctx (λ _, Some "application/octet-stream") in
  let w := example_world ∅ 0 stats_init in
  fst (detect_ransomware rounded_log2 ctx (take 182 all_bytes) w) = - EIO.
Proof.
  intros ctx w. apply X5_distinct_bytes_are_blocked_from_182.
  - exact rounded_log2_accurate.
  - apply (bool_decide_unpack _). vm_compute. reflexivity.
  - apply Nat.leb_le. vm_compute. reflexivity.
  - vm_compute. reflexivity.
Defined.

(** A virtual path of 4200 bytes and a longer one. *)
Lemma X8_long_paths_are_aliases_witness :
  let ctx := example_ctx (λ _, None) in
  let p := String "/" (string_of_chars 4200 "a") in
  translate_path ctx (p +:+ "/other") = translate_path ctx p
  ∧ ∀ (fuel : nat) (buf : list byte) (offset : Z) (w : world),
      sentinelfs_write rounded_log2 fuel ctx (p +:+ "/other") buf offset w
      = sentinelfs_write rounded_log2 fuel ctx p buf offset w.
Proof.
  intros ctx p. apply X8_long_paths_are_aliases.
  apply Nat.leb_le. vm_compute. reflexivity.
Defined.

(** Two bytes of text written at offset 1 of a file of five bytes. *)
Lemma X10_allowed_write_stores_the_payload_in_place_witness :
  let ctx := example_ctx (λ _, Some "text/plain") in
  let data := [Byte.x61; Byte.x62; Byte.x63; Byte.x64; Byte.x65] in
  let buf := [Byte.x58; Byte.x59] in
  let w := example_world {[ "/srv/storage/notes.txt" := data ]} 0 stats_init in
  ∃ w' : world,
    returns (λ fuel, sentinelfs_write rounded_log2 fuel ctx "/notes.txt" buf 1 w)
      (Z.of_nat (length buf), w')
    ∧ files w'
      = <[translate_path ctx "/notes.txt" := pwrite_image (Z.to_nat 1) buf data]>
          (files w)
    ∧ stats w' = incr_total_writes (stats w)
    ∧ open_fds w' = open_fds w.
Proof.
  intros ctx data buf w.
  apply (X10_allowed_write_stores_the_payload_in_place rounded_log2 ctx "/notes.txt" buf data 1 w);
    [ vm_compute; reflexivity | vm_compute; reflexivity
    | apply not_elem_of_empty | left; discriminate | lia | discriminate
    | vm_compute; reflexivity | vm_compute; lia ].
Defined.

(** A new, empty file, then a line of text written at offset 0. *)
Lemma X11_read_returns_what_was_written_witness :
  let ctx := example_ctx (λ _, Some "text/plain") in
  let buf := [Byte.x68; Byte.x65; Byte.x6c; Byte.x6c; Byte.x6f; Byte.x0a] in
  let w := example_world {[ "/srv/storage/hello.txt" := [] ]} 4096 stats_init in
  ∃ w' : world,
    returns (λ fuel, sentinelfs_write rounded_log2 fuel ctx "/hello.txt" buf 0 w)
      (Z.of_nat (length buf), w')
    ∧ sentinelfs_read ctx "/hello.txt" (length buf) 0 w'
      = (Z.of_nat (length buf), buf, w').
Proof.
  intros ctx buf w.
  apply (X11_read_returns_what_was_written rounded_log2 ctx "/hello.txt" buf [] 0 w);
    [ vm_compute; reflexivity | vm_compute; reflexivity
    | apply not_elem_of_empty | now right | lia | discriminate
    | vm_compute; reflexivity | apply Nat.leb_le; vm_compute; reflexivity ].
Defined.

(** A text document overwritten at offset 0 with the 256 byte values. *)
Lemma X13_backup_holds_the_contents_before_the_write_witness :
  let ctx := example_ctx (λ _, Some "application/octet-stream") in
  let data := [Byte.x64; Byte.x6f; Byte.x63] in
  let w := example_world {[ "/srv/storage/doc.txt" := data ]} 100 stats_init in
  let backup := get_backup_path ctx (translate_path ctx "/doc.txt") w in
  ∃ (r : Z) (w' : world),
    returns (λ fuel, sentinelfs_write rounded_log2 fuel ctx "/doc.txt" all_bytes 0 w) (r, w')
    ∧ files w' !! backup = Some data
    ∧ backups_created (stats w') = wrap64 (backups_created (stats w) + 1)
    ∧ (fst (detect_ransomware rounded_log2 ctx all_bytes w) ≠ 0 →
       r = - EIO ∧ files w' !! translate_path ctx "/doc.txt" = Some data).
Proof.
  intros ctx data w backup.
  apply (X13_backup_holds_the_contents_before_the_write rounded_log2 ctx "/doc.txt" all_bytes data w);
    [ vm_compute; reflexivity | discriminate | vm_compute; discriminate
    | apply not_elem_of_empty | apply not_elem_of_empty
    | vm_compute; discriminate | apply Nat.leb_le; vm_compute; reflexivity ].
Defined.

(** The backup directory is not writable; a text is written over a note. *)
Lemma X14_failed_backup_does_not_stop_the_write_witness :
  let ctx := example_ctx (λ _, Some "text/plain") in
  let data := [Byte.x6f; Byte.x6c; Byte.x64] in
  let buf := [Byte.x6e; Byte.x65; Byte.x77; Byte.x21] in
  let full_path := translate_path ctx "/note.txt" in
  let w :=
    {| files := {[ "/srv/storage/note.txt" := data ]};
       denied := {[ "/srv/storage/.sentinelfs_backups/note.txt.1700000000.backup" ]};
       space := 10; clock := 1700000000; open_fds := 0; trace := [];
       stderr := []; stats := stats_init |} in
  (∀ fuel, ∃ wb, create_jit_backup fuel ctx full_path (sys (SysStat full_path) w)
                 = Some (-1, wb))
  ∧ ∃ w' : world,
      returns (λ fuel, sentinelfs_write rounded_log2 fuel ctx "/note.txt" buf 0 w)
        (Z.of_nat (length buf), w')
      ∧ files w' = <[full_path := pwrite_image 0 buf data]> (files w)
      ∧ backups_created (stats w') = backups_created (stats w).
Proof.
  intros ctx data buf full_path w.
  apply (X14_failed_backup_does_not_stop_the_write rounded_log2 ctx "/note.txt" buf data w);
    [ vm_compute; reflexivity | discriminate | vm_compute; discriminate
    | vm_compute; set_solver | vm_compute; set_solver
    | vm_compute; reflexivity | discriminate | vm_compute; reflexivity
    | apply Nat.leb_le; vm_compute; reflexivity ].
Defined.

(** A document truncated, then overwritten with the 256 byte values. *)
Lemma X15_truncate_then_write_makes_no_backup_witness :
  let ctx := example_ctx (λ _, Some "application/octet-stream") in
  let data := [Byte.x64; Byte.x6f; Byte.x63] in
  let w := example_world {[ "/srv/storage/doc.txt" := data ]} 100 stats_init in
  let full_path := translate_path ctx "/doc.txt" in
  ∃ (wt : world) (r : Z) (w' : world),
    sentinelfs_truncate ctx "/doc.txt" 0 w = (0, wt)
    ∧ files wt !! full_path = Some []
    ∧ stats wt = stats w
    ∧ returns (λ fuel, sentinelfs_write rounded_log2 fuel ctx "/doc.txt" all_bytes 0 wt) (r, w')
    ∧ (∀ p : string, p ≠ full_path → files w' !! p = files w !! p)
    ∧ backups_created (stats w') = backups_created (stats w).
Proof.
  intros ctx data w full_path.
  apply (X15_truncate_then_write_makes_no_backup rounded_log2 ctx "/doc.txt" all_bytes data w);
    [vm_compute; reflexivity|apply not_elem_of_empty].
Defined.

(** A file of 50 MiB and one byte, overwritten at offset 0. *)
Lemma X21_large_files_are_written_without_backup_witness :
  let ctx := example_ctx (λ _, Some "application/octet-stream") in
  let data := big_file (JIT_BACKUP_MAX_SIZE + 1) in
  let w := example_world {[ "/srv/storage/disk.img" := data ]} 0 stats_init in
  let full_path := translate_path ctx "/disk.img" in
  ∃ (r : Z) (w' : world),
    returns (λ fuel, sentinelfs_write rounded_log2 fuel ctx "/disk.img" all_bytes 0 w) (r, w')
    ∧ SkippingBackup full_path ∈ stderr w'
    ∧ (∀ p : string, p ≠ full_path → files w' !! p = files w !! p)
    ∧ backups_created (stats w') = backups_created (stats w)
    ∧ (fst (detect_ransomware rounded_log2 ctx all_bytes w) ≠ 0 →
       r = - EIO ∧ files w' !! full_path = Some data).
Proof.
  intros ctx data w full_path.
  apply (X21_large_files_are_written_without_backup rounded_log2 ctx "/disk.img" all_bytes data w).
  - replace (translate_path ctx "/disk.img") with "/srv/storage/disk.img"
      by (vm_compute; reflexivity).
    apply lookup_singleton_eq.
  - unfold data. rewrite big_file_length, Z2Nat.id by (unfold JIT_BACKUP_MAX_SIZE; lia).
    lia.
Defined.

(** The bytes 'A', 'B', 'B', with the correctly rounded [log2]. *)
Lemma X24_entropy_stays_in_binary64_range_witness :
  let b := [Byte.x41; Byte.x42; Byte.x42] in
  Forall in_binary64_range (calculate_entropy_operands rounded_log2 b)
  ∧ in_binary64_range (calculate_entropy rounded_log2 b).
Proof.
  intros b.
  apply (X24_entropy_stays_in_binary64_range rounded_log2 b rounded_log2_accurate).
  vm_compute. reflexivity.
Defined.
